(* ===================================================================== *)
(* better-call, Node adapter: packages/better-call/src/adapters/node/    *)
(* request.ts.  A shallow embedding of getRequest (inbound adaptation)   *)
(* and setResponse (outbound adaptation) and the properties checked on   *)
(* them.                                                                 *)
(*                                                                       *)
(* Conventions of the embedding                                          *)
(*  - a JavaScript string is a [string]: the bytes of the UTF-8 encoding *)
(*    of a well-formed string; a Buffer / Uint8Array chunk is a [string] *)
(*    of bytes too, its [length] is [String.length];                     *)
(*  - a JavaScript number is [NaN] or an integer [Num z]; fractions and  *)
(*    infinities are outside the model;                                  *)
(*  - [undefined] is [None] where a value is optional;                   *)
(*  - an object used as a dictionary (the header bag of a request, the   *)
(*    header store of a response) is a [gmap string _];                  *)
(*  - a function that throws returns [Throws e], [e] being the text of   *)
(*    the error ([String(error)] for the transport's own errors);        *)
(*  - the objects of the platform the adapter drives (the request        *)
(*    emitter, the WHATWG stream controller, the response handle, the    *)
(*    body reader) are records; the calls the adapter makes on them to   *)
(*    write, end, destroy, pause, resume or cancel are appended to a     *)
(*    log, so that "called once" is a count over the log.                *)
(* ===================================================================== *)

From Stdlib Require Import ZArith String Ascii List Bool Lia.
From stdpp Require Import gmap strings list fin_maps pretty.
Import ListNotations.

Set Warnings "-register-all".
Open Scope string_scope.
Open Scope Z_scope.

(* --------------------------------------------------------------------- *)
(* 1. Values of the platform                                             *)
(* --------------------------------------------------------------------- *)

(** The outcome of a call that may throw. *)
Inductive Completion (A : Type) : Type :=
| Returns (a : A)
| Throws (e : string).
Arguments Returns {A} a.
Arguments Throws {A} e.

(** A JavaScript number, as far as this adapter needs one. *)
Inductive JSNumber : Type :=
| NaN
| Num (z : Z).

Definition isNaN (n : JSNumber) : bool :=
  match n with NaN => true | Num _ => false end.

(** Truthiness of a number: [NaN] and [0] are falsy. *)
Definition truthy_number (n : JSNumber) : bool :=
  match n with NaN => false | Num z => negb (z =? 0) end.

(** [a > b] on numbers: false as soon as one side is [NaN]. *)
Definition number_gt (a b : JSNumber) : bool :=
  match a, b with
  | Num x, Num y => y <? x
  | _, _ => false
  end.

(** [`${n}`] for a number. *)
Definition number_to_string (n : JSNumber) : string :=
  match n with NaN => "NaN" | Num z => pretty z end.

(** One header of [IncomingHttpHeaders]: [string | string[]]. *)
Inductive HeaderValue : Type :=
| HStr (s : string)
| HArr (l : list string).

(** Truthiness of [h[name]]: absent and the empty string are falsy, an
    array is an object and so truthy. *)
Definition truthy_header (h : option HeaderValue) : bool :=
  match h with
  | None => false
  | Some (HStr s) => negb (String.eqb s "")
  | Some (HArr _) => true
  end.

Definition is_digit (c : ascii) : bool :=
  let n := N_of_ascii c in ((48 <=? n) && (n <=? 57))%N.

Definition digit_value (c : ascii) : Z := Z.of_N (N_of_ascii c) - 48.

Fixpoint all_digits (s : string) : bool :=
  match s with
  | EmptyString => true
  | String c r => is_digit c && all_digits r
  end.

Fixpoint digits_value (acc : Z) (s : string) : Z :=
  match s with
  | EmptyString => acc
  | String c r => digits_value (10 * acc + digit_value c) r
  end.

(** [Number(s)] on a string.  The transport hands over a content-length
    it has already validated as a run of decimal digits; the empty
    string converts to 0 and everything that is not a run of digits is
    taken as [NaN]. *)
Definition Number_of_string (s : string) : JSNumber :=
  if all_digits s then Num (digits_value 0 s) else NaN.

Fixpoint join (sep : string) (l : list string) : string :=
  match l with
  | [] => ""
  | [x] => x
  | x :: r => x +:+ sep +:+ join sep r
  end.

(** [Number(h[name])]: [undefined] gives [NaN], an array is converted
    through its string form (its items joined by commas). *)
Definition Number (h : option HeaderValue) : JSNumber :=
  match h with
  | None => NaN
  | Some (HStr s) => Number_of_string s
  | Some (HArr l) => Number_of_string (join "," l)
  end.

(** [s.toLowerCase()], on the ASCII letters. *)
Definition lower_ascii (c : ascii) : ascii :=
  let n := N_of_ascii c in
  if ((65 <=? n) && (n <=? 90))%N then ascii_of_N (n + 32) else c.

Fixpoint toLowerCase (s : string) : string :=
  match s with
  | EmptyString => EmptyString
  | String c r => String (lower_ascii c) (toLowerCase r)
  end.

(** [s.startsWith(p)]. *)
Definition startsWith (s p : string) : bool := String.prefix p s.

(** The values a pre-parsed body can hold.  [JSObject] is a plain object
    (prototype [Object.prototype] or [null]) given by its own enumerable
    properties in order; [JSExotic] stands for every other object (a
    class instance, a Date, ...), known by its string coercion and its
    JSON text. *)
Inductive JSValue : Type :=
| JSUndefined
| JSNull
| JSBool (b : bool)
| JSNum (n : Z)
| JSStr (s : string)
| JSArray (items : list JSValue)
| JSObject (props : list (string * JSValue))
| JSURLSearchParams (pairs : list (string * string))
| JSExotic (str json : string).

(* --------------------------------------------------------------------- *)
(* 2. The transport request handle                                       *)
(* --------------------------------------------------------------------- *)

(** [IncomingMessage & { body?, baseUrl?, originalUrl? }]: the fields the
    adapter reads.  An absent [body] is [JSUndefined]. *)
Record IncomingMessage : Type := {
  headers : gmap string HeaderValue;
  method : string;
  url : string;
  httpVersionMajor : Z;
  destroyed : bool;
  readableEnded : bool;
  readable : bool;
  body : JSValue;
  baseUrl : option string;
  originalUrl : option string
}.

Definition getFirstHeaderValue (header : option HeaderValue) : option string :=
  match header with
  | Some (HArr l) => head l
  | Some (HStr s) => Some s
  | None => None
  end.

Definition hasFormUrlEncodedContentType (h : gmap string HeaderValue) : bool :=
  match getFirstHeaderValue (h !! "content-type") with
  | None => false
  | Some contentType =>
      if String.eqb contentType "" then false
      else startsWith (toLowerCase contentType) "application/x-www-form-urlencoded"
  end.

Definition isPlainObject (value : JSValue) : bool :=
  match value with
  | JSObject _ => true
  | _ => false
  end.

Definition canReadRawBody (request : IncomingMessage) : bool :=
  negb (destroyed request) && negb (readableEnded request) && readable request.

(* --------------------------------------------------------------------- *)
(* 3. Re-serialising a pre-parsed body                                   *)
(* --------------------------------------------------------------------- *)

(* A [URLSearchParams] is its list of name/value pairs, in order. *)

Definition hex_digit (n : N) : ascii :=
  if (n <? 10)%N then ascii_of_N (48 + n) else ascii_of_N (55 + n).

(** The bytes the form serialiser leaves as they are: ASCII letters and
    digits, and the four marks [*], [-], [.] and [_]. *)
Definition is_form_safe (c : ascii) : bool :=
  let n := N_of_ascii c in
  (((48 <=? n) && (n <=? 57)) || ((65 <=? n) && (n <=? 90)) ||
   ((97 <=? n) && (n <=? 122)) ||
   (n =? 42) || (n =? 45) || (n =? 46) || (n =? 95))%N.

Definition form_encode_byte (c : ascii) : string :=
  if is_form_safe c then String c EmptyString
  else if (N_of_ascii c =? 32)%N then "+"
  else String "%" (String (hex_digit (N_of_ascii c / 16))
                     (String (hex_digit (N_of_ascii c mod 16)) EmptyString)).

Fixpoint form_encode (s : string) : string :=
  match s with
  | EmptyString => EmptyString
  | String c r => form_encode_byte c +:+ form_encode r
  end.

Definition form_encode_pair (p : string * string) : string :=
  form_encode (fst p) +:+ "=" +:+ form_encode (snd p).

(** [params.toString()]: the application/x-www-form-urlencoded
    serialiser of the URL Standard. *)
Definition URLSearchParams_toString (params : list (string * string)) : string :=
  join "&" (map form_encode_pair params).

(** The one-character string holding a backslash. *)
Definition backslash : string := String (ascii_of_N 92) EmptyString.

(** JSON text of a string: quoted, with the two-character escapes (a
    backslash before the quote, the backslash and the letters b, t, n,
    f, r) and a backslash, [u00] and two hexadecimal digits for the
    other control characters. *)
Definition json_escape_byte (c : ascii) : string :=
  let n := N_of_ascii c in
  if (n =? 34)%N then backslash +:+ String c EmptyString
  else if (n =? 92)%N then backslash +:+ backslash
  else if (n =? 8)%N then backslash +:+ "b"
  else if (n =? 9)%N then backslash +:+ "t"
  else if (n =? 10)%N then backslash +:+ "n"
  else if (n =? 12)%N then backslash +:+ "f"
  else if (n =? 13)%N then backslash +:+ "r"
  else if (n <? 32)%N then
    backslash +:+ "u00" +:+
    String (lower_ascii (hex_digit (n / 16)))
      (String (lower_ascii (hex_digit (n mod 16))) EmptyString)
  else String c EmptyString.

Fixpoint json_escape (s : string) : string :=
  match s with
  | EmptyString => EmptyString
  | String c r => json_escape_byte c +:+ json_escape r
  end.

Definition json_quote (s : string) : string :=
  String (ascii_of_N 34) (json_escape s) +:+ String (ascii_of_N 34) EmptyString.

(** [JSON.stringify(value)]; [None] is [undefined]. An [undefined] item
    of an array is written [null], an [undefined] property is left out. *)
Fixpoint JSON_stringify (value : JSValue) : option string :=
  match value with
  | JSUndefined => None
  | JSNull => Some "null"
  | JSBool b => Some (if b then "true" else "false")
  | JSNum n => Some (pretty n)
  | JSStr s => Some (json_quote s)
  | JSArray items =>
      Some ("[" +:+
            join "," (map (fun item =>
                             match JSON_stringify item with
                             | Some t => t
                             | None => "null"
                             end) items) +:+ "]")
  | JSObject props =>
      Some ("{" +:+
            join "," (flat_map (fun kv =>
                                  match JSON_stringify (snd kv) with
                                  | Some t => [json_quote (fst kv) +:+ ":" +:+ t]
                                  | None => []
                                  end) props) +:+ "}")
  | JSURLSearchParams _ => Some "{}"
  | JSExotic _ json => Some json
  end.

(** The template literal [`${value}`]. *)
Fixpoint template_string (value : JSValue) : string :=
  match value with
  | JSUndefined => "undefined"
  | JSNull => "null"
  | JSBool b => if b then "true" else "false"
  | JSNum n => pretty n
  | JSStr s => s
  | JSArray items =>
      join "," (map (fun item =>
                       match item with
                       | JSUndefined | JSNull => ""
                       | _ => template_string item
                       end) items)
  | JSObject _ => "[object Object]"
  | JSURLSearchParams pairs => URLSearchParams_toString pairs
  | JSExotic str _ => str
  end.

(** [params.append(key, v)] with [v] the argument computed by the
    caller; [params] is threaded through as the mutated object. *)
Definition append (params : list (string * string)) (key v : string)
  : list (string * string) :=
  params ++ [(key, v)].

Fixpoint appendFormValue (params : list (string * string)) (key : string)
    (value : JSValue) : list (string * string) :=
  match value with
  | JSUndefined => params
  | JSArray items =>
      fold_left (fun ps item => appendFormValue ps key item) items params
  | JSNull => append params key ""
  | JSObject _ =>
      append params key
        (match JSON_stringify value with Some t => t | None => "undefined" end)
  | _ => append params key (template_string value)
  end.

Definition toFormUrlEncodedBody (body : list (string * JSValue)) : string :=
  URLSearchParams_toString
    (fold_left (fun params kv => appendFormValue params (fst kv) (snd kv))
       body []).

Definition serializeParsedBody (parsedBody : JSValue) (isFormUrlEncoded : bool)
  : string :=
  match parsedBody with
  | JSStr s => s
  | JSURLSearchParams pairs => URLSearchParams_toString pairs
  | _ =>
      if isFormUrlEncoded && isPlainObject parsedBody then
        match parsedBody with
        | JSObject props => toFormUrlEncodedBody props
        | _ => ""
        end
      else
        match JSON_stringify parsedBody with
        | Some t => t
        | None => ""
        end
  end.

(** The application/x-www-form-urlencoded parser of the URL Standard,
    the decoder a receiver applies to the serialised body. *)
Fixpoint split_on (sep : ascii) (s : string) : list string :=
  match s with
  | EmptyString => [EmptyString]
  | String c r =>
      if Ascii.eqb c sep then EmptyString :: split_on sep r
      else match split_on sep r with
           | [] => [String c EmptyString]
           | x :: l => String c x :: l
           end
  end.

(** The part of [s] before the first [sep], and the part after it when
    there is one. *)
Fixpoint split_first (sep : ascii) (s : string) : string * option string :=
  match s with
  | EmptyString => (EmptyString, None)
  | String c r =>
      if Ascii.eqb c sep then (EmptyString, Some r)
      else let '(a, b) := split_first sep r in (String c a, b)
  end.

Fixpoint plus_to_space (s : string) : string :=
  match s with
  | EmptyString => EmptyString
  | String c r =>
      String (if (N_of_ascii c =? 43)%N then ascii_of_N 32 else c) (plus_to_space r)
  end.

Definition hex_value (c : ascii) : option N :=
  let n := N_of_ascii c in
  if ((48 <=? n) && (n <=? 57))%N then Some (n - 48)%N
  else if ((65 <=? n) && (n <=? 70))%N then Some (n - 55)%N
  else if ((97 <=? n) && (n <=? 102))%N then Some (n - 87)%N
  else None.

Fixpoint percent_decode (s : string) : string :=
  match s with
  | EmptyString => EmptyString
  | String c r =>
      if (N_of_ascii c =? 37)%N then
        match r with
        | String h (String l r2) =>
            match hex_value h, hex_value l with
            | Some a, Some b => String (ascii_of_N (16 * a + b)) (percent_decode r2)
            | _, _ => String c (percent_decode r)
            end
        | _ => String c (percent_decode r)
        end
      else String c (percent_decode r)
  end.

Definition form_decode (s : string) : string := percent_decode (plus_to_space s).

(** One piece between two [&]: skipped when empty, cut at its first [=]
    otherwise, the value being empty when there is no [=]. *)
Definition parse_piece (piece : string) : list (string * string) :=
  if String.eqb piece "" then []
  else let '(name, value) := split_first "=" piece in
       [(form_decode name,
         form_decode (match value with Some v => v | None => "" end))].

Definition parse_form_urlencoded (input : string) : list (string * string) :=
  flat_map parse_piece (split_on "&" input).

(* --------------------------------------------------------------------- *)
(* 4. The pull bridge over the raw request stream                        *)
(* --------------------------------------------------------------------- *)

(** The platform's side of a [ReadableStream] built with the default
    queuing strategy (high-water mark 1, every chunk of size 1), after
    the Streams Standard: its state, its queue of chunks not yet read,
    the close-requested flag, the number of reads waiting for a chunk,
    and what the consumer's reads have settled to so far. *)
Inductive StreamState : Type :=
| Readable
| Closed
| Errored (e : string).

Inductive ReadOutcome : Type :=
| ReadChunk (chunk : string)
| ReadDone
| ReadError (e : string).

Record Controller : Type := {
  state : StreamState;
  queue : list string;
  closeRequested : bool;
  pendingReads : nat;
  observed : list ReadOutcome
}.

Definition is_readable (c : Controller) : bool :=
  match state c with Readable => true | _ => false end.

(** [controller.error(e)]: nothing unless the stream is readable; then
    the queue is dropped and every waiting read is rejected with [e]. *)
Definition controller_error (e : string) (c : Controller) : Controller :=
  if is_readable c then
    {| state := Errored e; queue := []; closeRequested := closeRequested c;
       pendingReads := 0%nat;
       observed := observed c ++ repeat (ReadError e) (pendingReads c) |}
  else c.

(** [controller.close()]: a TypeError when the stream is not readable or
    a close was already requested; the stream closes at once when its
    queue is empty, after the queue is drained otherwise. *)
Definition controller_close (c : Controller) : Completion Controller :=
  if closeRequested c || negb (is_readable c) then Throws "TypeError"
  else match queue c with
       | [] => Returns {| state := Closed; queue := []; closeRequested := true;
                          pendingReads := 0%nat;
                          observed := observed c ++ repeat ReadDone (pendingReads c) |}
       | _ => Returns {| state := state c; queue := queue c; closeRequested := true;
                         pendingReads := pendingReads c; observed := observed c |}
       end.

(** [controller.enqueue(chunk)]: a TypeError under the same condition; a
    waiting read takes the chunk directly, the queue takes it otherwise. *)
Definition controller_enqueue (chunk : string) (c : Controller)
  : Completion Controller :=
  if closeRequested c || negb (is_readable c) then Throws "TypeError"
  else match pendingReads c with
       | S n => Returns {| state := state c; queue := queue c;
                           closeRequested := closeRequested c; pendingReads := n;
                           observed := observed c ++ [ReadChunk chunk] |}
       | O => Returns {| state := state c; queue := queue c ++ [chunk];
                         closeRequested := closeRequested c; pendingReads := O;
                         observed := observed c |}
       end.

(** [controller.desiredSize]: [null] ([None]) on an errored stream, 0 on
    a closed one, the high-water mark less the queued chunks otherwise. *)
Definition desiredSize (c : Controller) : option Z :=
  match state c with
  | Errored _ => None
  | Closed => Some 0
  | Readable => Some (1 - Z.of_nat (length (queue c)))
  end.

(** A read by the consumer. *)
Definition controller_read (c : Controller) : Controller :=
  match queue c with
  | chunk :: rest =>
      {| state := match rest with
                  | [] => if closeRequested c then Closed else state c
                  | _ => state c
                  end;
         queue := rest; closeRequested := closeRequested c;
         pendingReads := pendingReads c;
         observed := observed c ++ [ReadChunk chunk] |}
  | [] =>
      match state c with
      | Readable => {| state := Readable; queue := []; closeRequested := closeRequested c;
                       pendingReads := S (pendingReads c); observed := observed c |}
      | Closed => {| state := Closed; queue := []; closeRequested := closeRequested c;
                     pendingReads := pendingReads c;
                     observed := observed c ++ [ReadDone] |}
      | Errored e => {| state := Errored e; queue := []; closeRequested := closeRequested c;
                        pendingReads := pendingReads c;
                        observed := observed c ++ [ReadError e] |}
      end
  end.

(** The stream's own part of a cancel: it closes, the waiting reads
    settle as done and the queue is dropped. *)
Definition controller_cancelled (c : Controller) : Controller :=
  {| state := Closed; queue := []; closeRequested := closeRequested c;
     pendingReads := 0%nat;
     observed := observed c ++ repeat ReadDone (pendingReads c) |}.

(** The calls the bridge makes on the request. *)
Inductive ReqCall : Type :=
| ReqPause
| ReqResume
| ReqDestroy (reason : option string).

(** The stream [get_raw_body] returns on its last path, with the
    variables its callbacks close over: [length], [content_length],
    [size], [cancelled]; its controller; and the calls made on [req]. *)
Record BodyStream : Type := {
  bs_length : JSNumber;
  bs_content_length : JSNumber;
  bs_size : Z;
  bs_cancelled : bool;
  bs_controller : Controller;
  bs_req_calls : list ReqCall
}.

Definition new_controller : Controller :=
  {| state := Readable; queue := []; closeRequested := false;
     pendingReads := 0%nat; observed := [] |}.

(** [req.on("error", ...)]. *)
Definition on_error (error : string) (s : BodyStream) : BodyStream :=
  {| bs_length := bs_length s; bs_content_length := bs_content_length s;
     bs_size := bs_size s;
     bs_cancelled := true;
     bs_controller := controller_error error (bs_controller s);
     bs_req_calls := bs_req_calls s |}.

(** [req.on("end", ...)]. *)
Definition on_end (s : BodyStream) : Completion BodyStream :=
  if bs_cancelled s then Returns s
  else match controller_close (bs_controller s) with
       | Throws e => Throws e
       | Returns c =>
           Returns {| bs_length := bs_length s;
                      bs_content_length := bs_content_length s;
                      bs_size := bs_size s; bs_cancelled := bs_cancelled s;
                      bs_controller := c; bs_req_calls := bs_req_calls s |}
       end.

(** The message of the error raised when the body outgrows its limit. *)
Definition size_exceeded_message (content_length length : JSNumber) : string :=
  "request body size exceeded " +:+
  (if truthy_number content_length then "'content-length'" else "BODY_SIZE_LIMIT") +:+
  " of " +:+ number_to_string length.

(** [req.on("data", ...)]. *)
Definition on_data (chunk : string) (s : BodyStream) : Completion BodyStream :=
  if bs_cancelled s then Returns s
  else
    let size := bs_size s + Z.of_nat (String.length chunk) in
    if number_gt (Num size) (bs_length s) then
      Returns {| bs_length := bs_length s;
                 bs_content_length := bs_content_length s;
                 bs_size := size;
                 bs_cancelled := true;
                 bs_controller :=
                   controller_error
                     (size_exceeded_message (bs_content_length s) (bs_length s))
                     (bs_controller s);
                 bs_req_calls := bs_req_calls s |}
    else
      match controller_enqueue chunk (bs_controller s) with
      | Throws e => Throws e
      | Returns c =>
          Returns {| bs_length := bs_length s;
                     bs_content_length := bs_content_length s;
                     bs_size := size;
                     bs_cancelled := bs_cancelled s;
                     bs_controller := c;
                     bs_req_calls :=
                       match desiredSize c with
                       | None => bs_req_calls s ++ [ReqPause]
                       | Some d => if d <=? 0 then bs_req_calls s ++ [ReqPause]
                                   else bs_req_calls s
                       end |}
      end.

(** [pull()]. *)
Definition pull (s : BodyStream) : BodyStream :=
  {| bs_length := bs_length s; bs_content_length := bs_content_length s;
     bs_size := bs_size s; bs_cancelled := bs_cancelled s;
     bs_controller := bs_controller s;
     bs_req_calls := bs_req_calls s ++ [ReqResume] |}.

(** [cancel(reason)], the cancel callback of the underlying source. *)
Definition source_cancel (reason : option string) (s : BodyStream) : BodyStream :=
  {| bs_length := bs_length s; bs_content_length := bs_content_length s;
     bs_size := bs_size s;
     bs_cancelled := true;
     bs_controller := bs_controller s;
     bs_req_calls := bs_req_calls s ++ [ReqDestroy reason] |}.

(** What can happen to the bridge once it is built: the request emits
    one of its three notifications, the stream pulls, the consumer reads
    or cancels. *)
Inductive InboundEvent : Type :=
| ReqError (error : string)
| ReqEnd
| ReqData (chunk : string)
| StreamPull
| ConsumerRead
| ConsumerCancel (reason : option string).

Definition with_controller (c : Controller) (s : BodyStream) : BodyStream :=
  {| bs_length := bs_length s; bs_content_length := bs_content_length s;
     bs_size := bs_size s; bs_cancelled := bs_cancelled s;
     bs_controller := c; bs_req_calls := bs_req_calls s |}.

(** One event.  A cancel by the consumer reaches [source_cancel] only
    on a stream still readable: the stream closes first, then calls the
    source's [cancel]. *)
Definition inbound_step (s : BodyStream) (ev : InboundEvent)
  : Completion BodyStream :=
  match ev with
  | ReqError error => Returns (on_error error s)
  | ReqEnd => on_end s
  | ReqData chunk => on_data chunk s
  | StreamPull => Returns (pull s)
  | ConsumerRead => Returns (with_controller (controller_read (bs_controller s)) s)
  | ConsumerCancel reason =>
      if is_readable (bs_controller s) then
        Returns (source_cancel reason
                   (with_controller (controller_cancelled (bs_controller s)) s))
      else Returns s
  end.

(** A run of events; an exception thrown by a listener ends it. *)
Fixpoint inbound_run (s : BodyStream) (evs : list InboundEvent)
  : Completion BodyStream :=
  match evs with
  | [] => Returns s
  | ev :: rest =>
      match inbound_step s ev with
      | Throws e => Throws e
      | Returns s' => inbound_run s' rest
      end
  end.

(** The bridge as [get_raw_body] builds it: nothing read, not cancelled,
    the three listeners in place. *)
Definition new_stream (length content_length : JSNumber) : BodyStream :=
  {| bs_length := length; bs_content_length := content_length;
     bs_size := 0; bs_cancelled := false;
     bs_controller := new_controller; bs_req_calls := [] |}.

(** The streams an adapted request can carry as its body. *)
Inductive ReadableStream : Type :=
| RawStream (s : BodyStream)
| CancelledStream
| BufferedStream (content : string).

(** [get_raw_body(req, body_size_limit)]; [Returns None] is [null].  The
    limit is [undefined] ([None]) or an integer, falsy when it is 0. *)
Definition get_raw_body (req : IncomingMessage) (body_size_limit : option Z)
  : Completion (option ReadableStream) :=
  let h := headers req in
  if negb (truthy_header (h !! "content-type")) then Returns None
  else
    let content_length := Number (h !! "content-length") in
    if ((httpVersionMajor req =? 1) && isNaN content_length &&
        (match h !! "transfer-encoding" with None => true | Some _ => false end))
       || (match content_length with Num 0 => true | _ => false end)
    then Returns None
    else
      let checked : Completion JSNumber :=
        match body_size_limit with
        | Some limit =>
            if negb (limit =? 0) then
              if negb (truthy_number content_length) then Returns (Num limit)
              else if number_gt content_length (Num limit) then
                Throws ("Received content-length of " +:+
                        number_to_string content_length +:+
                        ", but only accept up to " +:+ pretty limit +:+ " bytes.")
              else Returns content_length
            else Returns content_length
        | None => Returns content_length
        end in
      match checked with
      | Throws e => Throws e
      | Returns length =>
          if destroyed req then Returns (Some CancelledStream)
          else Returns (Some (RawStream (new_stream length content_length)))
      end.

(* --------------------------------------------------------------------- *)
(* 5. URL reconstruction and getRequest                                  *)
(* --------------------------------------------------------------------- *)

(** [s.at(-1)]. *)
Fixpoint last_char (s : string) : option ascii :=
  match s with
  | EmptyString => None
  | String c EmptyString => Some c
  | String _ r => last_char r
  end.

Definition constructRelativeUrl (req : IncomingMessage) : string :=
  match baseUrl req, originalUrl req with
  | Some base, Some original =>
      if String.eqb base "" || String.eqb original "" then
        (if String.eqb base "" then url req else base +:+ url req)
      else if String.eqb (base +:+ url req) original then base +:+ url req
      else
        let originalPathEnding := last_char (fst (split_first "?" original)) in
        match originalPathEnding with
        | Some c => if Ascii.eqb c "/" then base +:+ url req else base
        | None => base
        end
  | Some base, None =>
      if String.eqb base "" then url req else base +:+ url req
  | None, _ => url req
  end.

(** The adapted request: what [new Request(url, init)] is given. *)
Record Request : Type := {
  request_url : string;
  request_method : string;
  request_body : option ReadableStream;
  request_headers : gmap string HeaderValue
}.

Definition getRequest (request : IncomingMessage) (base : string)
    (bodySizeLimit : option Z) : Completion Request :=
  let isFormUrlEncoded := hasFormUrlEncodedContentType (headers request) in
  let body : Completion (option ReadableStream) :=
    if negb (String.eqb (method request) "GET") &&
       negb (String.eqb (method request) "HEAD") then
      if canReadRawBody request then get_raw_body request bodySizeLimit
      else match body request with
           | JSUndefined => Returns None
           | parsedBody =>
               Returns (Some (BufferedStream
                                (serializeParsedBody parsedBody isFormUrlEncoded)))
           end
    else Returns None in
  match body with
  | Throws e => Throws e
  | Returns b =>
      Returns {| request_url := base +:+ constructRelativeUrl request;
                 request_method := method request;
                 request_body := b;
                 request_headers := headers request |}
  end.

(* --------------------------------------------------------------------- *)
(* 6. The transport response handle and the adapted response             *)
(* --------------------------------------------------------------------- *)

Inductive EventName : Type :=
| ev_close
| ev_error
| ev_drain.

Definition EventName_eqb (a b : EventName) : bool :=
  match a, b with
  | ev_close, ev_close | ev_error, ev_error | ev_drain, ev_drain => true
  | _, _ => false
  end.

(** The functions registered as listeners on a handle: the closures
    [cancel] and [next] of the [setResponse] call at hand, and the
    listeners of others, told apart by a number. *)
Inductive Listener : Type :=
| cancel_listener
| next_listener
| other_listener (id : nat).

Definition Listener_eqb (a b : Listener) : bool :=
  match a, b with
  | cancel_listener, cancel_listener | next_listener, next_listener => true
  | other_listener i, other_listener j => Nat.eqb i j
  | _, _ => false
  end.

(** A registration: the event, the listener, and whether it was made
    with [once]. *)
Record Registration : Type := {
  reg_event : EventName;
  reg_listener : Listener;
  reg_once : bool
}.

(** The calls on the response handle that write or terminate. *)
Inductive ResCall : Type :=
| WriteHead (code : Z)
| Write (chunk : string)
| End (data : option string)
| Destroy (e : string).

(** [ServerResponse]: header store, status code, destroyed flag,
    registered listeners, what the coming [write] calls will return
    ([true] once the list is used up), and the log of calls. *)
Record ServerResponse : Type := {
  res_headers : gmap string HeaderValue;
  statusCode : Z;
  res_destroyed : bool;
  listeners : list Registration;
  write_results : list bool;
  res_calls : list ResCall
}.

Definition setHeader (key : string) (value : HeaderValue) (res : ServerResponse)
  : ServerResponse :=
  {| res_headers := <[toLowerCase key := value]> (res_headers res);
     statusCode := statusCode res; res_destroyed := res_destroyed res;
     listeners := listeners res; write_results := write_results res;
     res_calls := res_calls res |}.

Definition getHeaderNames (res : ServerResponse) : list string :=
  (map_to_list (res_headers res)).*1.

Definition removeHeader (name : string) (res : ServerResponse) : ServerResponse :=
  {| res_headers := delete (toLowerCase name) (res_headers res);
     statusCode := statusCode res; res_destroyed := res_destroyed res;
     listeners := listeners res; write_results := write_results res;
     res_calls := res_calls res |}.

Definition set_statusCode (code : Z) (res : ServerResponse) : ServerResponse :=
  {| res_headers := res_headers res;
     statusCode := code; res_destroyed := res_destroyed res;
     listeners := listeners res; write_results := write_results res;
     res_calls := res_calls res |}.

Definition log_call (c : ResCall) (res : ServerResponse) : ServerResponse :=
  {| res_headers := res_headers res;
     statusCode := statusCode res; res_destroyed := res_destroyed res;
     listeners := listeners res; write_results := write_results res;
     res_calls := res_calls res ++ [c] |}.

Definition writeHead (code : Z) (res : ServerResponse) : ServerResponse :=
  log_call (WriteHead code) (set_statusCode code res).

(** [res.write(chunk)]: the handle and the flow-control result. *)
Definition write (chunk : string) (res : ServerResponse) : ServerResponse * bool :=
  let logged := log_call (Write chunk) res in
  match write_results res with
  | [] => (logged, true)
  | b :: rest =>
      ({| res_headers := res_headers logged;
          statusCode := statusCode logged; res_destroyed := res_destroyed logged;
          listeners := listeners logged; write_results := rest;
          res_calls := res_calls logged |}, b)
  end.

Definition end_ (data : option string) (res : ServerResponse) : ServerResponse :=
  log_call (End data) res.

Definition destroy (e : string) (res : ServerResponse) : ServerResponse :=
  let logged := log_call (Destroy e) res in
  {| res_headers := res_headers logged;
     statusCode := statusCode logged; res_destroyed := true;
     listeners := listeners logged; write_results := write_results logged;
     res_calls := res_calls logged |}.

Definition with_listeners (ls : list Registration) (res : ServerResponse)
  : ServerResponse :=
  {| res_headers := res_headers res;
     statusCode := statusCode res; res_destroyed := res_destroyed res;
     listeners := ls; write_results := write_results res;
     res_calls := res_calls res |}.

Definition on (ev : EventName) (l : Listener) (res : ServerResponse) : ServerResponse :=
  with_listeners
    (listeners res ++ [{| reg_event := ev; reg_listener := l; reg_once := false |}]) res.

Definition once (ev : EventName) (l : Listener) (res : ServerResponse) : ServerResponse :=
  with_listeners
    (listeners res ++ [{| reg_event := ev; reg_listener := l; reg_once := true |}]) res.

Definition matches (ev : EventName) (l : Listener) (r : Registration) : bool :=
  EventName_eqb (reg_event r) ev && Listener_eqb (reg_listener r) l.

Fixpoint remove_first (ev : EventName) (l : Listener) (rs : list Registration)
  : list Registration :=
  match rs with
  | [] => []
  | r :: rest => if matches ev l r then rest else r :: remove_first ev l rest
  end.

(** [res.off(ev, l)]: the most recently added registration of [l] for
    [ev] is removed, when there is one. *)
Definition off (ev : EventName) (l : Listener) (res : ServerResponse) : ServerResponse :=
  with_listeners (rev (remove_first ev l (rev (listeners res)))) res.

(** What one [reader.read()] of the response body settles to. *)
Inductive ReadResult : Type :=
| RChunk (value : string)
| RDone
| RReject (e : string).

Inductive ReaderCall : Type :=
| Read
| Cancel (reason : option string).

(** The body of the adapted response and, once [getReader()] is called,
    its reader: what the coming reads settle to while the body is not
    cancelled (a read stays pending once the list is used up), whether
    the body is locked, the error [cancel] rejects with if it does, the
    cancelled flag and the log of calls on the reader. *)
Record ResponseBody : Type := {
  locked : bool;
  results : list ReadResult;
  cancel_rejects : option string;
  reader_cancelled : bool;
  reader_calls : list ReaderCall
}.

(** [Response]: [response_headers] is what iterating [response.headers]
    yields, names in lower case. *)
Record Response : Type := {
  status : Z;
  response_headers : list (string * string);
  response_body : option ResponseBody
}.

(** [response.headers.get(key)]: the values under [key], joined. *)
Definition headers_get (hs : list (string * string)) (key : string) : string :=
  join ", " (map snd (List.filter (fun kv => String.eqb (fst kv) key) hs)).

(** [reader.cancel(reason)]: the reader and the promise returned. *)
Definition reader_cancel (reason : option string) (rd : ResponseBody)
  : ResponseBody * Completion unit :=
  ({| locked := locked rd; results := results rd;
      cancel_rejects := cancel_rejects rd; reader_cancelled := true;
      reader_calls := reader_calls rd ++ [Cancel reason] |},
   match cancel_rejects rd with
   | Some e => Throws e
   | None => Returns tt
   end).

(** [reader.read()] is called: the call is logged, the promise settles
    later. *)
Definition reader_read (rd : ResponseBody) : ResponseBody :=
  {| locked := locked rd; results := results rd;
     cancel_rejects := cancel_rejects rd; reader_cancelled := reader_cancelled rd;
     reader_calls := reader_calls rd ++ [Read] |}.

Definition with_results (rs : list ReadResult) (rd : ResponseBody) : ResponseBody :=
  {| locked := locked rd; results := rs;
     cancel_rejects := cancel_rejects rd; reader_cancelled := reader_cancelled rd;
     reader_calls := reader_calls rd |}.

(** Where the function [next] stands. *)
Inductive LoopState : Type :=
| NotStarted
| AwaitingRead
| AwaitingDrain
| Finished
| Failed.

(** The state of one [setResponse] call: the handle, the reader once it
    is acquired, the read loop, and the rejections of promises that
    nothing handles. *)
Record Outbound : Type := {
  res : ServerResponse;
  reader : option ResponseBody;
  loop : LoopState;
  unhandled : list string
}.

Definition with_res (r : ServerResponse) (o : Outbound) : Outbound :=
  {| res := r; reader := reader o; loop := loop o; unhandled := unhandled o |}.

Definition with_loop (l : LoopState) (o : Outbound) : Outbound :=
  {| res := res o; reader := reader o; loop := l; unhandled := unhandled o |}.

(* --------------------------------------------------------------------- *)
(* 7. setResponse                                                        *)
(* --------------------------------------------------------------------- *)

Section SetResponse.

(** What the transport and the environment decide: whether
    [res.setHeader(key, value)] throws on a handle, and then the text
    [String(error)] of what it throws; the cookie splitter of
    set-cookie-parser; whether one of the two Lambda markers is set in
    [process.env]. *)
Variable setHeader_throws : ServerResponse -> string -> HeaderValue -> option string.
Variable splitCookiesString : string -> list string.
Variable lambda : bool.

(** A promise nothing handles: its rejection goes unhandled. *)
Definition floating (p : Completion unit) (unh : list string) : list string :=
  match p with
  | Throws e => unh ++ [e]
  | Returns _ => unh
  end.

(** [p.catch(() => {})]: the rejection is handled, nothing is left. *)
Definition catch_ignore (p : Completion unit) (unh : list string) : list string :=
  unh.

(** The closure [cancel] of [setResponse]; [error] is [None] when the
    listener is called without an argument, and an Error object is
    always truthy. *)
Definition cancel (error : option string) (o : Outbound) : Outbound :=
  let r1 := off ev_error cancel_listener (off ev_close cancel_listener (res o)) in
  match reader o with
  | Some rd =>
      let '(rd', p) := reader_cancel error rd in
      {| res := match error with Some e => destroy e r1 | None => r1 end;
         reader := Some rd';
         loop := loop o;
         unhandled := catch_ignore p (unhandled o) |}
  | None =>
      {| res := match error with Some e => destroy e r1 | None => r1 end;
         reader := None; loop := loop o; unhandled := unhandled o |}
  end.

(** A call of [next]: it runs up to its first [await reader.read()]. *)
Definition next (o : Outbound) : Outbound :=
  {| res := res o;
     reader := option_map reader_read (reader o);
     loop := AwaitingRead;
     unhandled := unhandled o |}.

(** The awaited read settles and [next] goes on to its following
    suspension: the next read, the wait for a drain, or its end.  A
    read on a cancelled body settles as done. *)
Definition next_settled (o : Outbound) : Outbound :=
  match loop o, reader o with
  | AwaitingRead, Some rd =>
      if reader_cancelled rd then with_loop Finished o
      else
        match results rd with
        | [] => o
        | RDone :: rest =>
            {| res := res o; reader := Some (with_results rest rd);
               loop := Finished; unhandled := unhandled o |}
        | RReject e :: rest =>
            cancel (Some e)
              {| res := res o; reader := Some (with_results rest rd);
                 loop := Failed; unhandled := unhandled o |}
        | RChunk value :: rest =>
            let '(r, writeResult) := write value (res o) in
            if negb writeResult then
              if lambda then
                {| res := r; reader := Some (reader_read (with_results rest rd));
                   loop := AwaitingRead; unhandled := unhandled o |}
              else
                {| res := once ev_drain next_listener r;
                   reader := Some (with_results rest rd);
                   loop := AwaitingDrain; unhandled := unhandled o |}
            else
              {| res := end_ None r;
                 reader := Some (reader_read (with_results rest rd));
                 loop := AwaitingRead; unhandled := unhandled o |}
        end
  | _, _ => o
  end.

Definition invoke (l : Listener) (arg : option string) (o : Outbound) : Outbound :=
  match l with
  | cancel_listener => cancel arg o
  | next_listener => next o
  | other_listener _ => o
  end.

Fixpoint remove_once (ev : EventName) (l : Listener) (rs : list Registration)
  : list Registration :=
  match rs with
  | [] => []
  | r :: rest =>
      if matches ev l r && reg_once r then rest else r :: remove_once ev l rest
  end.

(** The call of one registered listener during an emit; one registered
    with [once] is removed just before its call. *)
Definition deliver (ev : EventName) (arg : option string) (o : Outbound)
    (r : Registration) : Outbound :=
  invoke (reg_listener r) arg
    (if reg_once r
     then with_res (with_listeners
                      (remove_once ev (reg_listener r) (listeners (res o)))
                      (res o)) o
     else o).

(** [res.emit(ev, arg)]: the listeners registered for [ev] at that
    moment are called in order. *)
Definition emit (ev : EventName) (arg : option string) (o : Outbound) : Outbound :=
  fold_left (deliver ev arg)
    (List.filter (fun r => EventName_eqb (reg_event r) ev) (listeners (res o)))
    o.

(** What happens after [setResponse] has returned its promise. *)
Inductive OutboundEvent : Type :=
| Settle
| Emit (ev : EventName) (arg : option string).

Definition outbound_step (o : Outbound) (e : OutboundEvent) : Outbound :=
  match e with
  | Settle => next_settled o
  | Emit ev arg => emit ev arg o
  end.

Definition outbound_run (o : Outbound) (evs : list OutboundEvent) : Outbound :=
  fold_left outbound_step evs o.

(** The value [setHeader] is given for an entry of the headers [all]:
    the cookies split apart for [set-cookie], the value itself
    otherwise. *)
Definition header_value (all : list (string * string)) (key value : string)
  : HeaderValue :=
  if String.eqb key "set-cookie"
  then HArr (splitCookiesString (headers_get all key))
  else HStr value.

(** The loop over the header entries; the flag tells whether a
    [setHeader] threw and the fallback response was sent. *)
Fixpoint header_phase (all entries : list (string * string)) (r : ServerResponse)
  : ServerResponse * bool :=
  match entries with
  | [] => (r, false)
  | (key, value) :: rest =>
      let v := header_value all key value in
      match setHeader_throws r key v with
      | Some e =>
          (end_ (Some e)
             (writeHead 500
                (fold_left (fun r' name => removeHeader name r')
                   (getHeaderNames r) r)),
           true)
      | None => header_phase all rest (setHeader key v r)
      end
  end.

Definition locked_message : string :=
  "Fatal error: Response body is locked. " +:+
  "This can happen when the response was already read (for example through 'response.json()' or 'response.text()').".

(** [response.body.getReader()]: the body is locked to the reader. *)
Definition getReader (b : ResponseBody) : ResponseBody :=
  {| locked := true; results := results b;
     cancel_rejects := cancel_rejects b; reader_cancelled := reader_cancelled b;
     reader_calls := reader_calls b |}.

(** [setResponse(res, response)] up to the point where it returns its
    promise: everything but the continuations of [next]. *)
Definition setResponse (res0 : ServerResponse) (response : Response) : Outbound :=
  let '(r, aborted) :=
    header_phase (response_headers response) (response_headers response) res0 in
  if aborted then
    {| res := r; reader := None; loop := NotStarted; unhandled := [] |}
  else
    let r := writeHead (status response) (set_statusCode (status response) r) in
    match response_body response with
    | None =>
        {| res := end_ None r; reader := None; loop := NotStarted; unhandled := [] |}
    | Some b =>
        if locked b then
          {| res := end_ (Some locked_message) r; reader := None;
             loop := NotStarted; unhandled := [] |}
        else
          let rd := getReader b in
          if res_destroyed r then
            let '(rd', p) := reader_cancel None rd in
            {| res := r; reader := Some rd'; loop := NotStarted;
               unhandled := floating p [] |}
          else
            next {| res := on ev_error cancel_listener
                             (on ev_close cancel_listener r);
                    reader := Some rd; loop := NotStarted; unhandled := [] |}
    end.

(** How often the handle was ended, destroyed, and the reader
    cancelled. *)
Definition is_End (c : ResCall) : bool :=
  match c with End _ => true | _ => false end.

Definition is_Destroy (c : ResCall) : bool :=
  match c with Destroy _ => true | _ => false end.

Definition is_Cancel (c : ReaderCall) : bool :=
  match c with Cancel _ => true | _ => false end.

Definition end_calls (r : ServerResponse) : nat :=
  length (List.filter is_End (res_calls r)).

Definition destroy_calls (r : ServerResponse) : nat :=
  length (List.filter is_Destroy (res_calls r)).

Definition cancel_calls (rd : option ResponseBody) : nat :=
  match rd with
  | Some b => length (List.filter is_Cancel (reader_calls b))
  | None => O
  end.

End SetResponse.

(* --------------------------------------------------------------------- *)
(* 8. Sample handles                                                     *)
(* --------------------------------------------------------------------- *)

(** A readable HTTP/1.1 POST request. *)
Definition post_request (h : gmap string HeaderValue) : IncomingMessage :=
  {| headers := h; method := "POST"; url := "/upload"; httpVersionMajor := 1;
     destroyed := false; readableEnded := false; readable := true;
     body := JSUndefined; baseUrl := None; originalUrl := None |}.

(** A request seen by a sub-router mounted at [base]. *)
Definition mounted_request (base relative original : string) : IncomingMessage :=
  {| headers := ∅; method := "GET"; url := relative; httpVersionMajor := 1;
     destroyed := false; readableEnded := false; readable := true;
     body := JSUndefined; baseUrl := Some base; originalUrl := Some original |}.

(** Declared length 100 and no content type. *)
Definition untyped_headers : gmap string HeaderValue :=
  <["content-length" := HStr "100"]> ∅.

(** Declared length 100 and a JSON content type. *)
Definition json_headers : gmap string HeaderValue :=
  <["content-length" := HStr "100"]> (<["content-type" := HStr "application/json"]> ∅).



(** The original path without its query string, and whether it ends in
    the separator. *)
Definition path_of (original : string) : string := fst (split_first "?" original).

Definition ends_in_separator (path : string) : bool :=
  match last_char path with
  | Some c => Ascii.eqb c "/"
  | None => false
  end.

(** The mount prefix as the specification reads it: the empty string
    when the handle has none. *)
Definition mount_prefix (req : IncomingMessage) : string :=
  match baseUrl req with
  | Some b => b
  | None => ""
  end.

(** Whether the handle carries both pieces of mount metadata. *)
Definition has_mount_metadata (req : IncomingMessage) : bool :=
  match baseUrl req, originalUrl req with
  | Some b, Some o => negb (String.eqb b "") && negb (String.eqb o "")
  | _, _ => false
  end.

(** Declared length 3 and a JSON content type; no declared length and
    a JSON content type on a chunked request. *)
Definition short_headers : gmap string HeaderValue :=
  <["content-length" := HStr "3"]> (<["content-type" := HStr "application/json"]> ∅).

Definition chunked_headers : gmap string HeaderValue :=
  <["transfer-encoding" := HStr "chunked"]>
    (<["content-type" := HStr "application/json"]> ∅).

(** A bridge limited to 4 bytes by the configured limit, after a read by
    the consumer and a chunk of 6 bytes. *)
Definition overflowed_stream : BodyStream :=
  {| bs_length := Num 4; bs_content_length := NaN; bs_size := 6;
     bs_cancelled := true;
     bs_controller :=
       {| state := Errored "request body size exceeded BODY_SIZE_LIMIT of 4";
          queue := []; closeRequested := false; pendingReads := 0%nat;
          observed := [ReadError "request body size exceeded BODY_SIZE_LIMIT of 4"] |};
     bs_req_calls := [] |}.

(** The underlying source counts as cancelled when [req.destroy] was
    called on it: the one call of the bridge that stops it for good. *)
Definition source_cancelled (s : BodyStream) : Prop :=
  exists reason, In (ReqDestroy reason) (bs_req_calls s).

(** C3 as the specification words it: when a chunk takes the running
    total over the limit on a stream still open, the consumer gets the
    error and the underlying source is cancelled. *)
Definition C3_as_stated : Prop :=
  forall (length content_length : JSNumber) (evs : list InboundEvent)
         (s : BodyStream) (chunk : string),
    inbound_run (new_stream length content_length) evs = Returns s ->
    bs_cancelled s = false ->
    state (bs_controller s) = Readable ->
    number_gt (Num (bs_size s + Z.of_nat (String.length chunk))) (bs_length s) = true ->
    exists s',
      inbound_step s (ReqData chunk) = Returns s' /\
      state (bs_controller s') =
        Errored (size_exceeded_message (bs_content_length s) (bs_length s)) /\
      source_cancelled s'.

(** What holds of the bridge all along: once the cancelled flag is set
    the stream is no longer readable. *)
Definition cancelled_is_settled (s : BodyStream) : Prop :=
  bs_cancelled s = true -> is_readable (bs_controller s) = false.

(** The header store of a handle keeps its names in lower case. *)
Definition lowercase_keys (r : ServerResponse) : Prop :=
  forall k v, res_headers r !! k = Some v -> toLowerCase k = k.

(** A fresh handle with one header already set, and one the peer has
    already destroyed. *)
Definition fresh_response : ServerResponse :=
  {| res_headers := <["x-powered-by" := HStr "node"]> ∅; statusCode := 200;
     res_destroyed := false; listeners := []; write_results := [];
     res_calls := [] |}.

Definition destroyed_response : ServerResponse :=
  {| res_headers := ∅; statusCode := 200;
     res_destroyed := true; listeners := []; write_results := [];
     res_calls := [] |}.

(** A transport that rejects a header value holding a line feed, and one
    that accepts everything. *)
Definition has_line_feed (v : HeaderValue) : bool :=
  match v with
  | HStr s => match index 0 (String (ascii_of_N 10) EmptyString) s with
              | Some _ => true
              | None => false
              end
  | HArr _ => false
  end.

Definition rejects_line_feed (r : ServerResponse) (key : string) (v : HeaderValue)
  : option string :=
  if has_line_feed v
  then Some ("TypeError [ERR_INVALID_CHAR]: Invalid character in header content [" +:+
             key +:+ "]")
  else None.

Definition accepts_all (r : ServerResponse) (key : string) (v : HeaderValue)
  : option string := None.

(** A cookie splitter for the samples: the combined value as one cookie. *)
Definition one_cookie (s : string) : list string := [s].

(** A body that yields the given read results, unlocked, and a response
    with a content type around it. *)
Definition body_of (rs : list ReadResult) : ResponseBody :=
  {| locked := false; results := rs; cancel_rejects := None;
     reader_cancelled := false; reader_calls := [] |}.

(** A body whose reader refuses to be cancelled. *)
Definition refusing_body : ResponseBody :=
  {| locked := false; results := [RChunk "hello"; RDone];
     cancel_rejects := Some "already errored";
     reader_cancelled := false; reader_calls := [] |}.


Definition text_response (b : option ResponseBody) : Response :=
  {| status := 200; response_headers := [("content-type", "text/plain")];
     response_body := b |}.

(** A response whose second header holds a line feed. *)
Definition bad_header_response : Response :=
  {| status := 201;
     response_headers :=
       [("content-type", "text/plain");
        ("x-note", String "a" (String (ascii_of_N 10) "b"));
        ("x-other", "c")];
     response_body := Some (body_of [RChunk "hello"; RDone]) |}.

(** The two notifications [cancel] is registered for: the handle
    emits [close] without an argument and [error] with the error. *)
Inductive Notification : Type :=
| NClose
| NError (e : string).

Definition notify (n : Notification) (o : Outbound) : Outbound :=
  match n with
  | NClose => emit ev_close None o
  | NError e => emit ev_error (Some e) o
  end.

Definition carries_error (n : Notification) : nat :=
  match n with
  | NClose => 0%nat
  | NError _ => 1%nat
  end.

(** The two registrations of [cancel] that [setResponse] makes. *)
Definition cancel_on_close : Registration :=
  {| reg_event := ev_close; reg_listener := cancel_listener; reg_once := false |}.

Definition cancel_on_error : Registration :=
  {| reg_event := ev_error; reg_listener := cancel_listener; reg_once := false |}.

(** The registrations that are not those of the call at hand, and those
    that are. *)
Definition is_other (r : Registration) : bool :=
  match reg_listener r with
  | other_listener _ => true
  | _ => false
  end.

Definition own_listeners (rs : list Registration) : list Registration :=
  List.filter (fun r => negb (is_other r)) rs.

(** [setResponse] reaches its streaming phase: every header is written,
    the body is there and unlocked, the handle is not destroyed; the
    listeners found on the handle are those of others. *)
Definition streams
    (setHeader_throws : ServerResponse -> string -> HeaderValue -> option string)
    (splitCookiesString : string -> list string)
    (res0 : ServerResponse) (response : Response) (b : ResponseBody) : Prop :=
  snd (header_phase setHeader_throws splitCookiesString
         (response_headers response) (response_headers response) res0) = false /\
  response_body response = Some b /\
  locked b = false /\
  res_destroyed res0 = false /\
  Forall (fun r => is_other r = true) (listeners res0).

(** C7 as the specification words it: two notifications in a row make
    one reader cancel and one destroy. *)
Definition C7_as_stated : Prop :=
  forall setHeader_throws splitCookiesString res0 response b (n1 n2 : Notification),
    streams setHeader_throws splitCookiesString res0 response b ->
    let o := setResponse setHeader_throws splitCookiesString res0 response in
    let o2 := notify n2 (notify n1 o) in
    cancel_calls (reader o2) = S (cancel_calls (reader o)) /\
    destroy_calls (res o2) = S (destroy_calls (res o)).

(** The call is over: [next] is not waiting for a read or for a drain. *)
Definition settled (o : Outbound) : bool :=
  match loop o with
  | AwaitingRead | AwaitingDrain => false
  | _ => true
  end.


(** The values a property contributes to the form, as the amended C6
    reads: none for [undefined], the empty string for [null], those of
    its items for an array, the JSON text for a plain object, the string
    coercion for anything else. *)
Fixpoint form_values (value : JSValue) : list string :=
  match value with
  | JSUndefined => []
  | JSNull => [""]
  | JSArray items => flat_map form_values items
  | JSObject _ =>
      [match JSON_stringify value with Some t => t | None => "undefined" end]
  | _ => [template_string value]
  end.

Definition form_pairs (body : list (string * JSValue)) : list (string * string) :=
  flat_map (fun kv => map (pair (fst kv)) (form_values (snd kv))) body.

(** The same as the specification words it, where whatever is not an
    array, [null] or a plain object is coerced to a string, [undefined]
    included. *)
Fixpoint stated_values (value : JSValue) : list string :=
  match value with
  | JSNull => [""]
  | JSArray items => flat_map stated_values items
  | JSObject _ =>
      [match JSON_stringify value with Some t => t | None => "undefined" end]
  | _ => [template_string value]
  end.

Definition stated_pairs (body : list (string * JSValue)) : list (string * string) :=
  flat_map (fun kv => map (pair (fst kv)) (stated_values (snd kv))) body.

(** C6 as the specification words it. *)
Definition C6_as_stated : Prop :=
  forall body : list (string * JSValue),
    parse_form_urlencoded (serializeParsedBody (JSObject body) true) = stated_pairs body.

(** A parsed form: an array with an [undefined] item, a [null] and a
    nested array, a nested plain object, an [undefined] property, a
    boolean. *)
Definition sample_form : list (string * JSValue) :=
  [("a b", JSArray [JSNum 1; JSUndefined; JSNull; JSArray [JSStr "x&y=z+%"]]);
   ("o", JSObject [("k", JSStr "v")]);
   ("u", JSUndefined);
   ("t", JSBool true)].

(** Whether the byte [c] occurs in [s]. *)
Fixpoint contains (c : ascii) (s : string) : bool :=
  match s with
  | EmptyString => false
  | String d r => Ascii.eqb d c || contains c r
  end.

(* --------------------------------------------------------------------- *)
(* 9. Measures and samples for the further properties                    *)
(* --------------------------------------------------------------------- *)

(** The request with another pre-parsed body. *)
Definition with_body (b : JSValue) (req : IncomingMessage) : IncomingMessage :=
  {| headers := headers req; method := method req; url := url req;
     httpVersionMajor := httpVersionMajor req; destroyed := destroyed req;
     readableEnded := readableEnded req; readable := readable req;
     body := b; baseUrl := baseUrl req; originalUrl := originalUrl req |}.


(** A destroyed HTTP/1.1 POST request. *)
Definition destroyed_request (h : gmap string HeaderValue) : IncomingMessage :=
  {| headers := h; method := "POST"; url := "/upload"; httpVersionMajor := 1;
     destroyed := true; readableEnded := false; readable := false;
     body := JSUndefined; baseUrl := None; originalUrl := None |}.

(** A form content type written with capitals and a parameter. *)
Definition form_headers : gmap string HeaderValue :=
  <["content-type" := HStr "Application/X-WWW-Form-Urlencoded; charset=utf-8"]> ∅.

(** The bytes of a list of chunks. *)
Fixpoint chunk_bytes (chunks : list string) : Z :=
  match chunks with
  | [] => 0
  | c :: r => Z.of_nat (String.length c) + chunk_bytes r
  end.

(** The chunks among what the consumer's reads settled to. *)
Fixpoint observed_chunks (obs : list ReadOutcome) : list string :=
  match obs with
  | [] => []
  | ReadChunk c :: r => c :: observed_chunks r
  | _ :: r => observed_chunks r
  end.

(** The chunks the bridge has let through, read or still queued. *)
Definition delivered (s : BodyStream) : list string :=
  (observed_chunks (observed (bs_controller s)) ++ queue (bs_controller s))%list.

(** The chunks of the data notifications of a run of events. *)
Fixpoint data_of (evs : list InboundEvent) : list string :=
  match evs with
  | [] => []
  | ReqData c :: r => c :: data_of r
  | _ :: r => data_of r
  end.

(** The events of a request that flows and a consumer that reads: no
    error, no end, no cancel. *)
Definition flowing (ev : InboundEvent) : bool :=
  match ev with
  | ReqData _ | StreamPull | ConsumerRead => true
  | _ => false
  end.

Definition is_ReqDestroy (c : ReqCall) : bool :=
  match c with ReqDestroy _ => true | _ => false end.

(** Whether the request is paused: whether the last of the pause and
    resume calls made on it is a pause. *)
Definition paused (calls : list ReqCall) : bool :=
  fold_left (fun p c => match c with
                        | ReqPause => true
                        | ReqResume => false
                        | ReqDestroy _ => p
                        end) calls false.

(** What the platform does at an event: a paused request emits no data,
    and the stream pulls only when it wants a chunk (its desired size
    is positive). *)
Definition allowed (s : BodyStream) (ev : InboundEvent) : bool :=
  match ev with
  | ReqData _ => negb (paused (bs_req_calls s))
  | StreamPull =>
      match desiredSize (bs_controller s) with
      | Some d => 0 <? d
      | None => false
      end
  | _ => true
  end.

(** A run of events in which the platform keeps to that discipline. *)
Fixpoint disciplined (s : BodyStream) (evs : list InboundEvent) : bool :=
  match evs with
  | [] => true
  | ev :: rest =>
      allowed s ev &&
      match inbound_step s ev with
      | Returns s' => disciplined s' rest
      | Throws _ => true
      end
  end.

(** A bridge in full flow: not cancelled, its stream readable with no
    close requested, and nothing queued while a read is waiting. *)
Definition in_flow (s : BodyStream) : Prop :=
  bs_cancelled s = false /\
  state (bs_controller s) = Readable /\
  closeRequested (bs_controller s) = false /\
  (pendingReads (bs_controller s) <> 0%nat -> queue (bs_controller s) = []).

(** A bridge limited to 10 bytes that has buffered two chunks. *)
Definition buffered_stream : BodyStream :=
  {| bs_length := Num 10; bs_content_length := Num 10; bs_size := 5;
     bs_cancelled := false;
     bs_controller :=
       {| state := Readable; queue := ["abc"; "de"]; closeRequested := false;
          pendingReads := 0%nat; observed := [] |};
     bs_req_calls := [ReqPause; ReqPause] |}.

(** What the size check keeps true of a bridge limited to [L] bytes: the
    chunks let through hold at most [L] bytes, and while the bridge is
    not cancelled they are covered by the running size, itself within
    the limit. *)
Definition bounded (L : Z) (s : BodyStream) : Prop :=
  chunk_bytes (delivered s) <= L /\
  (bs_cancelled s = false ->
   chunk_bytes (delivered s) <= bs_size s /\ bs_size s <= L).

(** How often the bridge has destroyed the request. *)
Definition destroys (s : BodyStream) : nat :=
  length (List.filter is_ReqDestroy (bs_req_calls s)).

(** The request is destroyed at most once, and not while the stream is
    readable. *)
Definition destroy_guarded (s : BodyStream) : Prop :=
  (is_readable (bs_controller s) = true -> destroys s = 0%nat) /\
  (destroys s <= 1)%nat.

(** A stream that is closed or in error holds no chunk. *)
Definition settled_is_empty (s : BodyStream) : Prop :=
  is_readable (bs_controller s) = false -> queue (bs_controller s) = [].

(** At most one chunk is buffered, and while one is the request is
    paused. *)
Definition buffer_bounded (s : BodyStream) : Prop :=
  (queue (bs_controller s) <> [] -> paused (bs_req_calls s) = true) /\
  (length (queue (bs_controller s)) <= 1)%nat.

(** The bytes a serialised form is made of: the bytes left as they
    are, the plus sign, the percent sign and the two separators. *)
Definition is_wire_byte (c : ascii) : bool :=
  is_form_safe c ||
  (let n := N_of_ascii c in ((n =? 43) || (n =? 37) || (n =? 38) || (n =? 61))%N).

Fixpoint all_bytes (p : ascii -> bool) (s : string) : bool :=
  match s with
  | EmptyString => true
  | String c r => p c && all_bytes p r
  end.

(** The request with another content-type header. *)
Definition with_content_type (v : HeaderValue) (h : gmap string HeaderValue)
  : gmap string HeaderValue :=
  <["content-type" := v]> h.

(** The value of the last entry named [k] among header entries. *)
Fixpoint last_entry (k : string) (entries : list (string * string)) : option string :=
  match entries with
  | [] => None
  | (key, value) :: rest =>
      match last_entry k rest with
      | Some v => Some v
      | None => if String.eqb key k then Some value else None
      end
  end.

(** The status lines written on a handle, and the chunks written on it,
    in order. *)
Definition is_WriteHead (c : ResCall) : bool :=
  match c with WriteHead _ => true | _ => false end.

Definition status_lines (r : ServerResponse) : list ResCall :=
  List.filter is_WriteHead (res_calls r).

Fixpoint written_chunks (calls : list ResCall) : list string :=
  match calls with
  | [] => []
  | Write c :: rest => c :: written_chunks rest
  | _ :: rest => written_chunks rest
  end.

Definition written (r : ServerResponse) : list string :=
  written_chunks (res_calls r).

(** The chunks among read results, and those the body of a response
    will yield. *)
Fixpoint chunks_of (rs : list ReadResult) : list string :=
  match rs with
  | [] => []
  | RChunk c :: rest => c :: chunks_of rest
  | _ :: rest => chunks_of rest
  end.

Definition body_chunks (response : Response) : list string :=
  match response_body response with
  | Some b => chunks_of (results b)
  | None => []
  end.

(** The chunks the reader of a call has still to yield. *)
Definition pending_chunks (o : Outbound) : list string :=
  match reader o with
  | Some rd => chunks_of (results rd)
  | None => []
  end.

(** The registration [next] makes when a write is refused. *)
Definition next_on_drain : Registration :=
  {| reg_event := ev_drain; reg_listener := next_listener; reg_once := true |}.

(** A response with two cookies combined under [set-cookie]. *)
Definition cookie_response : Response :=
  {| status := 200;
     response_headers := [("content-type", "text/plain"); ("set-cookie", "a=1, b=2")];
     response_body := None |}.

(** A splitter for the samples that cuts at each comma followed by a
    space. *)
Fixpoint split_at_comma_space (s : string) : list string :=
  match s with
  | EmptyString => [EmptyString]
  | String c r =>
      match r with
      | String d r2 =>
          if (Ascii.eqb c ",") && (Ascii.eqb d " ") then EmptyString :: split_at_comma_space r2
          else match split_at_comma_space r with
               | [] => [String c EmptyString]
               | x :: l => String c x :: l
               end
      | EmptyString => [String c EmptyString]
      end
  end.

(** A streaming call waiting for a read whose next chunk will be
    refused by the handle. *)
Definition congested : Outbound :=
  {| res := {| res_headers := ∅; statusCode := 200; res_destroyed := false;
               listeners := [{| reg_event := ev_drain;
                                reg_listener := other_listener 7;
                                reg_once := false |};
                             cancel_on_close; cancel_on_error];
               write_results := [false];
               res_calls := [WriteHead 200] |};
     reader := Some {| locked := true; results := [RChunk "a"; RChunk "b"; RDone];
                       cancel_rejects := None; reader_cancelled := false;
                       reader_calls := [Read] |};
     loop := AwaitingRead;
     unhandled := [] |}.


(** The registrations for [drain]. *)
Definition drain_listeners (rs : list Registration) : list Registration :=
  List.filter (fun r => EventName_eqb (reg_event r) ev_drain) rs.

(** [setResponse] answers without streaming: a header write throws, or
    there is no body, or the body is locked, or the handle is found
    destroyed. *)
Definition answers_at_once
    (setHeader_throws : ServerResponse -> string -> HeaderValue -> option string)
    (splitCookiesString : string -> list string)
    (res0 : ServerResponse) (response : Response) : Prop :=
  snd (header_phase setHeader_throws splitCookiesString
         (response_headers response) (response_headers response) res0) = true \/
  response_body response = None \/
  exists b, response_body response = Some b /\
            (locked b = true \/ res_destroyed res0 = true).

(* ===================================================================== *)
(* Properties                                                            *)
(* ===================================================================== *)

(* --------------------------------------------------------------------- *)
(* Inbound: the gates of get_raw_body and getRequest                     *)
(* --------------------------------------------------------------------- *)

Lemma getRequest_bodyless (req : IncomingMessage) (base : string) (limit : option Z) :
  method req = "GET" \/ method req = "HEAD" ->
  getRequest req base limit =
    Returns {| request_url := base +:+ constructRelativeUrl req;
               request_method := method req;
               request_body := None;
               request_headers := headers req |}.
Proof.
  intros [Hm | Hm]; unfold getRequest; rewrite Hm; reflexivity.
Qed.

Lemma getRequest_raw_path (req : IncomingMessage) (base : string) (limit : option Z) :
  method req <> "GET" -> method req <> "HEAD" -> canReadRawBody req = true ->
  getRequest req base limit =
    match get_raw_body req limit with
    | Throws e => Throws e
    | Returns b =>
        Returns {| request_url := base +:+ constructRelativeUrl req;
                   request_method := method req;
                   request_body := b;
                   request_headers := headers req |}
    end.
Proof.
  intros Hg Hh Hc. unfold getRequest.
  apply String.eqb_neq in Hg. apply String.eqb_neq in Hh.
  rewrite Hg, Hh, Hc. reflexivity.
Qed.

(** C4: a request whose method is GET or HEAD is adapted without a body
    ([null]), whatever its headers, its readable state, its pre-parsed
    body and the size limit; the adaptation does not throw. *)
Theorem bodyless_methods_have_null_body
    (req : IncomingMessage) (base : string) (limit : option Z) :
  method req = "GET" \/ method req = "HEAD" ->
  exists r, getRequest req base limit = Returns r /\ request_body r = None.
Proof.
  intros Hm. rewrite (getRequest_bodyless req base limit Hm).
  eexists. split; reflexivity.
Qed.

Lemma bodyless_methods_have_null_body_witness :
  exists r,
    getRequest
      {| headers := json_headers; method := "HEAD"; url := "/"; httpVersionMajor := 1;
         destroyed := false; readableEnded := true; readable := false;
         body := JSObject [("a", JSNum 1)]; baseUrl := None; originalUrl := None |}
      "http://localhost" (Some 10) = Returns r /\ request_body r = None.
Proof.
  apply bodyless_methods_have_null_body. right. reflexivity.
Defined.

(** C10: without a content-type header [get_raw_body] returns [null]
    before it looks at anything else, so on the raw-stream path the
    adapted request has no body, whatever content-length and
    transfer-encoding say. *)
Theorem no_content_type_no_body
    (req : IncomingMessage) (base : string) (limit : option Z) :
  headers req !! "content-type" = None ->
  get_raw_body req limit = Returns None /\
  (method req <> "GET" -> method req <> "HEAD" -> canReadRawBody req = true ->
   exists r, getRequest req base limit = Returns r /\ request_body r = None).
Proof.
  intros Hct.
  assert (Hraw : get_raw_body req limit = Returns None).
  { unfold get_raw_body. rewrite Hct. reflexivity. }
  split; [exact Hraw |].
  intros Hg Hh Hc. rewrite (getRequest_raw_path req base limit Hg Hh Hc), Hraw.
  eexists. split; reflexivity.
Qed.

Lemma no_content_type_no_body_witness :
  get_raw_body (post_request untyped_headers) (Some 10) = Returns None /\
  exists r, getRequest (post_request untyped_headers) "http://localhost" (Some 10)
            = Returns r /\ request_body r = None.
Proof.
  destruct (no_content_type_no_body (post_request untyped_headers)
              "http://localhost" (Some 10)) as [H1 H2].
  - reflexivity.
  - split; [exact H1 |]. apply H2; [discriminate | discriminate | reflexivity].
Defined.




(* --------------------------------------------------------------------- *)
(* Inbound: URL reconstruction                                           *)
(* --------------------------------------------------------------------- *)

(** C5: the three cases of the reconstruction.  Without both pieces of
    mount metadata the path is the mount prefix (empty when absent)
    followed by the relative path; with them, the concatenation when it
    equals the original path; otherwise the concatenation when the
    original path, its query string left aside, ends in the separator,
    and the bare mount prefix when it does not. *)
Theorem constructRelativeUrl_cases (req : IncomingMessage) :
  (has_mount_metadata req = false ->
   constructRelativeUrl req = mount_prefix req +:+ url req) /\
  (forall original,
     has_mount_metadata req = true -> originalUrl req = Some original ->
     mount_prefix req +:+ url req = original ->
     constructRelativeUrl req = mount_prefix req +:+ url req) /\
  (forall original,
     has_mount_metadata req = true -> originalUrl req = Some original ->
     mount_prefix req +:+ url req <> original ->
     ends_in_separator (path_of original) = true ->
     constructRelativeUrl req = mount_prefix req +:+ url req) /\
  (forall original,
     has_mount_metadata req = true -> originalUrl req = Some original ->
     mount_prefix req +:+ url req <> original ->
     ends_in_separator (path_of original) = false ->
     constructRelativeUrl req = mount_prefix req).
Proof.
  unfold has_mount_metadata, constructRelativeUrl, mount_prefix,
    ends_in_separator, path_of.
  destruct (baseUrl req) as [b |]; [destruct (originalUrl req) as [o |] |].
  - destruct (String.eqb_spec b "") as [-> | Hb]; cbn [negb andb orb].
    { split; [reflexivity |]. repeat split; intros; discriminate. }
    destruct (String.eqb_spec o "") as [-> | Ho]; cbn [negb andb orb].
    { split; [reflexivity |]. repeat split; intros; discriminate. }
    split; [discriminate |].
    split; [| split]; intros original _ [= <-] Hne.
    + apply String.eqb_eq in Hne. rewrite Hne. reflexivity.
    + apply String.eqb_neq in Hne. rewrite Hne. intros He.
      destruct (last_char (split_first "?" o).1) as [c |]; [| discriminate He].
      rewrite He. reflexivity.
    + apply String.eqb_neq in Hne. rewrite Hne. intros He.
      destruct (last_char (split_first "?" o).1) as [c |]; [| reflexivity].
      rewrite He. reflexivity.
  - split; [intros _; destruct (String.eqb_spec b ""); subst; reflexivity |].
    repeat split; intros; discriminate.
  - split; [intros _; reflexivity |].
    repeat split; intros; discriminate.
Qed.

Lemma constructRelativeUrl_cases_witness :
  constructRelativeUrl (mounted_request "/api" "/users" "/api/users") = "/api/users" /\
  constructRelativeUrl (mounted_request "/api" "/" "/api") = "/api" /\
  constructRelativeUrl (mounted_request "/api" "/" "/api/?page=2") = "/api/" /\
  constructRelativeUrl (post_request ∅) = "/upload".
Proof.
  split; [| split; [| split]].
  - apply (proj1 (proj2 (constructRelativeUrl_cases
                           (mounted_request "/api" "/users" "/api/users")))
             "/api/users"); reflexivity.
  - apply (proj2 (proj2 (proj2 (constructRelativeUrl_cases
                                  (mounted_request "/api" "/" "/api"))))
             "/api"); [reflexivity | reflexivity | discriminate | reflexivity].
  - apply (proj1 (proj2 (proj2 (constructRelativeUrl_cases
                                  (mounted_request "/api" "/" "/api/?page=2"))))
             "/api/?page=2"); [reflexivity | reflexivity | discriminate | reflexivity].
  - apply (proj1 (constructRelativeUrl_cases (post_request ∅))). reflexivity.
Defined.

(* --------------------------------------------------------------------- *)
(* Inbound: the pull bridge                                              *)
(* --------------------------------------------------------------------- *)

Lemma controller_error_settled (e : string) (c : Controller) :
  is_readable (controller_error e c) = false.
Proof.
  unfold controller_error. destruct (is_readable c) eqn:Hr; [reflexivity | exact Hr].
Qed.

Lemma controller_error_not_readable (e : string) (c : Controller) :
  is_readable c = false -> controller_error e c = c.
Proof. intros Hr. unfold controller_error. rewrite Hr. reflexivity. Qed.

Lemma controller_read_settled (c : Controller) :
  is_readable c = false -> is_readable (controller_read c) = false.
Proof.
  unfold controller_read, is_readable.
  destruct c as [st q cr p ob]; cbn.
  destruct q as [| x [| y q]]; cbn; destruct st; cbn; try congruence;
    destruct cr; cbn; congruence.
Qed.

Lemma inbound_step_cancelled_is_settled (s s' : BodyStream) (ev : InboundEvent) :
  inbound_step s ev = Returns s' -> cancelled_is_settled s -> cancelled_is_settled s'.
Proof.
  unfold cancelled_is_settled.
  destruct ev as [e | | chunk | | | reason]; cbn [inbound_step].
  - intros [= <-] _ _. apply controller_error_settled.
  - unfold on_end. destruct (bs_cancelled s) eqn:Hc.
    + intros [= <-] H _. apply H. reflexivity.
    + destruct (controller_close (bs_controller s)); [| discriminate].
      intros [= <-] _. cbn. discriminate.
  - unfold on_data. destruct (bs_cancelled s) eqn:Hc.
    + intros [= <-] H _. apply H. reflexivity.
    + destruct (number_gt _ _).
      * intros [= <-] _ _. apply controller_error_settled.
      * destruct (controller_enqueue chunk (bs_controller s)); [| discriminate].
        intros [= <-] _. cbn. discriminate.
  - intros [= <-] H. exact H.
  - intros [= <-] H Hc. cbn in *. apply controller_read_settled. exact (H Hc).
  - destruct (is_readable (bs_controller s)) eqn:Hr.
    + intros [= <-] _ _. reflexivity.
    + intros [= <-] _ _. exact Hr.
Qed.

Lemma inbound_run_cancelled_is_settled (evs : list InboundEvent) (s s' : BodyStream) :
  inbound_run s evs = Returns s' -> cancelled_is_settled s -> cancelled_is_settled s'.
Proof.
  revert s. induction evs as [| ev evs IH]; intros s; cbn [inbound_run].
  - intros [= <-] H. exact H.
  - destruct (inbound_step s ev) as [s1 |] eqn:Hs; [| discriminate].
    intros Hrun Hinv. apply (IH s1 Hrun).
    exact (inbound_step_cancelled_is_settled s s1 ev Hs Hinv).
Qed.

Lemma new_stream_cancelled_is_settled (length content_length : JSNumber) :
  cancelled_is_settled (new_stream length content_length).
Proof. intros H. discriminate H. Qed.

Lemma inbound_step_limits (s s' : BodyStream) (ev : InboundEvent) :
  inbound_step s ev = Returns s' ->
  bs_length s' = bs_length s /\ bs_content_length s' = bs_content_length s.
Proof.
  destruct ev as [e | | chunk | | | reason]; cbn [inbound_step].
  - intros [= <-]. split; reflexivity.
  - unfold on_end. destruct (bs_cancelled s).
    + intros [= <-]. split; reflexivity.
    + destruct (controller_close (bs_controller s)); [| discriminate].
      intros [= <-]. split; reflexivity.
  - unfold on_data. destruct (bs_cancelled s).
    + intros [= <-]. split; reflexivity.
    + destruct (number_gt _ _).
      * intros [= <-]. split; reflexivity.
      * destruct (controller_enqueue chunk (bs_controller s)); [| discriminate].
        intros [= <-]. split; reflexivity.
  - intros [= <-]. split; reflexivity.
  - intros [= <-]. split; reflexivity.
  - destruct (is_readable (bs_controller s)); intros [= <-]; split; reflexivity.
Qed.

Lemma inbound_run_limits (evs : list InboundEvent) (s s' : BodyStream) :
  inbound_run s evs = Returns s' ->
  bs_length s' = bs_length s /\ bs_content_length s' = bs_content_length s.
Proof.
  revert s. induction evs as [| ev evs IH]; intros s; cbn [inbound_run].
  - intros [= <-]. split; reflexivity.
  - destruct (inbound_step s ev) as [s1 |] eqn:Hs; [| discriminate].
    intros Hrun. destruct (IH s1 Hrun) as [H1 H2].
    destruct (inbound_step_limits s s1 ev Hs) as [H3 H4].
    split; congruence.
Qed.

(** A cancelled bridge ignores what the request still emits. *)
Lemma cancelled_ignores_source (s : BodyStream) :
  bs_cancelled s = true -> is_readable (bs_controller s) = false ->
  (forall e, inbound_step s (ReqError e) = Returns s) /\
  inbound_step s ReqEnd = Returns s /\
  (forall chunk, inbound_step s (ReqData chunk) = Returns s).
Proof.
  intros Hc Hr. cbn [inbound_step]. unfold on_error, on_end, on_data.
  rewrite Hc. repeat split.
  intros e. rewrite (controller_error_not_readable e _ Hr).
  destruct s; cbn in *. subst. reflexivity.
Qed.

(** C9: on a bridge built by [get_raw_body] and driven by any events,
    once the cancelled flag is set an error and an end of the request
    change nothing at all (nothing more reaches the consumer); while
    the flag is not set and the stream is open, an error puts the stream
    in error with that error, rejecting the waiting reads, and an end
    requests its close: the stream closes at once, the waiting reads
    settling as done, when nothing is queued, and after the queued
    chunks are read otherwise. *)
Theorem source_error_and_end
    (length content_length : JSNumber) (evs : list InboundEvent) (s : BodyStream) :
  inbound_run (new_stream length content_length) evs = Returns s ->
  (bs_cancelled s = true ->
   (forall e, inbound_step s (ReqError e) = Returns s) /\
   inbound_step s ReqEnd = Returns s) /\
  (bs_cancelled s = false ->
   state (bs_controller s) = Readable ->
   closeRequested (bs_controller s) = false ->
   (forall e, exists s',
      inbound_step s (ReqError e) = Returns s' /\
      state (bs_controller s') = Errored e /\
      observed (bs_controller s') =
        (observed (bs_controller s) ++
         repeat (ReadError e) (pendingReads (bs_controller s)))%list) /\
   (exists s',
      inbound_step s ReqEnd = Returns s' /\
      closeRequested (bs_controller s') = true /\
      queue (bs_controller s') = queue (bs_controller s) /\
      (queue (bs_controller s) = [] ->
       state (bs_controller s') = Closed /\
       observed (bs_controller s') =
         (observed (bs_controller s) ++
          repeat ReadDone (pendingReads (bs_controller s)))%list))).
Proof.
  intros Hrun.
  pose proof (inbound_run_cancelled_is_settled evs _ s Hrun
                (new_stream_cancelled_is_settled length content_length)) as Hinv.
  split.
  - intros Hc. destruct (cancelled_ignores_source s Hc (Hinv Hc)) as (H1 & H2 & _).
    split; assumption.
  - intros Hc Hst Hcr. split.
    + intros e. eexists. split; [reflexivity |].
      cbn. unfold controller_error, is_readable. rewrite Hst. cbn. split; reflexivity.
    + cbn [inbound_step]. unfold on_end, controller_close, is_readable.
      rewrite Hc, Hcr, Hst. cbn [negb orb].
      destruct (queue (bs_controller s)) as [| x q] eqn:Hq.
      * eexists. split; [reflexivity |]. cbn. repeat split; reflexivity.
      * eexists. split; [reflexivity |]. cbn.
        split; [reflexivity |]. split; [reflexivity |].
        intros Hq0. discriminate Hq0.
Qed.

Lemma source_error_and_end_witness :
  (inbound_run (new_stream (Num 4) NaN) [ConsumerRead; ReqData "abcdef"]
     = Returns overflowed_stream /\
   bs_cancelled overflowed_stream = true /\
   inbound_step overflowed_stream (ReqError "aborted") = Returns overflowed_stream /\
   inbound_step overflowed_stream ReqEnd = Returns overflowed_stream) /\
  (exists s',
     inbound_step (new_stream (Num 4) NaN) (ReqError "aborted") = Returns s' /\
     state (bs_controller s') = Errored "aborted") /\
  (exists s',
     inbound_step (new_stream (Num 4) NaN) ReqEnd = Returns s' /\
     state (bs_controller s') = Closed).
Proof.
  split; [| split].
  - destruct (source_error_and_end (Num 4) NaN [ConsumerRead; ReqData "abcdef"]
                overflowed_stream eq_refl) as [H _].
    destruct (H eq_refl) as [H1 H2].
    split; [reflexivity |]. split; [reflexivity |]. split; [apply H1 | exact H2].
  - destruct (source_error_and_end (Num 4) NaN [] (new_stream (Num 4) NaN)
                eq_refl) as [_ H].
    destruct (H eq_refl eq_refl eq_refl) as [He _].
    destruct (He "aborted") as (s' & H1 & H2 & _).
    exists s'. split; assumption.
  - destruct (source_error_and_end (Num 4) NaN [] (new_stream (Num 4) NaN)
                eq_refl) as [_ H].
    destruct (H eq_refl eq_refl eq_refl) as [_ (s' & H1 & _ & _ & H4)].
    exists s'. split; [exact H1 |]. exact (proj1 (H4 eq_refl)).
Defined.

(** The stream [get_raw_body] builds: its limit is the declared length
    when there is one, the configured limit otherwise, and none ([NaN],
    which no size exceeds) when there is neither. *)
Lemma get_raw_body_stream (req : IncomingMessage) (limit : option Z) (s0 : BodyStream) :
  get_raw_body req limit = Returns (Some (RawStream s0)) ->
  s0 = new_stream (bs_length s0) (Number (headers req !! "content-length")) /\
  ((exists n, Number (headers req !! "content-length") = Num n /\ n <> 0 /\
              bs_length s0 = Num n) \/
   (Number (headers req !! "content-length") = NaN /\
    ((exists l, limit = Some l /\ l <> 0 /\ bs_length s0 = Num l) \/
     bs_length s0 = NaN))).
Proof.
  unfold get_raw_body.
  destruct (negb (truthy_header (headers req !! "content-type"))); [discriminate |].
  destruct (Number (headers req !! "content-length")) as [| n] eqn:Hcl.
  - destruct ((httpVersionMajor req =? 1) && isNaN NaN && _ || _); [discriminate |].
    destruct limit as [l |].
    + destruct (Z.eqb_spec l 0) as [-> | Hl]; cbn [negb truthy_number].
      * destruct (destroyed req); intros [= <-].
        split; [reflexivity |]. right. split; [reflexivity |]. right. reflexivity.
      * destruct (destroyed req); intros [= <-].
        split; [reflexivity |]. right. split; [reflexivity |]. left.
        exists l. repeat split. exact Hl.
    + destruct (destroyed req); intros [= <-].
      split; [reflexivity |]. right. split; [reflexivity |]. right. reflexivity.
  - destruct (Z.eqb_spec n 0) as [-> | Hn].
    { rewrite orb_true_r. discriminate. }
    assert (Hz : match n with 0 => true | _ => false end = false)
      by (destruct n; [contradiction | reflexivity | reflexivity]).
    cbn [isNaN]. rewrite andb_false_r, Hz. cbn [andb orb].
    assert (Ht : truthy_number (Num n) = true)
      by (cbn; apply negb_true_iff, Z.eqb_neq, Hn).
    destruct limit as [l |].
    + destruct (negb (l =? 0)); rewrite ?Ht; cbn [negb].
      * destruct (number_gt (Num n) (Num l)); [discriminate |].
        destruct (destroyed req); intros [= <-].
        split; [reflexivity |]. left. exists n. repeat split. exact Hn.
      * destruct (destroyed req); intros [= <-].
        split; [reflexivity |]. left. exists n. repeat split. exact Hn.
    + destruct (destroyed req); intros [= <-].
      split; [reflexivity |]. left. exists n. repeat split. exact Hn.
Qed.

(** The two wordings of the message never coincide. *)
Lemma size_exceeded_messages_differ (n l : Z) :
  "request body size exceeded 'content-length' of " +:+ pretty n <>
  "request body size exceeded BODY_SIZE_LIMIT of " +:+ pretty l.
Proof. cbn [String.append]. intros H. discriminate H. Qed.

(** C3, counterexample: a chunked POST without declared length under a
    configured limit of 4 bytes.  A chunk of 6 bytes puts the stream in
    error, yet no call at all is made on the request: it is neither
    destroyed nor paused, and a further chunk is still handed to the
    listener. *)
Lemma C3_counterexample :
  get_raw_body (post_request chunked_headers) (Some 4)
    = Returns (Some (RawStream (new_stream (Num 4) NaN))) /\
  (exists s',
     inbound_step (new_stream (Num 4) NaN) (ReqData "abcdef") = Returns s' /\
     state (bs_controller s') =
       Errored "request body size exceeded BODY_SIZE_LIMIT of 4" /\
     bs_req_calls s' = [] /\
     inbound_step s' (ReqData "gh") = Returns s') /\
  ~ C3_as_stated.
Proof.
  split; [reflexivity |]. split.
  - eexists. repeat split; reflexivity.
  - intros H.
    destruct (H (Num 4) NaN [] (new_stream (Num 4) NaN) "abcdef"
                eq_refl eq_refl eq_refl eq_refl) as (s' & Hs & _ & reason & Hin).
    cbn in Hs. injection Hs as <-. exact Hin.
Qed.

(** C3, amended: on a bridge built by [get_raw_body], when a chunk takes
    the running total over the limit while the stream is readable and
    not cancelled, the stream is put in error (the waiting reads are
    rejected, later reads too) with a message that names
    ['content-length'] and the declared length when the limit is the
    declared length, and [BODY_SIZE_LIMIT] and the configured limit when
    it is the configured one; the cancelled flag is set, so that what the
    request emits afterwards (data, end) changes nothing; no call is
    made on the request itself. *)
Theorem body_size_exceeded
    (req : IncomingMessage) (limit : option Z) (s0 s : BodyStream)
    (evs : list InboundEvent) (chunk : string) :
  get_raw_body req limit = Returns (Some (RawStream s0)) ->
  inbound_run s0 evs = Returns s ->
  bs_cancelled s = false ->
  state (bs_controller s) = Readable ->
  number_gt (Num (bs_size s + Z.of_nat (String.length chunk))) (bs_length s) = true ->
  exists msg s',
    inbound_step s (ReqData chunk) = Returns s' /\
    state (bs_controller s') = Errored msg /\
    observed (bs_controller s') =
      (observed (bs_controller s) ++
       repeat (ReadError msg) (pendingReads (bs_controller s)))%list /\
    ((exists n, Number (headers req !! "content-length") = Num n /\ n <> 0 /\
                msg = "request body size exceeded 'content-length' of " +:+ pretty n) \/
     (exists l, Number (headers req !! "content-length") = NaN /\ limit = Some l /\
                msg = "request body size exceeded BODY_SIZE_LIMIT of " +:+ pretty l)) /\
    bs_cancelled s' = true /\
    bs_req_calls s' = bs_req_calls s /\
    (forall c, inbound_step s' (ReqData c) = Returns s') /\
    inbound_step s' ReqEnd = Returns s'.
Proof.
  intros Hraw Hrun Hc Hst Hgt.
  destruct (get_raw_body_stream req limit s0 Hraw) as [Hs0 Horigin].
  destruct (inbound_run_limits evs s0 s Hrun) as [Hlen Hcl].
  assert (Hcl0 : bs_content_length s0 = Number (headers req !! "content-length"))
    by (rewrite Hs0; reflexivity).
  exists (size_exceeded_message (bs_content_length s) (bs_length s)).
  eexists. split.
  { cbn [inbound_step]. unfold on_data. rewrite Hc, Hgt. reflexivity. }
  cbn. unfold controller_error, is_readable. rewrite Hst. cbn.
  split; [reflexivity |]. split; [reflexivity |]. split.
  { rewrite Hcl, Hlen, Hcl0. unfold size_exceeded_message.
    destruct Horigin as [(n & Hn & Hn0 & Hl) | (Hn & [(l & Hlim & Hl0 & Hl) | Hl])].
    - left. exists n. rewrite Hn, Hl. cbn [truthy_number number_to_string].
      apply Z.eqb_neq in Hn0. rewrite Hn0. repeat split.
      intros ->. discriminate Hn0.
    - right. exists l. rewrite Hn, Hl. repeat split. exact Hlim.
    - rewrite Hlen, Hl in Hgt. discriminate Hgt. }
  split; [reflexivity |]. split; [reflexivity |].
  split; [intros c |]; cbn [inbound_step]; unfold on_data, on_end; reflexivity.
Qed.

Lemma body_size_exceeded_witness :
  (exists msg s',
     inbound_step (new_stream (Num 3) (Num 3)) (ReqData "abcdef") = Returns s' /\
     state (bs_controller s') = Errored msg /\
     msg = "request body size exceeded 'content-length' of 3" /\
     bs_cancelled s' = true /\ bs_req_calls s' = [] /\
     inbound_step s' ReqEnd = Returns s') /\
  (exists msg s',
     inbound_step (new_stream (Num 4) NaN) (ReqData "abcdef") = Returns s' /\
     state (bs_controller s') = Errored msg /\
     msg = "request body size exceeded BODY_SIZE_LIMIT of 4").
Proof.
  split.
  - destruct (body_size_exceeded (post_request short_headers) None
                (new_stream (Num 3) (Num 3)) (new_stream (Num 3) (Num 3)) [] "abcdef"
                eq_refl eq_refl eq_refl eq_refl eq_refl)
      as (msg & s' & H1 & H2 & _ & H4 & H5 & H6 & _ & H8).
    exists msg, s'. repeat split; try assumption.
    destruct H4 as [(n & Hn & _ & ->) | (l & Hn & _)].
    + injection Hn as <-. reflexivity.
    + discriminate Hn.
  - destruct (body_size_exceeded (post_request chunked_headers) (Some 4)
                (new_stream (Num 4) NaN) (new_stream (Num 4) NaN) [] "abcdef"
                eq_refl eq_refl eq_refl eq_refl eq_refl)
      as (msg & s' & H1 & H2 & _ & H4 & _).
    exists msg, s'. repeat split; try assumption.
    destruct H4 as [(n & Hn & _) | (l & _ & Hl & ->)].
    + discriminate Hn.
    + injection Hl as <-. reflexivity.
Defined.

(* --------------------------------------------------------------------- *)
(* Outbound: the header phase                                            *)
(* --------------------------------------------------------------------- *)

Lemma lower_ascii_idempotent (c : ascii) : lower_ascii (lower_ascii c) = lower_ascii c.
Proof.
  destruct c as [[] [] [] [] [] [] [] []]; reflexivity.
Qed.

Lemma toLowerCase_idempotent (s : string) : toLowerCase (toLowerCase s) = toLowerCase s.
Proof.
  induction s as [| c r IH]; cbn; [reflexivity |].
  rewrite lower_ascii_idempotent, IH. reflexivity.
Qed.

Lemma setHeader_lowercase_keys (key : string) (v : HeaderValue) (r : ServerResponse) :
  lowercase_keys r -> lowercase_keys (setHeader key v r).
Proof.
  intros Hr k w. cbn. rewrite lookup_insert.
  destruct (decide (toLowerCase key = k)) as [<- | Hne].
  - intros _. apply toLowerCase_idempotent.
  - apply Hr.
Qed.

(** Removing the names one by one only touches the header store. *)
Lemma remove_headers_store (names : list string) (r : ServerResponse) :
  fold_left (fun r' name => removeHeader name r') names r =
  {| res_headers :=
       fold_left (fun m name => delete (toLowerCase name) m) names (res_headers r);
     statusCode := statusCode r; res_destroyed := res_destroyed r;
     listeners := listeners r; write_results := write_results r;
     res_calls := res_calls r |}.
Proof.
  revert r. induction names as [| n ns IH]; intros r; cbn [fold_left].
  - destruct r; reflexivity.
  - rewrite IH. reflexivity.
Qed.




Section HeaderPhase.

Variable setHeader_throws : ServerResponse -> string -> HeaderValue -> option string.
Variable splitCookiesString : string -> list string.

(** While no [setHeader] throws the header phase only touches the
    header store, and keeps its names in lower case. *)
Lemma header_phase_written
    (all entries : list (string * string)) (r r' : ServerResponse) :
  header_phase setHeader_throws splitCookiesString all entries r = (r', false) ->
  (lowercase_keys r -> lowercase_keys r') /\
  statusCode r' = statusCode r /\ res_destroyed r' = res_destroyed r /\
  listeners r' = listeners r /\ write_results r' = write_results r /\
  res_calls r' = res_calls r.
Proof.
  revert r. induction entries as [| [key value] rest IH]; intros r; cbn [header_phase].
  - intros [= <-]. repeat split. intros H; exact H.
  - destruct (setHeader_throws r key _) as [e |]; [discriminate |].
    intros H. destruct (IH _ H) as (H1 & H2 & H3 & H4 & H5 & H6).
    repeat split; try assumption.
    intros Hlow. apply H1, setHeader_lowercase_keys, Hlow.
Qed.



End HeaderPhase.


(* --------------------------------------------------------------------- *)
(* Outbound: the cancellation handler                                    *)
(* --------------------------------------------------------------------- *)

Lemma filter_remove_first (p : Registration -> bool) (ev : EventName) (l : Listener)
    (rs : list Registration) :
  (forall r, matches ev l r = true -> p r = true) ->
  List.filter p (remove_first ev l rs) = remove_first ev l (List.filter p rs).
Proof.
  intros Hp. induction rs as [| r rs IH]; cbn [remove_first List.filter]; [reflexivity |].
  destruct (matches ev l r) eqn:Hm.
  - rewrite (Hp r Hm). cbn [remove_first]. rewrite Hm. reflexivity.
  - cbn [List.filter]. destruct (p r); cbn [remove_first]; rewrite ?Hm, IH; reflexivity.
Qed.

(** Taking [cancel] off an event acts on the registrations of the call
    alone. *)
Lemma own_listeners_off (ev : EventName) (r : ServerResponse) :
  own_listeners (listeners (off ev cancel_listener r)) =
  rev (remove_first ev cancel_listener (rev (own_listeners (listeners r)))).
Proof.
  unfold own_listeners. cbn [off with_listeners listeners].
  rewrite List.filter_rev, filter_remove_first, List.filter_rev; [reflexivity |].
  intros x Hx. unfold matches in Hx. apply andb_true_iff in Hx as [_ Hx].
  unfold is_other. destruct (reg_listener x); [reflexivity | discriminate Hx ..].
Qed.

Lemma own_listeners_remove_once (ev : EventName) (id : nat) (rs : list Registration) :
  own_listeners (remove_once ev (other_listener id) rs) = own_listeners rs.
Proof.
  unfold own_listeners.
  induction rs as [| r rs IH]; cbn [remove_once List.filter]; [reflexivity |].
  destruct (matches ev (other_listener id) r && reg_once r) eqn:Hm.
  - apply andb_true_iff in Hm as [Hm _]. unfold matches in Hm.
    apply andb_true_iff in Hm as [_ Hm]. unfold is_other.
    destruct (reg_listener r); [discriminate Hm .. | reflexivity].
  - cbn [List.filter]. rewrite IH. reflexivity.
Qed.

(** Calling the listeners of others changes nothing but, for those
    registered with [once], their own registration. *)
Lemma deliver_others (ev : EventName) (arg : option string)
    (regs : list Registration) (o : Outbound) :
  Forall (fun r => is_other r = true) regs ->
  let o' := fold_left (deliver ev arg) regs o in
  res_calls (res o') = res_calls (res o) /\
  reader o' = reader o /\
  unhandled o' = unhandled o /\
  own_listeners (listeners (res o')) = own_listeners (listeners (res o)).
Proof.
  intros Hall. revert o. induction Hall as [| r regs Hr _ IH]; intros o; cbn [fold_left].
  - repeat split.
  - destruct (IH (deliver ev arg o r)) as (H1 & H2 & H3 & H4).
    unfold is_other in Hr. unfold deliver in *.
    destruct (reg_listener r) as [| | id]; try discriminate Hr. cbn [invoke] in *.
    destruct (reg_once r); cbn in *.
    + rewrite H1, H2, H3, H4, own_listeners_remove_once. repeat split.
    + rewrite H1, H2, H3, H4. repeat split.
Qed.

(** What one call of [cancel] does when a reader is there: the reader is
    cancelled, the handle destroyed when there is an error, the refusal
    of the reader's cancel left without effect, and [cancel] taken off
    both events. *)
Lemma cancel_effect (arg : option string) (o : Outbound) (rd : ResponseBody) :
  reader o = Some rd ->
  res_calls (res (cancel arg o)) =
    (res_calls (res o) ++ match arg with Some e => [Destroy e] | None => [] end)%list /\
  reader (cancel arg o) = Some (fst (reader_cancel arg rd)) /\
  unhandled (cancel arg o) = unhandled o /\
  own_listeners (listeners (res (cancel arg o))) =
    rev (remove_first ev_error cancel_listener
           (rev (rev (remove_first ev_close cancel_listener
                        (rev (own_listeners (listeners (res o)))))))).
Proof.
  intros Hrd. unfold cancel. rewrite Hrd. cbn.
  destruct arg as [e |]; cbn.
  - repeat split. rewrite <- !own_listeners_off. reflexivity.
  - rewrite app_nil_r. repeat split. rewrite <- !own_listeners_off. reflexivity.
Qed.

Lemma count_calls_app (p : ResCall -> bool) (l1 l2 : list ResCall) :
  length (List.filter p (l1 ++ l2)) =
  (length (List.filter p l1) + length (List.filter p l2))%nat.
Proof. rewrite List.filter_app, length_app. reflexivity. Qed.

(** A notification on a handle where [cancel] is registered, last, for
    both events: the listeners of others are called, then [cancel]. *)
Lemma notify_armed (n : Notification) (o : Outbound) (rd : ResponseBody)
    (others : list Registration) :
  reader o = Some rd ->
  listeners (res o) = (others ++ [cancel_on_close; cancel_on_error])%list ->
  Forall (fun r => is_other r = true) others ->
  let o' := notify n o in
  cancel_calls (reader o') = S (cancel_calls (reader o)) /\
  destroy_calls (res o') = (destroy_calls (res o) + carries_error n)%nat /\
  unhandled o' = unhandled o /\
  own_listeners (listeners (res o')) = [].
Proof.
  intros Hrd Hls Hothers.
  assert (Hown : own_listeners (listeners (res o)) = [cancel_on_close; cancel_on_error]).
  { rewrite Hls. unfold own_listeners. rewrite List.filter_app.
    replace (List.filter (fun r => negb (is_other r)) others) with (@nil Registration).
    - reflexivity.
    - symmetry. clear Hls. induction Hothers as [| r rs Hr _ IH]; cbn; [reflexivity |].
      rewrite Hr. exact IH. }
  assert (Hstep : forall ev arg own,
            List.filter (fun r => EventName_eqb (reg_event r) ev)
              [cancel_on_close; cancel_on_error] = [own] ->
            reg_listener own = cancel_listener -> reg_once own = false ->
            let o' := emit ev arg o in
            res_calls (res o') =
              (res_calls (res o) ++
               match arg with Some e => [Destroy e] | None => [] end)%list /\
            reader o' = Some (fst (reader_cancel arg rd)) /\
            unhandled o' = unhandled o /\
            own_listeners (listeners (res o')) = []).
  { intros ev arg own Hsnap Hl Ho. unfold emit.
    rewrite Hls, List.filter_app, Hsnap, fold_left_app. cbn [fold_left].
    set (regs := List.filter _ others).
    assert (Hregs : Forall (fun r => is_other r = true) regs).
    { apply List.Forall_forall. intros x Hx. apply List.filter_In in Hx as [Hx _].
      rewrite List.Forall_forall in Hothers. exact (Hothers x Hx). }
    destruct (deliver_others ev arg regs o Hregs) as (H1 & H2 & H3 & H4).
    set (o1 := fold_left (deliver ev arg) regs o) in *.
    unfold deliver at 1 2 3 4. rewrite Ho, Hl. cbn [invoke].
    rewrite Hrd in H2.
    destruct (cancel_effect arg o1 rd H2) as (C1 & C2 & C3 & C4).
    rewrite C1, C2, C3, C4, H1, H3, H4, Hown. repeat split. }
  destruct n as [| e]; cbn [notify carries_error].
  - destruct (Hstep ev_close None cancel_on_close eq_refl eq_refl eq_refl)
      as (H1 & H2 & H3 & H4).
    unfold destroy_calls. rewrite H1, H2, H3, H4, Hrd, app_nil_r. cbn.
    rewrite List.filter_app, length_app. cbn. repeat split; lia.
  - destruct (Hstep ev_error (Some e) cancel_on_error eq_refl eq_refl eq_refl)
      as (H1 & H2 & H3 & H4).
    unfold destroy_calls. rewrite H1, H2, H3, H4, Hrd. cbn.
    rewrite !List.filter_app, !length_app. cbn. repeat split; lia.
Qed.

(** A notification on a handle where nothing of the call is registered
    any more: only the listeners of others are called. *)
Lemma notify_disarmed (n : Notification) (o : Outbound) :
  own_listeners (listeners (res o)) = [] ->
  let o' := notify n o in
  cancel_calls (reader o') = cancel_calls (reader o) /\
  destroy_calls (res o') = destroy_calls (res o) /\
  unhandled o' = unhandled o /\
  own_listeners (listeners (res o')) = [].
Proof.
  intros Hown.
  assert (Hall : Forall (fun r => is_other r = true) (listeners (res o))).
  { unfold own_listeners in Hown. apply List.Forall_forall. intros x Hx.
    destruct (is_other x) eqn:Hox; [reflexivity |]. exfalso.
    assert (Hin : In x (List.filter (fun r => negb (is_other r)) (listeners (res o)))).
    { apply List.filter_In. split; [exact Hx |]. rewrite Hox. reflexivity. }
    rewrite Hown in Hin. exact Hin. }
  assert (Hev : forall ev arg,
            let o' := emit ev arg o in
            res_calls (res o') = res_calls (res o) /\ reader o' = reader o /\
            unhandled o' = unhandled o /\
            own_listeners (listeners (res o')) = own_listeners (listeners (res o))).
  { intros ev arg. unfold emit. apply deliver_others.
    apply List.Forall_forall. intros x Hx. apply List.filter_In in Hx as [Hx _].
    rewrite List.Forall_forall in Hall. exact (Hall x Hx). }
  destruct n as [| e]; cbn [notify];
    [destruct (Hev ev_close None) as (H1 & H2 & H3 & H4)
    | destruct (Hev ev_error (Some e)) as (H1 & H2 & H3 & H4)];
    unfold destroy_calls; rewrite H1, H2, H3, H4, Hown; repeat split.
Qed.

(** [setResponse] on its streaming path. *)
Lemma setResponse_streaming
    (setHeader_throws : ServerResponse -> string -> HeaderValue -> option string)
    (splitCookiesString : string -> list string)
    (res0 : ServerResponse) (response : Response) (b : ResponseBody) :
  streams setHeader_throws splitCookiesString res0 response b ->
  exists r,
    header_phase setHeader_throws splitCookiesString
      (response_headers response) (response_headers response) res0 = (r, false) /\
    setResponse setHeader_throws splitCookiesString res0 response =
      next {| res := on ev_error cancel_listener
                       (on ev_close cancel_listener
                          (writeHead (status response)
                             (set_statusCode (status response) r)));
              reader := Some (getReader b); loop := NotStarted; unhandled := [] |}.
Proof.
  intros (Hph & Hb & Hl & Hd & _).
  destruct (header_phase _ _ _ _ res0) as [r aborted] eqn:Hphase.
  cbn in Hph. subst aborted. exists r. split; [reflexivity |].
  destruct (header_phase_written _ _ _ _ _ _ Hphase) as (_ & _ & Hd' & _).
  unfold setResponse. rewrite Hphase, Hb, Hl. cbn [res_destroyed writeHead log_call set_statusCode].
  rewrite Hd', Hd. reflexivity.
Qed.

(** The handler has no flag of its own: called twice by hand, as the
    [catch] of [next] can do after a notification, it cancels the reader
    twice and destroys the handle twice. *)
Lemma cancel_twice_by_hand (e : string) (o : Outbound) (rd : ResponseBody) :
  reader o = Some rd ->
  let o2 := cancel (Some e) (cancel (Some e) o) in
  cancel_calls (reader o2) = S (S (cancel_calls (reader o))) /\
  destroy_calls (res o2) = S (S (destroy_calls (res o))).
Proof.
  intros Hrd. unfold cancel. rewrite Hrd. cbn. unfold destroy_calls. cbn.
  rewrite !List.filter_app, !length_app. cbn. split; lia.
Qed.

(** C7, counterexample: [close] then [error] on a streaming response:
    the reader is cancelled once and the handle is never destroyed. *)
Lemma C7_counterexample :
  (let o := setResponse accepts_all one_cookie fresh_response
              (text_response (Some (body_of [RChunk "hello"; RDone]))) in
   let o2 := notify (NError "socket hang up") (notify NClose o) in
   cancel_calls (reader o2) = 1%nat /\ destroy_calls (res o2) = 0%nat) /\
  ~ C7_as_stated.
Proof.
  split; [split; reflexivity |].
  intros H.
  destruct (H accepts_all one_cookie fresh_response
              (text_response (Some (body_of [RChunk "hello"; RDone])))
              (body_of [RChunk "hello"; RDone]) NClose (NError "socket hang up"))
    as [_ Hd].
  - repeat split. constructor.
  - discriminate Hd.
Qed.

(** C7, amended: on a response being streamed, two notifications in a
    row ([close] or [error], in any order) call [cancel] on the first
    only, since it takes itself off both events: the reader is cancelled
    exactly once, and the handle is destroyed once when the first
    notification carries an error and not at all when it is a [close];
    a refusal of the reader's cancel is swallowed (nothing is left
    unhandled); nothing of the call stays registered. *)
Theorem cancel_fires_once
    (setHeader_throws : ServerResponse -> string -> HeaderValue -> option string)
    (splitCookiesString : string -> list string)
    (res0 : ServerResponse) (response : Response) (b : ResponseBody)
    (n1 n2 : Notification) :
  streams setHeader_throws splitCookiesString res0 response b ->
  let o := setResponse setHeader_throws splitCookiesString res0 response in
  let o2 := notify n2 (notify n1 o) in
  cancel_calls (reader o2) = S (cancel_calls (reader o)) /\
  destroy_calls (res o2) = (destroy_calls (res o) + carries_error n1)%nat /\
  unhandled o2 = [] /\
  own_listeners (listeners (res o2)) = [].
Proof.
  intros Hs o o2.
  destruct (setResponse_streaming _ _ _ _ _ Hs) as (r & Hphase & Ho).
  destruct (header_phase_written _ _ _ _ _ _ Hphase) as (_ & _ & _ & Hls & _).
  destruct Hs as (_ & _ & _ & _ & Hothers).
  assert (Hrd : reader o = Some (reader_read (getReader b))).
  { subst o. rewrite Ho. reflexivity. }
  assert (Hl : listeners (res o) =
               (listeners res0 ++ [cancel_on_close; cancel_on_error])%list).
  { subst o. rewrite Ho. cbn. rewrite Hls, <- app_assoc. reflexivity. }
  assert (Hu : unhandled o = []).
  { subst o. rewrite Ho. reflexivity. }
  destruct (notify_armed n1 o _ _ Hrd Hl Hothers) as (A1 & A2 & A3 & A4).
  destruct (notify_disarmed n2 (notify n1 o) A4) as (B1 & B2 & B3 & B4).
  subst o2. rewrite B1, B2, B3, B4, A1, A2, A3, Hu. repeat split.
Qed.

Lemma cancel_fires_once_witness :
  let o := setResponse accepts_all one_cookie fresh_response
             (text_response (Some refusing_body)) in
  let o2 := notify NClose (notify (NError "socket hang up") o) in
  cancel_calls (reader o2) = 1%nat /\
  destroy_calls (res o2) = 1%nat /\
  unhandled o2 = [] /\
  own_listeners (listeners (res o2)) = [].
Proof.
  apply (cancel_fires_once accepts_all one_cookie fresh_response
           (text_response (Some refusing_body)) refusing_body
           (NError "socket hang up") NClose).
  repeat split. constructor.
Defined.

(* --------------------------------------------------------------------- *)
(* Outbound: how often the handle is ended                               *)
(* --------------------------------------------------------------------- *)

Lemma end_calls_log (c : ResCall) (r : ServerResponse) :
  end_calls (log_call c r) = (end_calls r + if is_End c then 1 else 0)%nat.
Proof.
  unfold end_calls, log_call. cbn [res_calls].
  rewrite List.filter_app, length_app. cbn. destruct (is_End c); reflexivity.
Qed.








(* --------------------------------------------------------------------- *)
(* Inbound: the form-url-encoded body                                    *)
(* --------------------------------------------------------------------- *)

(** Induction on a value, with the items of an array at hand. *)
Lemma JSValue_items_ind (P : JSValue -> Prop) :
  P JSUndefined -> P JSNull -> (forall b, P (JSBool b)) -> (forall n, P (JSNum n)) ->
  (forall s, P (JSStr s)) ->
  (forall items, Forall P items -> P (JSArray items)) ->
  (forall props, P (JSObject props)) ->
  (forall pairs, P (JSURLSearchParams pairs)) ->
  (forall str json, P (JSExotic str json)) ->
  forall v, P v.
Proof.
  intros Hu Hn Hb Hnum Hs Ha Ho Hp He.
  refine (fix IH (v : JSValue) : P v :=
            match v with
            | JSUndefined => Hu
            | JSNull => Hn
            | JSBool b => Hb b
            | JSNum n => Hnum n
            | JSStr s => Hs s
            | JSArray items =>
                Ha items ((fix go (l : list JSValue) : Forall P l :=
                             match l with
                             | [] => @List.Forall_nil _ P
                             | x :: r => @List.Forall_cons _ P x r (IH x) (go r)
                             end) items)
            | JSObject props => Ho props
            | JSURLSearchParams pairs => Hp pairs
            | JSExotic str json => He str json
            end).
Qed.

(** [appendFormValue] appends the pairs of the value, under its key. *)
Lemma appendFormValue_values (value : JSValue) :
  forall (params : list (string * string)) (key : string),
    appendFormValue params key value =
    (params ++ map (pair key) (form_values value))%list.
Proof.
  induction value using JSValue_items_ind; intros params key;
    cbn [appendFormValue form_values map]; unfold append;
    try reflexivity.
  - rewrite app_nil_r. reflexivity.
  - revert params. induction H as [| x items Hx _ IH]; intros params;
      cbn [fold_left flat_map map].
    + rewrite app_nil_r. reflexivity.
    + rewrite IH, Hx, map_app, app_assoc. reflexivity.
Qed.

Lemma appendFormValue_body (body : list (string * JSValue))
    (params : list (string * string)) :
  fold_left (fun ps kv => appendFormValue ps (fst kv) (snd kv)) body params =
  (params ++ form_pairs body)%list.
Proof.
  revert params. induction body as [| [k v] body IH]; intros params;
    cbn [fold_left form_pairs flat_map fst snd].
  - rewrite app_nil_r. reflexivity.
  - rewrite IH, appendFormValue_values, <- app_assoc. reflexivity.
Qed.

(** What the serialiser writes for one byte decodes to that byte, and
    holds neither of the two separators. *)
Lemma form_decode_byte (c : ascii) (rest : string) :
  percent_decode (plus_to_space (form_encode_byte c +:+ rest)) =
  String c (percent_decode (plus_to_space rest)).
Proof. destruct c as [[] [] [] [] [] [] [] []]; reflexivity. Qed.

Lemma form_encode_byte_clean (c : ascii) :
  contains "&" (form_encode_byte c) = false /\
  contains "=" (form_encode_byte c) = false.
Proof. destruct c as [[] [] [] [] [] [] [] []]; split; reflexivity. Qed.

Lemma append_cons (x : ascii) (a b : string) : String x a +:+ b = String x (a +:+ b).
Proof. reflexivity. Qed.

Lemma append_assoc (a b c : string) : (a +:+ b) +:+ c = a +:+ (b +:+ c).
Proof.
  induction a as [| x a IH]; [reflexivity |].
  rewrite !append_cons, IH. reflexivity.
Qed.

Lemma form_decode_encode_app (s rest : string) :
  percent_decode (plus_to_space (form_encode s +:+ rest)) =
  s +:+ percent_decode (plus_to_space rest).
Proof.
  induction s as [| c s IH]; cbn [form_encode]; [reflexivity |].
  rewrite append_assoc, form_decode_byte, IH. reflexivity.
Qed.

Lemma append_empty_r (s : string) : s +:+ "" = s.
Proof.
  induction s as [| c s IH]; [reflexivity |].
  rewrite append_cons, IH. reflexivity.
Qed.

Lemma form_decode_encode (s : string) : form_decode (form_encode s) = s.
Proof.
  unfold form_decode. rewrite <- (append_empty_r (form_encode s)).
  rewrite form_decode_encode_app. cbn [plus_to_space percent_decode].
  apply append_empty_r.
Qed.

Lemma contains_app (c : ascii) (a b : string) :
  contains c (a +:+ b) = contains c a || contains c b.
Proof.
  induction a as [| d a IH]; [reflexivity |].
  rewrite append_cons. cbn [contains]. rewrite IH, orb_assoc. reflexivity.
Qed.

Lemma form_encode_clean (s : string) :
  contains "&" (form_encode s) = false /\ contains "=" (form_encode s) = false.
Proof.
  induction s as [| c s [IH1 IH2]]; cbn [form_encode]; [split; reflexivity |].
  destruct (form_encode_byte_clean c) as [H1 H2].
  rewrite !contains_app, H1, H2, IH1, IH2. split; reflexivity.
Qed.

Lemma split_first_at (sep : ascii) (a b : string) :
  contains sep a = false ->
  split_first sep (a +:+ String sep b) = (a, Some b).
Proof.
  induction a as [| c a IH]; cbn [contains]; intros H.
  - change ("" +:+ String sep b) with (String sep b). cbn [split_first].
    rewrite Ascii.eqb_refl. reflexivity.
  - apply orb_false_iff in H as [Hc Ha]. rewrite append_cons. cbn [split_first].
    rewrite Hc, (IH Ha). reflexivity.
Qed.

Lemma split_on_at (sep : ascii) (a b : string) :
  contains sep a = false ->
  split_on sep (a +:+ String sep b) = a :: split_on sep b.
Proof.
  induction a as [| c a IH]; cbn [contains]; intros H.
  - change ("" +:+ String sep b) with (String sep b). cbn [split_on].
    rewrite Ascii.eqb_refl. reflexivity.
  - apply orb_false_iff in H as [Hc Ha]. rewrite append_cons. cbn [split_on].
    rewrite Hc, (IH Ha). reflexivity.
Qed.

Lemma split_on_none (sep : ascii) (a : string) :
  contains sep a = false -> split_on sep a = [a].
Proof.
  induction a as [| c a IH]; cbn [contains split_on]; intros H; [reflexivity |].
  apply orb_false_iff in H as [Hc Ha]. rewrite Hc, (IH Ha). reflexivity.
Qed.

Lemma form_encode_pair_clean (p : string * string) :
  contains "&" (form_encode_pair p) = false.
Proof.
  unfold form_encode_pair. rewrite !contains_app.
  rewrite (proj1 (form_encode_clean (fst p))), (proj1 (form_encode_clean (snd p))).
  reflexivity.
Qed.

(** A serialised pair parses back to the pair. *)
Lemma parse_piece_encode (p : string * string) :
  parse_piece (form_encode_pair p) = [p].
Proof.
  destruct p as [k v]. unfold parse_piece, form_encode_pair. cbn [fst snd].
  change ("=" +:+ form_encode v) with (String "=" (form_encode v)).
  rewrite (split_first_at "=" _ _ (proj2 (form_encode_clean k))).
  rewrite !form_decode_encode.
  destruct (form_encode k) as [| c r]; reflexivity.
Qed.

(** The parser undoes the serialiser on every list of pairs. *)
Lemma parse_serialised (params : list (string * string)) :
  parse_form_urlencoded (URLSearchParams_toString params) = params.
Proof.
  unfold parse_form_urlencoded, URLSearchParams_toString.
  induction params as [| p [| q rest] IH].
  - reflexivity.
  - cbn [map join]. rewrite (split_on_none "&" _ (form_encode_pair_clean p)).
    cbn [flat_map]. rewrite parse_piece_encode. reflexivity.
  - cbn [map join] in *.
    change ("&" +:+ ?x) with (String "&" x).
    rewrite (split_on_at "&" _ _ (form_encode_pair_clean p)).
    cbn [flat_map]. rewrite IH, parse_piece_encode. reflexivity.
Qed.

(** C6, counterexample: a property whose value is [undefined] is left
    out of the serialised body, where the specification has it coerced
    to a string like any other value. *)
Lemma C6_counterexample :
  parse_form_urlencoded (serializeParsedBody (JSObject [("a", JSUndefined)]) true) = [] /\
  stated_pairs [("a", JSUndefined)] = [("a", "undefined")] /\
  ~ C6_as_stated.
Proof.
  split; [reflexivity |]. split; [reflexivity |].
  intros H. specialize (H [("a", JSUndefined)]). discriminate H.
Qed.

(** C6, amended: for every plain object, the body re-serialised for a
    form-url-encoded content type parses back, with the standard
    decoder, to the pairs of the object in order, where a property
    holding [undefined] is left out (and so are the [undefined] items
    of an array), an array gives one pair per item under the same key,
    [null] gives the empty string, a nested plain object its JSON text
    and any other value its string coercion. *)
Theorem form_body_round_trip (body : list (string * JSValue)) :
  serializeParsedBody (JSObject body) true = toFormUrlEncodedBody body /\
  parse_form_urlencoded (toFormUrlEncodedBody body) = form_pairs body.
Proof.
  split; [reflexivity |].
  unfold toFormUrlEncodedBody. rewrite appendFormValue_body. cbn [app].
  apply parse_serialised.
Qed.

(** The sample form on the wire and back. *)
Example sample_form_round_trip :
  toFormUrlEncodedBody sample_form =
    "a+b=1&a+b=&a+b=x%26y%3Dz%2B%25&o=%7B%22k%22%3A%22v%22%7D&t=true" /\
  parse_form_urlencoded (toFormUrlEncodedBody sample_form) =
    [("a b", "1"); ("a b", ""); ("a b", "x&y=z+%");
     ("o", "{" +:+ json_quote "k" +:+ ":" +:+ json_quote "v" +:+ "}");
     ("t", "true")].
Proof. split; reflexivity. Qed.

(* --------------------------------------------------------------------- *)
(* Outbound: the read loop                                               *)
(* --------------------------------------------------------------------- *)

(** What the read loop itself does with [end]: the handle is ended
    after each write it accepts, once per chunk if it accepts them all
    (what a transport makes of a write that follows an end is its own
    affair), and the end of the body adds no call. *)
Lemma end_called_per_chunk (lambda : bool) (chunks : list string) :
  forall (o : Outbound) (rd : ResponseBody),
    loop o = AwaitingRead -> reader o = Some rd -> reader_cancelled rd = false ->
    results rd = (map RChunk chunks ++ [RDone])%list ->
    write_results (res o) = [] ->
    let o' := outbound_run lambda o (repeat Settle (S (length chunks))) in
    loop o' = Finished /\
    end_calls (res o') = (end_calls (res o) + length chunks)%nat.
Proof.
  induction chunks as [| c chunks IH]; intros o rd Hloop Hrd Hnc Hres Hw.
  - cbn. unfold next_settled. rewrite Hloop, Hrd, Hnc, Hres. cbn. split; [reflexivity | lia].
  - cbn [length repeat outbound_run fold_left outbound_step].
    change (fold_left (outbound_step lambda) ?l ?x) with (outbound_run lambda x l).
    assert (Hstep : next_settled lambda o =
                    {| res := end_ None (log_call (Write c) (res o));
                       reader := Some (reader_read (with_results
                                                     (map RChunk chunks ++ [RDone])%list rd));
                       loop := AwaitingRead; unhandled := unhandled o |}).
    { unfold next_settled. rewrite Hloop, Hrd, Hnc, Hres. cbn [map app].
      unfold write. rewrite Hw. reflexivity. }
    rewrite Hstep.
    set (o1 := {| res := end_ None (log_call (Write c) (res o));
                  reader := Some (reader_read (with_results
                                                (map RChunk chunks ++ [RDone])%list rd));
                  loop := AwaitingRead; unhandled := unhandled o |}).
    destruct (IH o1 (reader_read (with_results (map RChunk chunks ++ [RDone])%list rd))
                eq_refl eq_refl Hnc eq_refl Hw) as [H1 H2].
    change (outbound_run lambda (next_settled lambda o1) (repeat Settle (length chunks)))
      with (outbound_run lambda o1 (repeat Settle (S (length chunks)))).
    split; [exact H1 |]. rewrite H2. subst o1. cbn [res].
    unfold end_. rewrite !end_calls_log. cbn. lia.
Qed.

(* ===================================================================== *)
(* Further properties                                                    *)
(* ===================================================================== *)

(* --------------------------------------------------------------------- *)
(* get_raw_body and getRequest                                           *)
(* --------------------------------------------------------------------- *)

(** X1: [get_raw_body] returns [null] in three cases and in no other:
    the content type is absent or empty; the declared length is 0; the
    request is HTTP/1, declares no (readable) length and has no
    transfer-encoding header. *)
Theorem get_raw_body_null_iff (req : IncomingMessage) (limit : option Z) :
  get_raw_body req limit = Returns None <->
  truthy_header (headers req !! "content-type") = false \/
  Number (headers req !! "content-length") = Num 0 \/
  (httpVersionMajor req = 1 /\
   Number (headers req !! "content-length") = NaN /\
   headers req !! "transfer-encoding" = None).
Proof.
  unfold get_raw_body.
  destruct (truthy_header (headers req !! "content-type")); cbn [negb];
    [| split; [left; reflexivity | reflexivity]].
  destruct (Number (headers req !! "content-length")) as [| n] eqn:Hcl.
  - cbn [isNaN]. rewrite andb_true_r, orb_false_r.
    destruct (Z.eqb_spec (httpVersionMajor req) 1) as [H1 | H1];
      destruct (headers req !! "transfer-encoding") as [te |] eqn:Hte; cbn [andb].
    1, 3, 4:
      split;
      [ destruct limit as [l |]; [destruct (l =? 0) |]; cbn;
        destruct (destroyed req); discriminate
      | intros [H | [H | (Ha & _ & Hb)]]; try discriminate; contradiction ].
    split; [intros _ | reflexivity]. right. right. repeat split. exact H1.
  - cbn [isNaN]. rewrite andb_false_r. cbn [andb orb].
    destruct (Z.eqb_spec n 0) as [-> | Hn].
    + split; [intros _ | reflexivity]. right. left. reflexivity.
    + assert (Hz : match n with 0 => true | _ => false end = false)
        by (destruct n; [contradiction | reflexivity | reflexivity]).
      rewrite Hz. split.
      * destruct limit as [l |]; [destruct (l =? 0) |]; cbn;
          try destruct (number_gt _ _); try destruct (n =? 0);
          cbn; try destruct (l <? n); destruct (destroyed req); discriminate.
      * intros [H | [H | (_ & H & _)]]; try discriminate.
        injection H as H. contradiction.
Qed.


Lemma live_request_no_cancelled_stream (req : IncomingMessage) (limit : option Z) :
  destroyed req = false -> get_raw_body req limit <> Returns (Some CancelledStream).
Proof.
  intros Hd. unfold get_raw_body. rewrite Hd.
  destruct (negb (truthy_header (headers req !! "content-type"))); [discriminate |].
  destruct (_ || _); [discriminate |].
  destruct limit as [l |]; [| discriminate].
  destruct (negb (l =? 0)); [| discriminate].
  destruct (negb (truthy_number _)); [discriminate |].
  destruct (number_gt _ _); discriminate.
Qed.

Lemma canReadRawBody_live (req : IncomingMessage) :
  canReadRawBody req = true -> destroyed req = false.
Proof.
  unfold canReadRawBody. destruct (destroyed req); [discriminate | reflexivity].
Qed.

(** X2: the adapted request never carries the cancelled empty stream:
    [getRequest] asks [get_raw_body] for a stream only when the request
    is not destroyed, so that the branch of [get_raw_body] for a
    destroyed request is never taken through [getRequest]. *)
Theorem getRequest_never_cancelled_stream
    (req : IncomingMessage) (base : string) (limit : option Z) (r : Request) :
  getRequest req base limit = Returns r ->
  request_body r <> Some CancelledStream.
Proof.
  unfold getRequest.
  destruct (negb (method req =? "GET")%string && negb (method req =? "HEAD")%string).
  - destruct (canReadRawBody req) eqn:Hc.
    + pose proof (live_request_no_cancelled_stream req limit (canReadRawBody_live req Hc))
        as Hlive.
      destruct (get_raw_body req limit) as [b |]; [| discriminate].
      intros [= <-]. cbn. intros ->. apply Hlive. reflexivity.
    + destruct (body req); intros [= <-]; cbn; discriminate.
  - intros [= <-]. cbn. discriminate.
Qed.

Lemma getRequest_never_cancelled_stream_witness :
  exists r,
    getRequest (post_request short_headers) "http://localhost" None = Returns r /\
    request_body r = Some (RawStream (new_stream (Num 3) (Num 3))) /\
    request_body r <> Some CancelledStream.
Proof.
  eexists. split; [reflexivity |]. split; [reflexivity |].
  apply (getRequest_never_cancelled_stream (post_request short_headers)
           "http://localhost" None).
  reflexivity.
Defined.

(** X3: called on a destroyed request, [get_raw_body] never returns a
    stream wired to the request: it returns [null], throws for a
    declared length over the limit, or returns the cancelled empty
    stream; the size check comes before the destroyed check. *)
Theorem destroyed_request_no_live_stream
    (req : IncomingMessage) (limit : option Z) :
  destroyed req = true ->
  (forall s, get_raw_body req limit <> Returns (Some (RawStream s))) /\
  (get_raw_body req limit = Returns None \/
   (exists e, get_raw_body req limit = Throws e) \/
   get_raw_body req limit = Returns (Some CancelledStream)).
Proof.
  intros Hd. unfold get_raw_body. rewrite Hd.
  destruct (negb (truthy_header (headers req !! "content-type")));
    [split; [discriminate | left; reflexivity] |].
  destruct (_ || _); [split; [discriminate | left; reflexivity] |].
  destruct limit as [l |];
    [| split; [discriminate | right; right; reflexivity]].
  destruct (negb (l =? 0));
    [| split; [discriminate | right; right; reflexivity]].
  destruct (negb (truthy_number _));
    [split; [discriminate | right; right; reflexivity] |].
  destruct (number_gt _ _).
  - split; [discriminate | right; left; eexists; reflexivity].
  - split; [discriminate | right; right; reflexivity].
Qed.

Lemma destroyed_request_no_live_stream_witness :
  get_raw_body (destroyed_request short_headers) (Some 10)
    = Returns (Some CancelledStream) /\
  get_raw_body (destroyed_request json_headers) (Some 10)
    = Throws "Received content-length of 100, but only accept up to 10 bytes." /\
  forall s, get_raw_body (destroyed_request short_headers) (Some 10)
            <> Returns (Some (RawStream s)).
Proof.
  split; [reflexivity |]. split; [reflexivity |].
  apply (destroyed_request_no_live_stream (destroyed_request short_headers) (Some 10)).
  reflexivity.
Defined.



(** X5: the limit of the stream [get_raw_body] builds on a request that
    is not destroyed.  A declared length [n] that the configured limit
    allows is itself the limit, even under a larger configured limit;
    without a declared length the configured limit is the limit; with
    neither there is no limit ([NaN], which no size exceeds). *)
Theorem effective_limit (req : IncomingMessage) (limit : option Z) :
  truthy_header (headers req !! "content-type") = true ->
  destroyed req = false ->
  (forall n, Number (headers req !! "content-length") = Num n -> n <> 0 ->
     (limit = None \/ limit = Some 0 \/ exists l, limit = Some l /\ n <= l) ->
     get_raw_body req limit = Returns (Some (RawStream (new_stream (Num n) (Num n))))) /\
  (forall l, Number (headers req !! "content-length") = NaN ->
     (httpVersionMajor req <> 1 \/ headers req !! "transfer-encoding" <> None) ->
     limit = Some l -> l <> 0 ->
     get_raw_body req limit = Returns (Some (RawStream (new_stream (Num l) NaN)))) /\
  (Number (headers req !! "content-length") = NaN ->
     (httpVersionMajor req <> 1 \/ headers req !! "transfer-encoding" <> None) ->
     (limit = None \/ limit = Some 0) ->
     get_raw_body req limit = Returns (Some (RawStream (new_stream NaN NaN))) /\
     forall size, number_gt (Num size) NaN = false).
Proof.
  intros Hct Hd. unfold get_raw_body. rewrite Hct, Hd. cbn [negb].
  assert (Hnull : forall cl,
            cl = NaN ->
            httpVersionMajor req <> 1 \/ headers req !! "transfer-encoding" <> None ->
            ((httpVersionMajor req =? 1) && isNaN cl &&
             match headers req !! "transfer-encoding" with
             | Some _ => false | None => true end
             || match cl with Num 0 => true | _ => false end) = false).
  { intros cl -> [H | H]; cbn.
    - apply Z.eqb_neq in H. rewrite H. reflexivity.
    - destruct (headers req !! "transfer-encoding"); [| contradiction].
      rewrite andb_false_r. reflexivity. }
  split; [| split].
  - intros n Hn Hn0 Hlim. rewrite Hn. cbn [isNaN]. rewrite andb_false_r.
    assert (Hz : match n with 0 => true | _ => false end = false)
      by (destruct n; [contradiction | reflexivity | reflexivity]).
    rewrite Hz. cbn [andb orb truthy_number].
    apply Z.eqb_neq in Hn0. rewrite Hn0. cbn [negb].
    destruct Hlim as [-> | [-> | (l & -> & Hle)]]; [reflexivity | reflexivity |].
    destruct (negb (l =? 0)); [| reflexivity].
    cbn [number_gt]. assert (Hlt : (l <? n) = false) by lia. rewrite Hlt. reflexivity.
  - intros l Hn Hte -> Hl. rewrite (Hnull _ Hn Hte), Hn.
    apply Z.eqb_neq in Hl. rewrite Hl. reflexivity.
  - intros Hn Hte Hlim. rewrite (Hnull _ Hn Hte), Hn.
    split; [| reflexivity].
    destruct Hlim as [-> | ->]; reflexivity.
Qed.

Lemma effective_limit_witness :
  get_raw_body (post_request short_headers) (Some 10)
    = Returns (Some (RawStream (new_stream (Num 3) (Num 3)))) /\
  get_raw_body (post_request chunked_headers) (Some 4)
    = Returns (Some (RawStream (new_stream (Num 4) NaN))) /\
  get_raw_body (post_request chunked_headers) None
    = Returns (Some (RawStream (new_stream NaN NaN))).
Proof.
  split; [| split].
  - apply (proj1 (effective_limit (post_request short_headers) (Some 10)
                    eq_refl eq_refl) 3); [reflexivity | discriminate |].
    right. right. exists 10. split; [reflexivity | lia].
  - apply (proj1 (proj2 (effective_limit (post_request chunked_headers) (Some 4)
                           eq_refl eq_refl)) 4);
      [reflexivity | right; discriminate | reflexivity | discriminate].
  - apply (proj2 (proj2 (effective_limit (post_request chunked_headers) None
                           eq_refl eq_refl)));
      [reflexivity | right; discriminate | left; reflexivity].
Defined.

(** X6: the raw stream comes first: while it is readable, what a body
    parser may have left in [request.body] plays no part in the adapted
    request. *)
Theorem raw_stream_first
    (req : IncomingMessage) (base : string) (limit : option Z) (b : JSValue) :
  canReadRawBody req = true ->
  getRequest (with_body b req) base limit = getRequest req base limit.
Proof.
  intros Hc. unfold getRequest.
  change (canReadRawBody (with_body b req)) with (canReadRawBody req).
  rewrite Hc. reflexivity.
Qed.

Lemma raw_stream_first_witness :
  getRequest (with_body (JSObject [("a", JSNum 1)]) (post_request short_headers))
    "http://localhost" None
  = getRequest (post_request short_headers) "http://localhost" None.
Proof.
  apply raw_stream_first. reflexivity.
Defined.



(* --------------------------------------------------------------------- *)
(* The pull bridge: what reaches the consumer                            *)
(* --------------------------------------------------------------------- *)

Lemma chunk_bytes_nonneg (chunks : list string) : 0 <= chunk_bytes chunks.
Proof. induction chunks as [| c r IH]; cbn [chunk_bytes]; lia. Qed.

Lemma chunk_bytes_app (a b : list string) :
  chunk_bytes (a ++ b) = chunk_bytes a + chunk_bytes b.
Proof. induction a as [| c r IH]; cbn [chunk_bytes app]; lia. Qed.

Lemma observed_chunks_app (a b : list ReadOutcome) :
  observed_chunks (a ++ b) = (observed_chunks a ++ observed_chunks b)%list.
Proof.
  induction a as [| o r IH]; cbn [observed_chunks app]; [reflexivity |].
  destruct o; cbn [app]; rewrite IH; reflexivity.
Qed.

Lemma observed_chunks_errors (e : string) (n : nat) :
  observed_chunks (repeat (ReadError e) n) = [].
Proof. induction n as [| n IH]; cbn; [reflexivity | exact IH]. Qed.

Lemma observed_chunks_dones (n : nat) : observed_chunks (repeat ReadDone n) = [].
Proof. induction n as [| n IH]; cbn; [reflexivity | exact IH]. Qed.

Lemma flowing_step (s : BodyStream) (ev : InboundEvent) :
  in_flow s -> flowing ev = true ->
  number_gt (Num (bs_size s + chunk_bytes (data_of [ev]))) (bs_length s) = false ->
  exists s',
    inbound_step s ev = Returns s' /\ in_flow s' /\
    delivered s' = (delivered s ++ data_of [ev])%list /\
    bs_size s' = bs_size s + chunk_bytes (data_of [ev]) /\
    bs_length s' = bs_length s.
Proof.
  intros (Hc & Hst & Hcr & Hq) Hev Hfit.
  destruct ev as [e | | c | | | reason]; try discriminate Hev;
    cbn [inbound_step data_of chunk_bytes] in *.
  - rewrite Z.add_0_r in *. unfold on_data. rewrite Hc, Hfit.
    unfold controller_enqueue, is_readable. rewrite Hcr, Hst. cbn [orb negb].
    destruct (pendingReads (bs_controller s)) as [| n] eqn:Hp.
    + eexists. split; [reflexivity |]. unfold in_flow, delivered. cbn.
      rewrite <- app_assoc. repeat split. intros H. contradiction.
    + rewrite (Hq ltac:(discriminate)).
      eexists. split; [reflexivity |]. unfold in_flow, delivered. cbn.
      rewrite ?(Hq ltac:(discriminate)), observed_chunks_app, !app_nil_r.
      repeat split.
  - eexists. split; [reflexivity |]. unfold in_flow, delivered. cbn.
    rewrite app_nil_r, Z.add_0_r. repeat split; assumption.
  - unfold controller_read.
    destruct (queue (bs_controller s)) as [| c rest] eqn:Hqueue.
    + rewrite Hst. eexists. split; [reflexivity |]. unfold in_flow, delivered. cbn.
      rewrite ?Hqueue, ?Hcr, Z.add_0_r, !app_nil_r. repeat split; try assumption.
    + assert (Hp : pendingReads (bs_controller s) = 0%nat).
      { destruct (pendingReads (bs_controller s)); [reflexivity |].
        discriminate (Hq ltac:(discriminate)). }
      eexists. split; [reflexivity |]. unfold in_flow, delivered. cbn.
      rewrite ?Hqueue, ?Hcr, ?Hst, ?Hp, Z.add_0_r, observed_chunks_app, app_nil_r,
        <- app_assoc.
      repeat split; try assumption.
      * destruct rest; reflexivity.
      * intros H. contradiction.
Qed.

Lemma number_gt_mono (a b : Z) (len : JSNumber) :
  a <= b -> number_gt (Num b) len = false -> number_gt (Num a) len = false.
Proof.
  intros Hab. destruct len as [| l]; cbn; [reflexivity |]. lia.
Qed.

Lemma flowing_run (evs : list InboundEvent) :
  forall s : BodyStream,
    in_flow s -> forallb flowing evs = true ->
    number_gt (Num (bs_size s + chunk_bytes (data_of evs))) (bs_length s) = false ->
    exists s',
      inbound_run s evs = Returns s' /\ in_flow s' /\
      delivered s' = (delivered s ++ data_of evs)%list /\
      bs_size s' = bs_size s + chunk_bytes (data_of evs).
Proof.
  induction evs as [| ev evs IH]; intros s Hs Hall Hfit.
  - exists s. cbn. rewrite app_nil_r. repeat split; try apply Hs. lia.
  - cbn [forallb] in Hall. apply andb_true_iff in Hall as [Hev Hall].
    assert (Hsplit : data_of (ev :: evs) = (data_of [ev] ++ data_of evs)%list).
    { destruct ev; reflexivity. }
    rewrite Hsplit, chunk_bytes_app in Hfit.
    pose proof (chunk_bytes_nonneg (data_of evs)) as Hnn.
    destruct (flowing_step s ev Hs Hev) as (s1 & Hstep & Hs1 & Hd1 & Hz1 & Hl1).
    { apply (number_gt_mono _ (bs_size s + (chunk_bytes (data_of [ev]) +
                                             chunk_bytes (data_of evs))));
        [lia | exact Hfit]. }
    destruct (IH s1 Hs1 Hall) as (s2 & Hrun & Hs2 & Hd2 & Hz2).
    { rewrite Hl1, Hz1, <- Z.add_assoc. exact Hfit. }
    exists s2. cbn [inbound_run]. rewrite Hstep.
    split; [exact Hrun |]. split; [exact Hs2 |].
    rewrite Hd2, Hd1, Hz2, Hz1, Hsplit, chunk_bytes_app, <- app_assoc.
    split; [reflexivity | lia].
Qed.

(** X8: while the request only emits data and the consumer only reads,
    in any interleaving, and the data fits the limit, every chunk is
    let through once and in the order received: the chunks read so far
    followed by the chunks still queued are the chunks of the data
    notifications, and the running size is their number of bytes. *)
Theorem chunks_delivered_in_order
    (length content_length : JSNumber) (evs : list InboundEvent) :
  forallb flowing evs = true ->
  number_gt (Num (chunk_bytes (data_of evs))) length = false ->
  exists s,
    inbound_run (new_stream length content_length) evs = Returns s /\
    bs_cancelled s = false /\
    state (bs_controller s) = Readable /\
    delivered s = data_of evs /\
    bs_size s = chunk_bytes (data_of evs).
Proof.
  intros Hall Hfit.
  destruct (flowing_run evs (new_stream length content_length))
    as (s & Hrun & (Hc & Hst & _) & Hd & Hz).
  - unfold in_flow. cbn. repeat split.
  - exact Hall.
  - exact Hfit.
  - exists s. repeat split; assumption.
Qed.

Lemma chunks_delivered_in_order_witness :
  exists s,
    inbound_run (new_stream (Num 10) (Num 10))
      [ReqData "abc"; ReqData "de"; ConsumerRead; StreamPull; ConsumerRead;
       ConsumerRead; ReqData "fgh"] = Returns s /\
    bs_cancelled s = false /\
    state (bs_controller s) = Readable /\
    delivered s = ["abc"; "de"; "fgh"] /\
    bs_size s = 8.
Proof.
  apply (chunks_delivered_in_order (Num 10) (Num 10)
           [ReqData "abc"; ReqData "de"; ConsumerRead; StreamPull; ConsumerRead;
            ConsumerRead; ReqData "fgh"]); reflexivity.
Defined.

Lemma drain_reads (q : list string) :
  forall s : BodyStream,
    queue (bs_controller s) = q ->
    closeRequested (bs_controller s) = true ->
    (q <> [] -> state (bs_controller s) = Readable) ->
    (q = [] -> state (bs_controller s) = Closed) ->
    exists s',
      inbound_run s (repeat ConsumerRead (S (length q))) = Returns s' /\
      state (bs_controller s') = Closed /\
      observed (bs_controller s') =
        (observed (bs_controller s) ++ map ReadChunk q ++ [ReadDone])%list /\
      bs_req_calls s' = bs_req_calls s.
Proof.
  induction q as [| c rest IH]; intros s Hq Hcr Hne He.
  - cbn [length repeat inbound_run inbound_step]. unfold controller_read.
    rewrite Hq, (He eq_refl). eexists. split; [reflexivity |]. cbn. repeat split.
  - cbn [length repeat inbound_run inbound_step].
    change (inbound_run ?x (ConsumerRead :: repeat ConsumerRead (length rest)))
      with (inbound_run x (repeat ConsumerRead (S (length rest)))).
    set (s1 := with_controller (controller_read (bs_controller s)) s).
    destruct (IH s1) as (s' & Hrun & Hst & Hobs & Hcalls).
    + subst s1. unfold controller_read. rewrite Hq. reflexivity.
    + subst s1. unfold controller_read. rewrite Hq. exact Hcr.
    + intros Hrest. subst s1. unfold controller_read. rewrite Hq. cbn.
      destruct rest; [contradiction |]. apply Hne. discriminate.
    + intros ->. subst s1. unfold controller_read. rewrite Hq, Hcr. reflexivity.
    + exists s'. split; [exact Hrun |]. split; [exact Hst |].
      rewrite Hobs, Hcalls. subst s1. unfold controller_read. rewrite Hq. cbn.
      rewrite <- app_assoc. split; reflexivity.
Qed.

(** X9: the end of the request loses nothing: on a bridge in flow, when
    the request ends and the consumer then reads, the reads that were
    waiting settle as done, the chunks still queued are read in order,
    and only then does a read settle as done; the stream is closed. *)
Theorem end_delivers_queue (s : BodyStream) :
  in_flow s ->
  exists s',
    inbound_run s
      (ReqEnd :: repeat ConsumerRead (S (length (queue (bs_controller s)))))
      = Returns s' /\
    state (bs_controller s') = Closed /\
    observed (bs_controller s') =
      (observed (bs_controller s) ++
       repeat ReadDone (pendingReads (bs_controller s)) ++
       map ReadChunk (queue (bs_controller s)) ++ [ReadDone])%list.
Proof.
  intros (Hc & Hst & Hcr & Hq).
  cbn [inbound_run inbound_step]. unfold on_end, controller_close, is_readable.
  rewrite Hc, Hcr, Hst. cbn [orb negb].
  destruct (queue (bs_controller s)) as [| c rest] eqn:Hqueue.
  - eexists. split; [reflexivity |]. cbn. rewrite <- app_assoc. split; reflexivity.
  - assert (Hp : pendingReads (bs_controller s) = 0%nat).
    { destruct (pendingReads (bs_controller s)); [reflexivity |].
      discriminate (Hq ltac:(discriminate)). }
    set (s1 := {| bs_length := bs_length s; bs_content_length := bs_content_length s;
                  bs_size := bs_size s; bs_cancelled := false;
                  bs_controller := _; bs_req_calls := bs_req_calls s |}).
    destruct (drain_reads (c :: rest) s1 eq_refl eq_refl) as (s' & Hrun & Hs' & Hobs & _).
    + intros _. reflexivity.
    + discriminate.
    + exists s'. split; [exact Hrun |]. split; [exact Hs' |].
      rewrite Hobs, Hp. reflexivity.
Qed.

Lemma end_delivers_queue_witness :
  inbound_run (new_stream (Num 10) (Num 10)) [ReqData "abc"; ReqData "de"]
    = Returns buffered_stream /\
  exists s',
    inbound_run buffered_stream [ReqEnd; ConsumerRead; ConsumerRead; ConsumerRead]
      = Returns s' /\
    state (bs_controller s') = Closed /\
    observed (bs_controller s') = [ReadChunk "abc"; ReadChunk "de"; ReadDone].
Proof.
  split; [reflexivity |].
  apply (end_delivers_queue buffered_stream).
  unfold in_flow. cbn. repeat split. intros H. contradiction.
Defined.

Ltac bytes_facts :=
  unfold bounded, delivered in *; cbn in *;
  rewrite ?observed_chunks_app, ?observed_chunks_errors, ?observed_chunks_dones,
    ?chunk_bytes_app, ?app_nil_r in *;
  cbn [chunk_bytes observed_chunks] in *;
  repeat match goal with
         | |- context [chunk_bytes ?l] =>
             lazymatch goal with
             | _ : 0 <= chunk_bytes l |- _ => fail
             | _ => pose proof (chunk_bytes_nonneg l)
             end
         | _ : context [chunk_bytes ?l] |- _ =>
             lazymatch goal with
             | _ : 0 <= chunk_bytes l |- _ => fail
             | _ => pose proof (chunk_bytes_nonneg l)
             end
         end.

Ltac bytes_done Hb :=
  split;
  [ lia
  | let Hx := fresh "Hx" in
    intros Hx; try discriminate Hx; try (pose proof (proj2 Hb Hx)); lia ].

Lemma inbound_step_bounded (L : Z) (s s' : BodyStream) (ev : InboundEvent) :
  bs_length s = Num L -> bounded L s ->
  inbound_step s ev = Returns s' -> bounded L s'.
Proof.
  intros Hlen Hb Hstep.
  destruct s as [len cl size cancelled [st q cr p ob] calls].
  cbn in Hlen. subst len.
  destruct ev as [e | | c | | | reason]; cbn [inbound_step] in Hstep.
  - injection Hstep as <-. unfold on_error, controller_error, is_readable. cbn.
    destruct st; bytes_facts; bytes_done Hb.
  - unfold on_end in Hstep. cbn in Hstep. destruct cancelled.
    + injection Hstep as <-. exact Hb.
    + unfold controller_close, is_readable in Hstep. cbn in Hstep.
      destruct (cr || negb match st with Readable => true | _ => false end);
        [discriminate |].
      destruct q; injection Hstep as <-; bytes_facts; bytes_done Hb.
  - unfold on_data in Hstep. cbn in Hstep. destruct cancelled.
    + injection Hstep as <-. exact Hb.
    + destruct (Z.ltb_spec L (size + Z.of_nat (String.length c))) as [Hover | Hfit].
      * injection Hstep as <-. unfold controller_error, is_readable. cbn.
        destruct st; bytes_facts; bytes_done Hb.
      * unfold controller_enqueue, is_readable in Hstep. cbn in Hstep.
        destruct (cr || negb match st with Readable => true | _ => false end);
          [discriminate |].
        destruct p; injection Hstep as <-; bytes_facts; bytes_done Hb.
  - injection Hstep as <-. exact Hb.
  - injection Hstep as <-. unfold controller_read. cbn.
    destruct q as [| c rest]; [destruct st |]; bytes_facts; bytes_done Hb.
  - unfold is_readable in Hstep. cbn in Hstep.
    destruct st; injection Hstep as <-; try exact Hb.
    bytes_facts. bytes_done Hb.
Qed.

Lemma inbound_run_bounded (L : Z) (evs : list InboundEvent) :
  forall s s' : BodyStream,
    bs_length s = Num L -> bounded L s ->
    inbound_run s evs = Returns s' -> bounded L s'.
Proof.
  induction evs as [| ev evs IH]; intros s s' Hlen Hb; cbn [inbound_run].
  - intros [= <-]. exact Hb.
  - destruct (inbound_step s ev) as [s1 |] eqn:Hstep; [| discriminate].
    intros Hrun. apply (IH s1 s'); [| | exact Hrun].
    + rewrite (proj1 (inbound_step_limits s s1 ev Hstep)). exact Hlen.
    + exact (inbound_step_bounded L s s1 ev Hlen Hb Hstep).
Qed.

(** X10: the consumer never gets more than the limit: on a bridge
    limited to [L] bytes, whatever the request emits and the consumer
    does, the chunks read and the chunks queued never hold more than
    [L] bytes together. *)
Theorem never_over_limit
    (L : Z) (content_length : JSNumber) (evs : list InboundEvent) (s : BodyStream) :
  0 <= L ->
  inbound_run (new_stream (Num L) content_length) evs = Returns s ->
  chunk_bytes (delivered s) <= L.
Proof.
  intros HL Hrun.
  apply (inbound_run_bounded L evs (new_stream (Num L) content_length) s eq_refl);
    [| exact Hrun].
  unfold bounded, delivered. cbn. repeat split; lia.
Qed.

Lemma never_over_limit_witness :
  exists s,
    inbound_run (new_stream (Num 4) NaN)
      [ReqData "abc"; ConsumerRead; ReqData "de"; ReqData "f"] = Returns s /\
    delivered s = ["abc"] /\
    chunk_bytes (delivered s) <= 4.
Proof.
  eexists. split; [reflexivity |]. split; [reflexivity |].
  apply (never_over_limit 4 NaN
           [ReqData "abc"; ConsumerRead; ReqData "de"; ReqData "f"]);
    [lia | reflexivity].
Defined.

(* --------------------------------------------------------------------- *)
(* The pull bridge: what is done to the request                          *)
(* --------------------------------------------------------------------- *)

Lemma destroys_app (calls : list ReqCall) (c : ReqCall) (s : BodyStream) :
  bs_req_calls s = (calls ++ [c])%list ->
  destroys s = (length (List.filter is_ReqDestroy calls) +
                if is_ReqDestroy c then 1 else 0)%nat.
Proof.
  intros H. unfold destroys. rewrite H, List.filter_app, length_app. cbn.
  destruct (is_ReqDestroy c); reflexivity.
Qed.

Lemma pause_choice_destroys (d : option Z) (calls : list ReqCall) :
  List.filter is_ReqDestroy
    (match d with
     | None => calls ++ [ReqPause]
     | Some z => if z <=? 0 then calls ++ [ReqPause] else calls
     end) = List.filter is_ReqDestroy calls.
Proof.
  destruct d as [z |]; [destruct (z <=? 0) |];
    rewrite ?List.filter_app; cbn; rewrite ?app_nil_r; reflexivity.
Qed.

Lemma inbound_step_destroy_guarded (s s' : BodyStream) (ev : InboundEvent) :
  inbound_step s ev = Returns s' -> destroy_guarded s -> destroy_guarded s'.
Proof.
  unfold destroy_guarded. intros Hstep [Hr Hle].
  destruct ev as [e | | c | | | reason]; cbn [inbound_step] in Hstep.
  - injection Hstep as <-. cbn. rewrite controller_error_settled.
    split; [discriminate | exact Hle].
  - unfold on_end in Hstep. destruct (bs_cancelled s).
    + injection Hstep as <-. split; assumption.
    + unfold controller_close in Hstep.
      destruct (is_readable (bs_controller s)) eqn:Hrd;
        [| rewrite orb_true_r in Hstep; discriminate].
      destruct (closeRequested (bs_controller s)); [discriminate |]. cbn in Hstep.
      destruct (queue (bs_controller s)); injection Hstep as <-;
        (split; [intros _; exact (Hr eq_refl) | exact Hle]).
  - unfold on_data in Hstep. destruct (bs_cancelled s).
    + injection Hstep as <-. split; assumption.
    + destruct (number_gt _ _).
      * injection Hstep as <-. cbn. rewrite controller_error_settled.
        split; [discriminate | exact Hle].
      * unfold controller_enqueue in Hstep.
        destruct (is_readable (bs_controller s)) eqn:Hrd;
          [| rewrite orb_true_r in Hstep; discriminate].
        destruct (closeRequested (bs_controller s)); [discriminate |]. cbn in Hstep.
        specialize (Hr eq_refl). unfold destroys in *.
        destruct (pendingReads (bs_controller s)); injection Hstep as <-;
          cbn [bs_req_calls]; rewrite pause_choice_destroys, Hr;
          (split; [reflexivity | lia]).
  - injection Hstep as <-. unfold pull, destroys. cbn.
    rewrite List.filter_app, length_app. cbn. rewrite Nat.add_0_r.
    split; assumption.
  - injection Hstep as <-. unfold destroys. cbn. split; [| exact Hle].
    intros Hrd. apply Hr.
    destruct (is_readable (bs_controller s)) eqn:Hrs; [reflexivity |].
    rewrite (controller_read_settled _ Hrs) in Hrd. discriminate Hrd.
  - destruct (is_readable (bs_controller s)) eqn:Hrd; injection Hstep as <-.
    + unfold destroys, source_cancel. cbn.
      rewrite List.filter_app, length_app. cbn.
      specialize (Hr eq_refl). unfold destroys in Hr. rewrite Hr.
      split; [discriminate | lia].
    + split; [intros Hx; rewrite Hrd in Hx; discriminate Hx | exact Hle].
Qed.

Lemma inbound_run_destroy_guarded (evs : list InboundEvent) :
  forall s s' : BodyStream,
    inbound_run s evs = Returns s' -> destroy_guarded s -> destroy_guarded s'.
Proof.
  induction evs as [| ev evs IH]; intros s s'; cbn [inbound_run].
  - intros [= <-] H. exact H.
  - destruct (inbound_step s ev) as [s1 |] eqn:Hstep; [| discriminate].
    intros Hrun Hg. apply (IH s1 s' Hrun).
    exact (inbound_step_destroy_guarded s s1 ev Hstep Hg).
Qed.

Lemma inbound_step_destroy_reason (s s' : BodyStream) (ev : InboundEvent)
    (reason : option string) :
  inbound_step s ev = Returns s' ->
  In (ReqDestroy reason) (bs_req_calls s') ->
  In (ReqDestroy reason) (bs_req_calls s) \/ ev = ConsumerCancel reason.
Proof.
  destruct ev as [e | | c | | | r]; cbn [inbound_step].
  - intros [= <-] H. left. exact H.
  - unfold on_end. destruct (bs_cancelled s).
    + intros [= <-] H. left. exact H.
    + destruct (controller_close _); [| discriminate].
      intros [= <-] H. left. exact H.
  - unfold on_data. destruct (bs_cancelled s).
    + intros [= <-] H. left. exact H.
    + destruct (number_gt _ _).
      * intros [= <-] H. left. exact H.
      * destruct (controller_enqueue _ _) as [c' |]; [| discriminate].
        intros [= <-]. cbn.
        destruct (desiredSize c') as [d |]; [destruct (d <=? 0) |];
          intros H; try (left; exact H);
          apply in_app_or in H as [H | [H | []]]; try discriminate H; left; exact H.
  - intros [= <-]. cbn. intros H.
    apply in_app_or in H as [H | [H | []]]; [left; exact H | discriminate H].
  - intros [= <-] H. left. exact H.
  - destruct (is_readable _); intros [= <-]; [| intros H; left; exact H].
    cbn. intros H. apply in_app_or in H as [H | [H | []]]; [left; exact H |].
    injection H as ->. right. reflexivity.
Qed.

(** X11: the request is destroyed by a cancel of the consumer and by
    nothing else, with the reason the consumer gave, and at most once
    over any run of events. *)
Theorem destroyed_once_by_cancel
    (length content_length : JSNumber) (evs : list InboundEvent) (s : BodyStream) :
  inbound_run (new_stream length content_length) evs = Returns s ->
  (destroys s <= 1)%nat /\
  forall reason,
    In (ReqDestroy reason) (bs_req_calls s) -> In (ConsumerCancel reason) evs.
Proof.
  intros Hrun. split.
  - apply (inbound_run_destroy_guarded evs _ s Hrun).
    unfold destroy_guarded, destroys. cbn. split; [reflexivity | lia].
  - assert (Hgen : forall evs0 s0 s1 reason,
              inbound_run s0 evs0 = Returns s1 ->
              In (ReqDestroy reason) (bs_req_calls s1) ->
              In (ReqDestroy reason) (bs_req_calls s0) \/
              In (ConsumerCancel reason) evs0).
    { induction evs0 as [| ev evs0 IH]; intros s0 s1 reason; cbn [inbound_run].
      - intros [= <-] H. left. exact H.
      - destruct (inbound_step s0 ev) as [s2 |] eqn:Hstep; [| discriminate].
        intros Hrun' Hin.
        destruct (IH s2 s1 reason Hrun' Hin) as [H | H]; [| right; right; exact H].
        destruct (inbound_step_destroy_reason s0 s2 ev reason Hstep H) as [H' | ->];
          [left; exact H' | right; left; reflexivity]. }
    intros reason Hin.
    destruct (Hgen evs _ s reason Hrun Hin) as [[] | H]. exact H.
Qed.

Lemma destroyed_once_by_cancel_witness :
  exists s,
    inbound_run (new_stream (Num 10) (Num 10))
      [ReqData "abc"; ConsumerCancel (Some "stop"); ConsumerCancel (Some "again");
       ReqError "aborted"] = Returns s /\
    bs_req_calls s = [ReqPause; ReqDestroy (Some "stop")] /\
    (destroys s <= 1)%nat.
Proof.
  eexists. split; [reflexivity |]. split; [reflexivity |].
  apply (destroyed_once_by_cancel (Num 10) (Num 10)
           [ReqData "abc"; ConsumerCancel (Some "stop"); ConsumerCancel (Some "again");
            ReqError "aborted"]).
  reflexivity.
Defined.

Lemma inbound_step_settled_is_empty (s s' : BodyStream) (ev : InboundEvent) :
  inbound_step s ev = Returns s' -> settled_is_empty s -> settled_is_empty s'.
Proof.
  unfold settled_is_empty. intros Hstep Hm.
  destruct s as [len cl size cancelled [st q cr p ob] calls].
  unfold is_readable in *. cbn in Hm.
  destruct ev as [e | | c | | | reason]; cbn [inbound_step] in Hstep.
  - injection Hstep as <-. unfold on_error, controller_error, is_readable. cbn.
    destruct st; cbn; intros H; try reflexivity; apply Hm; reflexivity.
  - unfold on_end, controller_close, is_readable in Hstep. cbn in Hstep.
    destruct cancelled; [injection Hstep as <-; exact Hm |].
    destruct cr; [discriminate |]. destruct st; try discriminate. cbn in Hstep.
    destruct q; injection Hstep as <-; cbn; intros H; [reflexivity | discriminate H].
  - unfold on_data in Hstep. cbn [bs_cancelled] in Hstep.
    destruct cancelled; [injection Hstep as <-; exact Hm |].
    destruct (number_gt _ _).
    + injection Hstep as <-. unfold controller_error, is_readable. cbn.
      destruct st; cbn; intros H; try reflexivity; apply Hm; reflexivity.
    + unfold controller_enqueue, is_readable in Hstep. cbn in Hstep.
      destruct cr; [discriminate |]. destruct st; try discriminate. cbn in Hstep.
      destruct p; injection Hstep as <-; cbn; intros H; discriminate H.
  - injection Hstep as <-. exact Hm.
  - injection Hstep as <-. unfold controller_read. cbn.
    destruct q as [| c [| d rest]]; cbn.
    + destruct st; cbn; intros H; reflexivity.
    + intros _. reflexivity.
    + destruct st; cbn; intros H; try discriminate H;
        specialize (Hm eq_refl); discriminate Hm.
  - unfold is_readable in Hstep. cbn in Hstep.
    destruct st; injection Hstep as <-; cbn; intros H;
      try reflexivity; apply Hm; reflexivity.
Qed.

Lemma inbound_run_settled_is_empty (evs : list InboundEvent) :
  forall s s' : BodyStream,
    inbound_run s evs = Returns s' -> settled_is_empty s -> settled_is_empty s'.
Proof.
  induction evs as [| ev evs IH]; intros s s'; cbn [inbound_run].
  - intros [= <-] H. exact H.
  - destruct (inbound_step s ev) as [s1 |] eqn:Hstep; [| discriminate].
    intros Hrun Hg. apply (IH s1 s' Hrun).
    exact (inbound_step_settled_is_empty s s1 ev Hstep Hg).
Qed.

(** One event on a stream that is closed or in error, and empty. *)
Lemma inbound_step_after_settled (s s' : BodyStream) (ev : InboundEvent) :
  is_readable (bs_controller s) = false -> queue (bs_controller s) = [] ->
  inbound_step s ev = Returns s' ->
  state (bs_controller s') = state (bs_controller s) /\
  queue (bs_controller s') = [] /\
  observed_chunks (observed (bs_controller s')) =
    observed_chunks (observed (bs_controller s)).
Proof.
  intros Hr Hq Hstep.
  destruct s as [len cl size cancelled [st q cr p ob] calls].
  unfold is_readable in *. cbn in Hr, Hq. subst q.
  destruct ev as [e | | c | | | reason]; cbn [inbound_step] in Hstep.
  - injection Hstep as <-. unfold on_error, controller_error, is_readable. cbn.
    rewrite Hr. cbn. repeat split.
  - unfold on_end, controller_close, is_readable in Hstep. cbn in Hstep.
    destruct cancelled; [injection Hstep as <-; cbn; repeat split |].
    rewrite Hr, orb_true_r in Hstep. discriminate.
  - unfold on_data in Hstep. cbn [bs_cancelled] in Hstep.
    destruct cancelled; [injection Hstep as <-; cbn; repeat split |].
    destruct (number_gt _ _).
    + injection Hstep as <-. unfold controller_error, is_readable. cbn.
      rewrite Hr. cbn. repeat split.
    + unfold controller_enqueue, is_readable in Hstep. cbn in Hstep.
      rewrite Hr, orb_true_r in Hstep. discriminate.
  - injection Hstep as <-. cbn. repeat split.
  - injection Hstep as <-. unfold controller_read. cbn.
    destruct st; try discriminate Hr; cbn; rewrite observed_chunks_app, app_nil_r;
      repeat split.
  - unfold is_readable in Hstep. cbn in Hstep. rewrite Hr in Hstep.
    injection Hstep as <-. cbn. repeat split.
Qed.

(** X12: the end of the stream is final: once the stream of a bridge is
    closed or in error, whatever the request emits and the consumer does
    afterwards, it stays in that state (a stored error is never
    replaced), and no further chunk reaches the consumer or the queue. *)
Theorem termination_is_final
    (length content_length : JSNumber) (before after : list InboundEvent)
    (s1 s2 : BodyStream) :
  inbound_run (new_stream length content_length) before = Returns s1 ->
  inbound_run s1 after = Returns s2 ->
  is_readable (bs_controller s1) = false ->
  state (bs_controller s2) = state (bs_controller s1) /\
  queue (bs_controller s2) = [] /\
  observed_chunks (observed (bs_controller s2)) =
    observed_chunks (observed (bs_controller s1)).
Proof.
  intros Hbefore Hafter Hr.
  assert (Hq : queue (bs_controller s1) = []).
  { apply (inbound_run_settled_is_empty before _ s1 Hbefore); [| exact Hr].
    intros H. discriminate H. }
  clear Hbefore. revert s1 Hafter Hr Hq.
  induction after as [| ev after IH]; intros s1; cbn [inbound_run].
  - intros [= <-] _ Hq. repeat split. exact Hq.
  - destruct (inbound_step s1 ev) as [s |] eqn:Hstep; [| discriminate].
    intros Hrun Hr Hq.
    destruct (inbound_step_after_settled s1 s ev Hr Hq Hstep) as (Hst & Hq' & Hobs).
    destruct (IH s Hrun) as (H1 & H2 & H3).
    + unfold is_readable in *. rewrite Hst. exact Hr.
    + exact Hq'.
    + rewrite H1, H3, Hst, Hobs. repeat split. exact H2.
Qed.

Lemma termination_is_final_witness :
  exists s2,
    inbound_run overflowed_stream
      [ReqData "late"; ReqError "aborted"; ConsumerRead; ReqEnd] = Returns s2 /\
    state (bs_controller s2) =
      Errored "request body size exceeded BODY_SIZE_LIMIT of 4" /\
    observed_chunks (observed (bs_controller s2)) = [].
Proof.
  eexists. split; [reflexivity |].
  destruct (termination_is_final (Num 4) NaN [ConsumerRead; ReqData "abcdef"]
              [ReqData "late"; ReqError "aborted"; ConsumerRead; ReqEnd]
              overflowed_stream _ eq_refl eq_refl eq_refl) as (H1 & _ & H3).
  split; [exact H1 | exact H3].
Defined.

Lemma paused_app (calls : list ReqCall) (c : ReqCall) :
  paused (calls ++ [c]) =
  match c with
  | ReqPause => true
  | ReqResume => false
  | ReqDestroy _ => paused calls
  end.
Proof. unfold paused. rewrite fold_left_app. reflexivity. Qed.

Ltac buffer_done :=
  cbn -[paused];
  split;
  [ try assumption; try reflexivity;
    try (let Hx := fresh "Hx" in intros Hx; contradiction)
  | try assumption; cbn; try lia ].

Lemma inbound_step_buffer_bounded (s s' : BodyStream) (ev : InboundEvent) :
  buffer_bounded s -> allowed s ev = true ->
  inbound_step s ev = Returns s' -> buffer_bounded s'.
Proof.
  unfold buffer_bounded. intros [Hp Hle] Hallowed Hstep.
  destruct s as [len cl size cancelled [st q cr p ob] calls].
  cbn -[paused] in Hp, Hle.
  destruct ev as [e | | c | | | reason]; cbn [inbound_step] in Hstep.
  - injection Hstep as <-. unfold on_error, controller_error, is_readable.
    cbn -[paused]. destruct st; buffer_done.
  - unfold on_end in Hstep. cbn [bs_cancelled] in Hstep.
    destruct cancelled; [injection Hstep as <-; buffer_done |].
    unfold controller_close, is_readable in Hstep. cbn in Hstep.
    destruct (cr || negb match st with Readable => true | _ => false end);
      [discriminate |].
    destruct q; injection Hstep as <-; buffer_done.
  - cbn -[paused] in Hallowed. apply negb_true_iff in Hallowed.
    assert (Hq : q = []).
    { destruct q; [reflexivity |]. rewrite Hp in Hallowed by discriminate.
      discriminate Hallowed. }
    subst q.
    unfold on_data in Hstep. cbn [bs_cancelled] in Hstep.
    destruct cancelled; [injection Hstep as <-; buffer_done |].
    destruct (number_gt _ _).
    + injection Hstep as <-. unfold controller_error, is_readable.
      cbn -[paused]. destruct st; buffer_done.
    + unfold controller_enqueue, is_readable in Hstep. cbn in Hstep.
      destruct cr; [discriminate |]. destruct st; try discriminate. cbn in Hstep.
      destruct p; injection Hstep as <-; cbn -[paused].
      * rewrite paused_app. split; [reflexivity | lia].
      * buffer_done.
  - unfold allowed, desiredSize in Hallowed.
    cbn [bs_controller state queue] in Hallowed. injection Hstep as <-.
    assert (Hq : q = []).
    { destruct st; try discriminate Hallowed.
      destruct q; [reflexivity |]. cbn [length] in Hallowed.
      apply Z.ltb_lt in Hallowed. lia. }
    subst q. buffer_done.
  - injection Hstep as <-. unfold controller_read. cbn -[paused].
    destruct q as [| c [| d rest]]; cbn in Hle; try lia.
    + destruct st; buffer_done.
    + buffer_done.
  - unfold is_readable in Hstep. cbn in Hstep.
    destruct st; injection Hstep as <-; buffer_done.
Qed.

(** X13: buffering is bounded: while the platform keeps to its
    discipline (a paused request emits no data, the stream pulls only
    when it wants a chunk), the bridge never holds more than one chunk
    in its queue, whatever the consumer's pace: a chunk that has to be
    queued pauses the request, and only a pull resumes it. *)
Theorem buffering_is_bounded
    (length content_length : JSNumber) (evs : list InboundEvent) (s : BodyStream) :
  disciplined (new_stream length content_length) evs = true ->
  inbound_run (new_stream length content_length) evs = Returns s ->
  (List.length (queue (bs_controller s)) <= 1)%nat.
Proof.
  assert (Hgen : forall evs0 s0 s1,
            buffer_bounded s0 -> disciplined s0 evs0 = true ->
            inbound_run s0 evs0 = Returns s1 -> buffer_bounded s1).
  { induction evs0 as [| ev evs0 IH]; intros s0 s1 Hb; cbn [disciplined inbound_run].
    - intros _ [= <-]. exact Hb.
    - intros Hd. apply andb_true_iff in Hd as [Ha Hd].
      destruct (inbound_step s0 ev) as [s2 |] eqn:Hstep; [| discriminate].
      intros Hrun. apply (IH s2 s1); [| exact Hd | exact Hrun].
      exact (inbound_step_buffer_bounded s0 s2 ev Hb Ha Hstep). }
  intros Hd Hrun.
  refine (proj2 (Hgen evs (new_stream length content_length) s _ Hd Hrun)).
  unfold buffer_bounded. cbn. split; [intros H; contradiction | lia].
Qed.

Lemma buffering_is_bounded_witness :
  exists s,
    inbound_run (new_stream NaN NaN)
      [ReqData "abc"; ConsumerRead; StreamPull; ReqData "de"; ConsumerRead;
       ConsumerRead; StreamPull; ReqData "fgh"; ReqData "ij"] = Returns s /\
    queue (bs_controller s) = ["ij"] /\
    bs_req_calls s = [ReqPause; ReqResume; ReqPause; ReqResume; ReqPause] /\
    (List.length (queue (bs_controller s)) <= 1)%nat.
Proof.
  eexists. split; [reflexivity |]. split; [reflexivity |]. split; [reflexivity |].
  apply (buffering_is_bounded NaN NaN
           [ReqData "abc"; ConsumerRead; StreamPull; ReqData "de"; ConsumerRead;
            ConsumerRead; StreamPull; ReqData "fgh"; ReqData "ij"]);
    reflexivity.
Defined.

(* --------------------------------------------------------------------- *)
(* The pre-parsed body on the wire                                       *)
(* --------------------------------------------------------------------- *)

(** X14: a body left as a [URLSearchParams] is serialised, whatever the
    content type, to a string that the standard decoder parses back to
    the very pairs of the container, in order. *)
Theorem search_params_round_trip
    (pairs : list (string * string)) (isFormUrlEncoded : bool) :
  parse_form_urlencoded (serializeParsedBody (JSURLSearchParams pairs) isFormUrlEncoded)
  = pairs.
Proof. cbn [serializeParsedBody]. apply parse_serialised. Qed.

Lemma prefix_append (p s : string) : String.prefix p (p +:+ s) = true.
Proof.
  induction p as [| c p IH]; [destruct s; reflexivity |].
  rewrite append_cons. cbn [String.prefix].
  destruct (ascii_dec c c) as [_ | Hne]; [exact IH | contradiction].
Qed.

Lemma toLowerCase_empty (s : string) :
  String.eqb (toLowerCase s) "" = String.eqb s "".
Proof. destruct s; reflexivity. Qed.

(** X15: the form content type is recognised by its lower-cased
    beginning: capitals do not matter, what follows the media type
    (parameters such as a charset) does not matter, and of a header
    given as an array only the first value counts; without the header
    the answer is no. *)
Theorem form_content_type_detection (h : gmap string HeaderValue) :
  (forall s suffix,
     toLowerCase s = "application/x-www-form-urlencoded" +:+ suffix ->
     hasFormUrlEncodedContentType (with_content_type (HStr s) h) = true) /\
  (forall s,
     hasFormUrlEncodedContentType (with_content_type (HStr s) h) =
     hasFormUrlEncodedContentType (with_content_type (HStr (toLowerCase s)) h)) /\
  (forall s rest,
     hasFormUrlEncodedContentType (with_content_type (HArr (s :: rest)) h) =
     hasFormUrlEncodedContentType (with_content_type (HStr s) h)) /\
  hasFormUrlEncodedContentType (with_content_type (HArr []) h) = false /\
  hasFormUrlEncodedContentType (delete "content-type" h) = false.
Proof.
  unfold hasFormUrlEncodedContentType, with_content_type.
  rewrite !lookup_delete_eq.
  split; [| split; [| split; [| split]]].
  - intros s suffix Hs. rewrite lookup_insert_eq. cbn [getFirstHeaderValue].
    destruct (String.eqb_spec s "") as [-> | _]; [discriminate Hs |].
    unfold startsWith. rewrite Hs. apply prefix_append.
  - intros s. rewrite !lookup_insert_eq. cbn [getFirstHeaderValue].
    rewrite toLowerCase_empty, toLowerCase_idempotent. reflexivity.
  - intros s rest. rewrite !lookup_insert_eq. reflexivity.
  - rewrite lookup_insert_eq. reflexivity.
  - reflexivity.
Qed.

Lemma form_content_type_detection_witness :
  hasFormUrlEncodedContentType form_headers = true.
Proof.
  apply (proj1 (form_content_type_detection ∅)
           "Application/X-WWW-Form-Urlencoded; charset=utf-8" "; charset=utf-8").
  reflexivity.
Defined.

Lemma form_encode_byte_wire (c : ascii) :
  all_bytes is_wire_byte (form_encode_byte c) = true.
Proof. destruct c as [[] [] [] [] [] [] [] []]; reflexivity. Qed.

Lemma all_bytes_app (p : ascii -> bool) (a b : string) :
  all_bytes p (a +:+ b) = all_bytes p a && all_bytes p b.
Proof.
  induction a as [| c a IH]; [reflexivity |].
  rewrite append_cons. cbn [all_bytes]. rewrite IH, andb_assoc. reflexivity.
Qed.

Lemma form_encode_wire (s : string) : all_bytes is_wire_byte (form_encode s) = true.
Proof.
  induction s as [| c s IH]; cbn [form_encode]; [reflexivity |].
  rewrite all_bytes_app, form_encode_byte_wire, IH. reflexivity.
Qed.

Lemma serialised_wire (params : list (string * string)) :
  all_bytes is_wire_byte (URLSearchParams_toString params) = true.
Proof.
  unfold URLSearchParams_toString.
  induction params as [| p [| q rest] IH]; cbn [map join] in *.
  - reflexivity.
  - unfold form_encode_pair. rewrite !all_bytes_app, !form_encode_wire. reflexivity.
  - rewrite !all_bytes_app, IH. unfold form_encode_pair.
    rewrite !all_bytes_app, !form_encode_wire. reflexivity.
Qed.

(** X16: whatever the keys and the values of the parsed body hold, the
    re-serialised form is made of ASCII letters and digits and of the
    marks [*], [-], [.], [_], [+], [%], [&] and [=] only: every other
    byte is percent-encoded. *)
Theorem form_body_alphabet (body : list (string * JSValue)) :
  all_bytes is_wire_byte (toFormUrlEncodedBody body) = true.
Proof. unfold toFormUrlEncodedBody. apply serialised_wire. Qed.

Lemma toFormUrlEncodedBody_pairs (body : list (string * JSValue)) :
  toFormUrlEncodedBody body = URLSearchParams_toString (form_pairs body).
Proof. unfold toFormUrlEncodedBody. rewrite appendFormValue_body. reflexivity. Qed.

Lemma form_pairs_app (b1 b2 : list (string * JSValue)) :
  form_pairs (b1 ++ b2) = (form_pairs b1 ++ form_pairs b2)%list.
Proof. unfold form_pairs. apply flat_map_app. Qed.

Lemma join_app (sep : string) (l1 l2 : list string) :
  l1 <> [] -> l2 <> [] ->
  join sep (l1 ++ l2) = join sep l1 +:+ sep +:+ join sep l2.
Proof.
  intros H1 H2. induction l1 as [| x [| y l1] IH]; [contradiction | |].
  - destruct l2 as [| z l2]; [contradiction |]. reflexivity.
  - change (join sep ((x :: y :: l1) ++ l2))
      with (x +:+ sep +:+ join sep ((y :: l1) ++ l2)).
    rewrite IH by discriminate.
    change (join sep (x :: y :: l1)) with (x +:+ sep +:+ join sep (y :: l1)).
    rewrite !append_assoc. reflexivity.
Qed.

Lemma serialised_empty (params : list (string * string)) :
  String.eqb (URLSearchParams_toString params) "" =
  match params with [] => true | _ => false end.
Proof.
  destruct params as [| [k v] rest]; [reflexivity |].
  unfold URLSearchParams_toString. cbn [map].
  assert (Hne : forall tail, String.eqb (form_encode_pair (k, v) +:+ tail) "" = false).
  { intros tail. unfold form_encode_pair. cbn [fst snd].
    destruct (form_encode k); reflexivity. }
  destruct rest as [| q rest]; cbn [join map].
  - rewrite <- (append_empty_r (form_encode_pair (k, v))). apply Hne.
  - apply Hne.
Qed.

(** X17: serialising is compatible with putting two bodies one after
    the other: the form of the properties of [b1] followed by those of
    [b2] is the form of [b1], an [&], and the form of [b2] (just one of
    them when the other is empty), and it parses to the pairs of [b1]
    followed by the pairs of [b2]. *)
Theorem form_body_concat (b1 b2 : list (string * JSValue)) :
  toFormUrlEncodedBody (b1 ++ b2) =
    (if String.eqb (toFormUrlEncodedBody b1) "" then toFormUrlEncodedBody b2
     else if String.eqb (toFormUrlEncodedBody b2) "" then toFormUrlEncodedBody b1
     else toFormUrlEncodedBody b1 +:+ "&" +:+ toFormUrlEncodedBody b2) /\
  parse_form_urlencoded (toFormUrlEncodedBody (b1 ++ b2)) =
    (parse_form_urlencoded (toFormUrlEncodedBody b1) ++
     parse_form_urlencoded (toFormUrlEncodedBody b2))%list.
Proof.
  rewrite !toFormUrlEncodedBody_pairs, form_pairs_app, !parse_serialised.
  split; [| reflexivity].
  rewrite !serialised_empty.
  destruct (form_pairs b1) as [| p1 r1] eqn:H1; [reflexivity |].
  destruct (form_pairs b2) as [| p2 r2] eqn:H2; [rewrite app_nil_r; reflexivity |].
  unfold URLSearchParams_toString. rewrite map_app.
  apply join_app; discriminate.
Qed.

(* --------------------------------------------------------------------- *)
(* URL reconstruction                                                    *)
(* --------------------------------------------------------------------- *)

Lemma prefix_refl (p : string) : String.prefix p p = true.
Proof.
  rewrite <- (append_empty_r p) at 2. apply prefix_append.
Qed.

(** X18: the reconstructed path always begins with the mount prefix,
    and is either the mount prefix followed by the relative path or the
    mount prefix alone; it is the mount prefix alone only when the
    handle carries both pieces of mount metadata. *)
Theorem reconstructed_path_shape (req : IncomingMessage) :
  startsWith (constructRelativeUrl req) (mount_prefix req) = true /\
  (constructRelativeUrl req = mount_prefix req +:+ url req \/
   (has_mount_metadata req = true /\ constructRelativeUrl req = mount_prefix req)).
Proof.
  unfold startsWith, constructRelativeUrl, mount_prefix, has_mount_metadata.
  destruct (baseUrl req) as [b |]; [destruct (originalUrl req) as [o |] |].
  - destruct (String.eqb_spec b "") as [-> | Hb]; cbn [orb negb andb].
    { split; [destruct (url req); reflexivity | left; reflexivity]. }
    destruct (String.eqb_spec o "") as [-> | Ho]; cbn [orb negb andb].
    { split; [apply prefix_append | left; reflexivity]. }
    destruct (String.eqb (b +:+ url req) o).
    { split; [apply prefix_append | left; reflexivity]. }
    destruct (last_char _) as [c |]; [destruct (Ascii.eqb c "/") |].
    + split; [apply prefix_append | left; reflexivity].
    + split; [apply prefix_refl | right; split; reflexivity].
    + split; [apply prefix_refl | right; split; reflexivity].
  - destruct (String.eqb_spec b "") as [-> | Hb].
    + split; [destruct (url req); reflexivity | left; reflexivity].
    + split; [apply prefix_append | left; reflexivity].
  - split; [destruct (url req); reflexivity | left; reflexivity].
Qed.

Lemma append_cancel_l (p a b : string) : p +:+ a = p +:+ b -> a = b.
Proof.
  induction p as [| c p IH]; [intros H; exact H |].
  rewrite !append_cons. intros [= H]. exact (IH H).
Qed.

Lemma append_not_empty (p s : string) : p <> "" -> p +:+ s <> "".
Proof. destruct p; [contradiction | discriminate]. Qed.

(** X19: a query string on the mount point itself is lost.  When a
    sub-router mounted at [base] (no question mark in it, no separator
    at its end) receives [base?query], so that the relative path is
    [/?query], the concatenation differs from the original path, the
    original path does not end in the separator, and the reconstructed
    path is the bare [base]: the query string is not in it. *)
Theorem query_on_mount_point_is_dropped (req : IncomingMessage) (base query : string) :
  base <> "" ->
  contains "?" base = false ->
  ends_in_separator base = false ->
  baseUrl req = Some base ->
  originalUrl req = Some (base +:+ "?" +:+ query) ->
  url req = "/?" +:+ query ->
  constructRelativeUrl req = base.
Proof.
  intros Hb Hq Hend Hbase Horig Hurl.
  unfold constructRelativeUrl. rewrite Hbase, Horig, Hurl.
  destruct (String.eqb_spec base "") as [-> | _]; [contradiction |].
  destruct (String.eqb_spec (base +:+ "?" +:+ query) "") as [He | _];
    [exfalso; exact (append_not_empty base _ Hb He) |].
  cbn [orb].
  destruct (String.eqb_spec (base +:+ "/?" +:+ query) (base +:+ "?" +:+ query))
    as [He | _]; [apply append_cancel_l in He; discriminate He |].
  change ("?" +:+ query) with (String "?" query).
  rewrite (split_first_at "?" base query Hq). cbn [fst].
  unfold ends_in_separator in Hend.
  destruct (last_char base) as [c |]; [rewrite Hend |]; reflexivity.
Qed.

Lemma query_on_mount_point_is_dropped_witness :
  constructRelativeUrl (mounted_request "/api" "/?page=2" "/api?page=2") = "/api".
Proof.
  apply (query_on_mount_point_is_dropped
           (mounted_request "/api" "/?page=2" "/api?page=2") "/api" "page=2");
    [discriminate | reflexivity ..].
Defined.

(* --------------------------------------------------------------------- *)
(* setResponse: headers and status line                                  *)
(* --------------------------------------------------------------------- *)

(** What the read loop and the listeners leave alone: the header store,
    the status code and the status lines written. *)
Lemma cancel_head (err : option string) (o : Outbound) :
  res_headers (res (cancel err o)) = res_headers (res o) /\
  statusCode (res (cancel err o)) = statusCode (res o) /\
  status_lines (res (cancel err o)) = status_lines (res o).
Proof.
  unfold cancel, status_lines.
  destruct (reader o) as [rd |], err as [e |]; cbn;
    rewrite ?List.filter_app; cbn; rewrite ?app_nil_r; repeat split.
Qed.

Lemma next_settled_head (lambda : bool) (o : Outbound) :
  res_headers (res (next_settled lambda o)) = res_headers (res o) /\
  statusCode (res (next_settled lambda o)) = statusCode (res o) /\
  status_lines (res (next_settled lambda o)) = status_lines (res o).
Proof.
  unfold next_settled.
  destruct (loop o); try (repeat split; fail).
  destruct (reader o) as [rd |]; [| repeat split].
  destruct (reader_cancelled rd); [repeat split |].
  destruct (results rd) as [| [v | | e] rest]; [repeat split | | repeat split |].
  - unfold write, status_lines.
    destruct (write_results (res o)) as [| [] ws]; cbn;
      try destruct lambda; cbn; rewrite ?List.filter_app; cbn;
      rewrite ?app_nil_r; repeat split.
  - destruct (cancel_head (Some e)
                {| res := res o; reader := Some (with_results rest rd);
                   loop := Failed; unhandled := unhandled o |}) as (H1 & H2 & H3).
    rewrite H1, H2, H3. repeat split.
Qed.

Lemma deliver_head (ev : EventName) (arg : option string)
    (regs : list Registration) (o : Outbound) :
  res_headers (res (fold_left (deliver ev arg) regs o)) = res_headers (res o) /\
  statusCode (res (fold_left (deliver ev arg) regs o)) = statusCode (res o) /\
  status_lines (res (fold_left (deliver ev arg) regs o)) = status_lines (res o).
Proof.
  revert o. induction regs as [| r regs IH]; intros o; cbn [fold_left];
    [repeat split |].
  destruct (IH (deliver ev arg o r)) as (H1 & H2 & H3). rewrite H1, H2, H3.
  unfold deliver.
  set (o1 := if reg_once r then _ else o).
  assert (Ho1 : res_headers (res o1) = res_headers (res o) /\
                statusCode (res o1) = statusCode (res o) /\
                status_lines (res o1) = status_lines (res o)).
  { subst o1. destruct (reg_once r); repeat split. }
  destruct Ho1 as (A1 & A2 & A3).
  destruct (reg_listener r); cbn [invoke].
  - destruct (cancel_head arg o1) as (B1 & B2 & B3).
    rewrite B1, B2, B3, A1, A2, A3. repeat split.
  - cbn. rewrite A1, A2. repeat split. exact A3.
  - rewrite A1, A2, A3. repeat split.
Qed.

Lemma outbound_run_head (lambda : bool) (evs : list OutboundEvent) :
  forall o : Outbound,
    res_headers (res (outbound_run lambda o evs)) = res_headers (res o) /\
    statusCode (res (outbound_run lambda o evs)) = statusCode (res o) /\
    status_lines (res (outbound_run lambda o evs)) = status_lines (res o).
Proof.
  unfold outbound_run.
  induction evs as [| ev evs IH]; intros o; cbn [fold_left]; [repeat split |].
  destruct (IH (outbound_step lambda o ev)) as (H1 & H2 & H3). rewrite H1, H2, H3.
  destruct ev as [| e arg]; cbn [outbound_step].
  - apply next_settled_head.
  - unfold emit. apply deliver_head.
Qed.

(** When no [setHeader] throws, the header phase leaves under each name
    the value of the last entry of that name, and leaves the other
    headers of the handle as they were. *)
Lemma header_phase_store
    (setHeader_throws : ServerResponse -> string -> HeaderValue -> option string)
    (splitCookiesString : string -> list string)
    (all entries : list (string * string)) :
  forall r r' : ServerResponse,
    Forall (fun kv => toLowerCase (fst kv) = fst kv) entries ->
    header_phase setHeader_throws splitCookiesString all entries r = (r', false) ->
    forall k,
      res_headers r' !! k =
      match last_entry k entries with
      | Some v => Some (header_value splitCookiesString all k v)
      | None => res_headers r !! k
      end.
Proof.
  induction entries as [| [key value] rest IH]; intros r r' Hlow; cbn [header_phase].
  - intros [= <-] k. reflexivity.
  - destruct (setHeader_throws r key _); [discriminate |].
    inversion Hlow as [| ? ? Hkey Hrest]; subst. cbn [fst] in Hkey.
    intros Hphase k. rewrite (IH _ _ Hrest Hphase k). cbn [last_entry].
    destruct (last_entry k rest); [reflexivity |].
    cbn [setHeader res_headers]. rewrite Hkey, lookup_insert.
    destruct (String.eqb_spec key k) as [-> | Hne].
    + rewrite decide_True by reflexivity. reflexivity.
    + rewrite decide_False by exact Hne. reflexivity.
Qed.

(** The first phases of [setResponse] when no [setHeader] throws: the
    handle after the status phase, before anything is done with the
    body. *)
Lemma setResponse_head
    (setHeader_throws : ServerResponse -> string -> HeaderValue -> option string)
    (splitCookiesString : string -> list string)
    (res0 r : ServerResponse) (response : Response) :
  header_phase setHeader_throws splitCookiesString
    (response_headers response) (response_headers response) res0 = (r, false) ->
  let o := setResponse setHeader_throws splitCookiesString res0 response in
  res_headers (res o) = res_headers r /\
  statusCode (res o) = status response /\
  status_lines (res o) = (status_lines res0 ++ [WriteHead (status response)])%list.
Proof.
  intros Hphase.
  destruct (header_phase_written _ _ _ _ _ _ Hphase) as (_ & _ & _ & _ & _ & Hc).
  unfold setResponse. rewrite Hphase.
  assert (Hw : status_lines
                 (writeHead (status response) (set_statusCode (status response) r)) =
               (status_lines res0 ++ [WriteHead (status response)])%list).
  { unfold status_lines. cbn. rewrite Hc, List.filter_app. reflexivity. }
  destruct (response_body response) as [b |].
  - destruct (locked b).
    + cbn [res]. unfold status_lines in *. cbn in *.
      rewrite List.filter_app, Hw. cbn. rewrite app_nil_r. repeat split.
    + cbn [res_destroyed writeHead log_call set_statusCode].
      destruct (res_destroyed r); cbn; repeat split; exact Hw.
  - cbn [res]. unfold status_lines in *. cbn in *.
    rewrite List.filter_app, Hw. cbn. rewrite app_nil_r. repeat split.
Qed.

(** X20: when no header is refused, [setResponse] leaves in the header
    store of the handle, under each name of the response's headers, the
    value of the last entry of that name (for [set-cookie], the list of
    cookies the splitter makes of the combined value; the value itself
    otherwise), and leaves the handle's other headers as they were;
    nothing that happens afterwards changes the store. *)
Theorem headers_written
    (setHeader_throws : ServerResponse -> string -> HeaderValue -> option string)
    (splitCookiesString : string -> list string) (lambda : bool)
    (res0 : ServerResponse) (response : Response) (evs : list OutboundEvent) :
  Forall (fun kv => toLowerCase (fst kv) = fst kv) (response_headers response) ->
  snd (header_phase setHeader_throws splitCookiesString
         (response_headers response) (response_headers response) res0) = false ->
  let o := outbound_run lambda
             (setResponse setHeader_throws splitCookiesString res0 response) evs in
  forall k,
    res_headers (res o) !! k =
    match last_entry k (response_headers response) with
    | Some v =>
        Some (if String.eqb k "set-cookie"
              then HArr (splitCookiesString
                           (headers_get (response_headers response) "set-cookie"))
              else HStr v)
    | None => res_headers res0 !! k
    end.
Proof.
  intros Hlow Hok o k. subst o.
  destruct (header_phase _ _ _ _ res0) as [r ab] eqn:Hphase. cbn in Hok. subst ab.
  rewrite (proj1 (outbound_run_head lambda evs _)).
  rewrite (proj1 (setResponse_head _ _ _ _ _ Hphase)).
  rewrite (header_phase_store _ _ _ _ _ _ Hlow Hphase k).
  destruct (last_entry k (response_headers response)); [| reflexivity].
  unfold header_value. destruct (String.eqb_spec k "set-cookie") as [-> | _]; reflexivity.
Qed.

Lemma headers_written_witness :
  let o := setResponse accepts_all split_at_comma_space fresh_response cookie_response in
  res_headers (res o) !! "set-cookie" = Some (HArr ["a=1"; "b=2"]) /\
  res_headers (res o) !! "content-type" = Some (HStr "text/plain") /\
  res_headers (res o) !! "x-powered-by" = Some (HStr "node").
Proof.
  pose proof (headers_written accepts_all split_at_comma_space false fresh_response
                cookie_response []) as H.
  cbn [outbound_run fold_left] in H.
  assert (Hlow : Forall (fun kv : string * string => toLowerCase (fst kv) = fst kv)
                   (response_headers cookie_response)).
  { repeat constructor. }
  specialize (H Hlow eq_refl).
  split; [| split].
  - rewrite (H "set-cookie"). reflexivity.
  - rewrite (H "content-type"). reflexivity.
  - rewrite (H "x-powered-by"). reflexivity.
Defined.


(* --------------------------------------------------------------------- *)
(* setResponse: the chunks written                                       *)
(* --------------------------------------------------------------------- *)

Lemma written_chunks_app (a b : list ResCall) :
  written_chunks (a ++ b) = (written_chunks a ++ written_chunks b)%list.
Proof.
  induction a as [| c a IH]; cbn [written_chunks app]; [reflexivity |].
  destruct c; cbn [app]; rewrite IH; reflexivity.
Qed.

Lemma cancel_written (err : option string) (o : Outbound) :
  written (res (cancel err o)) = written (res o) /\
  pending_chunks (cancel err o) = pending_chunks o.
Proof.
  unfold cancel, written, pending_chunks.
  destruct (reader o) as [rd |], err as [e |]; cbn;
    rewrite ?written_chunks_app; cbn; rewrite ?app_nil_r; split; reflexivity.
Qed.

(** What has been written followed by what the reader has still to
    yield does not change: a step moves at most one chunk from the
    second to the first. *)
Lemma next_settled_written (lambda : bool) (o : Outbound) :
  (written (res (next_settled lambda o)) ++ pending_chunks (next_settled lambda o))%list
  = (written (res o) ++ pending_chunks o)%list.
Proof.
  unfold next_settled.
  destruct (loop o); try reflexivity.
  destruct (reader o) as [rd |] eqn:Hrd; [| reflexivity].
  destruct (reader_cancelled rd); [reflexivity |].
  destruct (results rd) as [| [v | | e] rest] eqn:Hres; [reflexivity | | |].
  - unfold write, written, pending_chunks. rewrite Hrd, Hres.
    destruct (write_results (res o)) as [| [] ws]; cbn;
      try destruct lambda; cbn; rewrite written_chunks_app; cbn;
      rewrite ?written_chunks_app; cbn; rewrite ?app_nil_r, <- ?app_assoc;
      reflexivity.
  - unfold written, pending_chunks. rewrite Hrd, Hres. reflexivity.
  - destruct (cancel_written (Some e)
                {| res := res o; reader := Some (with_results rest rd);
                   loop := Failed; unhandled := unhandled o |}) as [H1 H2].
    rewrite H1, H2. unfold written, pending_chunks. rewrite Hrd, Hres. reflexivity.
Qed.

Lemma deliver_written (ev : EventName) (arg : option string)
    (regs : list Registration) (o : Outbound) :
  written (res (fold_left (deliver ev arg) regs o)) = written (res o) /\
  pending_chunks (fold_left (deliver ev arg) regs o) = pending_chunks o.
Proof.
  revert o. induction regs as [| r regs IH]; intros o; cbn [fold_left];
    [split; reflexivity |].
  destruct (IH (deliver ev arg o r)) as [H1 H2]. rewrite H1, H2.
  unfold deliver.
  set (o1 := if reg_once r then _ else o).
  assert (Ho1 : written (res o1) = written (res o) /\
                pending_chunks o1 = pending_chunks o).
  { subst o1. destruct (reg_once r); split; reflexivity. }
  destruct Ho1 as [A1 A2].
  destruct (reg_listener r); cbn [invoke].
  - destruct (cancel_written arg o1) as [B1 B2]. rewrite B1, B2, A1, A2.
    split; reflexivity.
  - split; [exact A1 |]. unfold pending_chunks, next in *. cbn.
    destruct (reader o1); exact A2.
  - split; assumption.
Qed.

Lemma outbound_run_written (lambda : bool) (evs : list OutboundEvent) :
  forall o : Outbound,
    (written (res (outbound_run lambda o evs)) ++
     pending_chunks (outbound_run lambda o evs))%list
    = (written (res o) ++ pending_chunks o)%list.
Proof.
  unfold outbound_run.
  induction evs as [| ev evs IH]; intros o; cbn [fold_left]; [reflexivity |].
  rewrite IH. destruct ev as [| e arg]; cbn [outbound_step].
  - apply next_settled_written.
  - unfold emit.
    destruct (deliver_written e arg
                (List.filter (fun r => EventName_eqb (reg_event r) e)
                   (listeners (res o))) o) as [H1 H2].
    rewrite H1, H2. reflexivity.
Qed.

Lemma outbound_step_written_grows (lambda : bool) (o : Outbound) (ev : OutboundEvent) :
  exists one, written (res (outbound_step lambda o ev)) = (written (res o) ++ one)%list.
Proof.
  destruct ev as [| e arg]; cbn [outbound_step].
  - unfold next_settled.
    destruct (loop o); try (exists []; rewrite app_nil_r; reflexivity).
    destruct (reader o) as [rd |]; [| exists []; rewrite app_nil_r; reflexivity].
    destruct (reader_cancelled rd); [exists []; rewrite app_nil_r; reflexivity |].
    destruct (results rd) as [| [v | | e] rest];
      try (exists []; rewrite app_nil_r; reflexivity).
    + exists [v]. unfold write, written.
      destruct (write_results (res o)) as [| [] ws]; cbn;
        try destruct lambda; cbn; rewrite ?written_chunks_app; cbn;
        rewrite ?written_chunks_app; cbn; rewrite ?app_nil_r; reflexivity.
    + exists []. rewrite app_nil_r.
      exact (proj1 (cancel_written (Some e)
                      {| res := res o; reader := Some (with_results rest rd);
                         loop := Failed; unhandled := unhandled o |})).
  - exists []. rewrite app_nil_r. unfold emit.
    apply (proj1 (deliver_written e arg _ o)).
Qed.

Lemma outbound_run_written_grows (lambda : bool) (evs : list OutboundEvent) :
  forall o : Outbound,
    exists sent, written (res (outbound_run lambda o evs)) = (written (res o) ++ sent)%list.
Proof.
  unfold outbound_run. induction evs as [| ev evs IH]; intros o; cbn [fold_left].
  - exists []. rewrite app_nil_r. reflexivity.
  - destruct (IH (outbound_step lambda o ev)) as [sent Hsent].
    destruct (outbound_step_written_grows lambda o ev) as [one Hone].
    exists (one ++ sent)%list. rewrite Hsent, Hone, app_assoc. reflexivity.
Qed.

Lemma header_phase_writes_nothing
    (setHeader_throws : ServerResponse -> string -> HeaderValue -> option string)
    (splitCookiesString : string -> list string)
    (all entries : list (string * string)) :
  forall (r r' : ServerResponse) (ab : bool),
    header_phase setHeader_throws splitCookiesString all entries r = (r', ab) ->
    written r' = written r.
Proof.
  induction entries as [| [key value] rest IH]; intros r r' ab; cbn [header_phase].
  - intros [= <- _]. reflexivity.
  - destruct (setHeader_throws r key _) as [e |].
    + intros [= <- _]. rewrite remove_headers_store. unfold written. cbn.
      rewrite !written_chunks_app. cbn. rewrite !app_nil_r. reflexivity.
    + intros H. rewrite (IH _ _ _ H). reflexivity.
Qed.

(** Before [next] goes on, nothing of the body is written, and what the
    reader has to yield is a beginning of the chunks of the body. *)
Lemma setResponse_written
    (setHeader_throws : ServerResponse -> string -> HeaderValue -> option string)
    (splitCookiesString : string -> list string)
    (res0 : ServerResponse) (response : Response) :
  let o := setResponse setHeader_throws splitCookiesString res0 response in
  written (res o) = written res0 /\
  exists tail, body_chunks response = (pending_chunks o ++ tail)%list.
Proof.
  unfold setResponse, body_chunks.
  destruct (header_phase _ _ _ _ res0) as [r ab] eqn:Hphase.
  pose proof (header_phase_writes_nothing _ _ _ _ _ _ _ Hphase) as Hw.
  destruct ab.
  - cbn [res reader pending_chunks]. split; [exact Hw | eexists; reflexivity].
  - destruct (response_body response) as [b |].
    + destruct (locked b).
      * unfold written, pending_chunks in *. cbn.
        rewrite !written_chunks_app. cbn. rewrite !app_nil_r.
        split; [exact Hw | eexists; reflexivity].
      * cbn [res_destroyed writeHead log_call set_statusCode].
        destruct (res_destroyed r); unfold written, pending_chunks in *; cbn;
          rewrite !written_chunks_app; cbn; rewrite !app_nil_r;
          (split; [exact Hw | exists []; rewrite app_nil_r; reflexivity]).
    + unfold written, pending_chunks in *. cbn.
      rewrite !written_chunks_app. cbn. rewrite !app_nil_r.
      split; [exact Hw | eexists; reflexivity].
Qed.

(** X22: the chunks are written in the order the body yields them,
    none twice and none skipped before the last one written: whatever
    the response, the handle and what happens after the call, the
    chunks written on the handle are those written before the call
    followed by a beginning of the chunks of the body. *)
Theorem writes_follow_the_body
    (setHeader_throws : ServerResponse -> string -> HeaderValue -> option string)
    (splitCookiesString : string -> list string) (lambda : bool)
    (res0 : ServerResponse) (response : Response) (evs : list OutboundEvent) :
  let o := outbound_run lambda
             (setResponse setHeader_throws splitCookiesString res0 response) evs in
  exists sent rest,
    written (res o) = (written res0 ++ sent)%list /\
    body_chunks response = (sent ++ rest)%list.
Proof.
  intros o.
  destruct (setResponse_written setHeader_throws splitCookiesString res0 response)
    as (Hw0 & tail & Htail).
  pose proof (outbound_run_written lambda evs
                (setResponse setHeader_throws splitCookiesString res0 response)) as Hsum.
  destruct (outbound_run_written_grows lambda evs
              (setResponse setHeader_throws splitCookiesString res0 response))
    as [sent Hsent].
  fold o in Hsum, Hsent. rewrite Hw0 in Hsum, Hsent.
  exists sent, (pending_chunks o ++ tail)%list. split; [exact Hsent |].
  rewrite Hsent, <- app_assoc in Hsum. apply app_inv_head in Hsum.
  rewrite Htail, <- Hsum, <- app_assoc. reflexivity.
Qed.






(* --------------------------------------------------------------------- *)
(* setResponse: back-pressure                                            *)
(* --------------------------------------------------------------------- *)

Lemma deliver_loop_in_lambda (ev : EventName) (arg : option string)
    (regs : list Registration) :
  forall o : Outbound,
    loop o <> AwaitingDrain ->
    loop (fold_left (deliver ev arg) regs o) <> AwaitingDrain.
Proof.
  induction regs as [| r regs IH]; intros o Ho; cbn [fold_left]; [exact Ho |].
  apply IH. unfold deliver.
  set (o1 := if reg_once r then _ else o).
  assert (Ho1 : loop o1 <> AwaitingDrain).
  { subst o1. destruct (reg_once r); exact Ho. }
  destruct (reg_listener r); cbn [invoke].
  - unfold cancel. destruct (reader o1); exact Ho1.
  - discriminate.
  - exact Ho1.
Qed.

(** X24: with one of the Lambda markers in the environment the loop
    never waits for a drain, whatever the handle answers to the writes:
    after a refused write it goes straight to the next read, without
    ending the handle on that chunk. *)
Theorem lambda_never_waits
    (setHeader_throws : ServerResponse -> string -> HeaderValue -> option string)
    (splitCookiesString : string -> list string)
    (res0 : ServerResponse) (response : Response) (evs : list OutboundEvent) :
  loop (outbound_run true
          (setResponse setHeader_throws splitCookiesString res0 response) evs)
    <> AwaitingDrain /\
  (forall o rd v rest ws,
     loop o = AwaitingRead -> reader o = Some rd -> reader_cancelled rd = false ->
     results rd = RChunk v :: rest -> write_results (res o) = false :: ws ->
     let o' := next_settled true o in
     loop o' = AwaitingRead /\
     written (res o') = (written (res o) ++ [v])%list /\
     end_calls (res o') = end_calls (res o) /\
     listeners (res o') = listeners (res o) /\
     pending_chunks o' = chunks_of rest).
Proof.
  split.
  - assert (Hstart : loop (setResponse setHeader_throws splitCookiesString res0 response)
                     <> AwaitingDrain).
    { unfold setResponse. destruct (header_phase _ _ _ _ res0) as [r ab].
      destruct ab; [discriminate |].
      destruct (response_body response) as [b |]; [| discriminate].
      destruct (locked b); [discriminate |].
      cbn [res_destroyed writeHead log_call set_statusCode].
      destruct (res_destroyed r); discriminate. }
    revert Hstart. generalize (setResponse setHeader_throws splitCookiesString res0 response).
    unfold outbound_run. induction evs as [| ev evs IH]; intros o Ho; cbn [fold_left];
      [exact Ho |].
    apply IH. destruct ev as [| e arg]; cbn [outbound_step].
    + unfold next_settled. destruct (loop o) eqn:Hl; try (rewrite Hl; discriminate);
        try contradiction.
      destruct (reader o) as [rd |]; [| rewrite Hl; discriminate].
      destruct (reader_cancelled rd); [discriminate |].
      destruct (results rd) as [| [v | | e] rest]; [rewrite Hl; discriminate | | |].
      * destruct (write v (res o)) as [r [|]]; discriminate.
      * discriminate.
      * unfold cancel. cbn. discriminate.
    + unfold emit. apply deliver_loop_in_lambda. exact Ho.
  - intros o rd v rest ws Hloop Hrd Hnc Hres Hw o'. subst o'.
    unfold next_settled. rewrite Hloop, Hrd, Hnc, Hres. unfold write. rewrite Hw.
    cbn. unfold written, end_calls, pending_chunks. cbn.
    rewrite written_chunks_app, List.filter_app, length_app. cbn.
    repeat split. lia.
Qed.

Lemma lambda_never_waits_witness :
  let o' := next_settled true congested in
  loop o' = AwaitingRead /\
  written (res o') = ["a"] /\
  end_calls (res o') = 0%nat /\
  pending_chunks o' = ["b"].
Proof.
  destruct (proj2 (lambda_never_waits accepts_all one_cookie fresh_response
                     (text_response None) [])
              congested _ "a" [RChunk "b"; RDone] []
              eq_refl eq_refl eq_refl eq_refl eq_refl) as (H1 & H2 & H3 & _ & H5).
  repeat split; assumption.
Defined.

Lemma deliver_others_loop (ev : EventName) (arg : option string)
    (regs : list Registration) :
  forall o : Outbound,
    Forall (fun r => is_other r = true) regs ->
    loop (fold_left (deliver ev arg) regs o) = loop o.
Proof.
  induction regs as [| r regs IH]; intros o Hall; cbn [fold_left]; [reflexivity |].
  inversion Hall as [| ? ? Hr Hrest]; subst.
  rewrite (IH _ Hrest). unfold deliver, is_other in *.
  destruct (reg_listener r); try discriminate Hr. cbn [invoke].
  destruct (reg_once r); reflexivity.
Qed.

Lemma own_listeners_remove_once_next (ev : EventName) (rs : list Registration) :
  own_listeners (remove_once ev next_listener rs) =
  remove_once ev next_listener (own_listeners rs).
Proof.
  unfold own_listeners.
  induction rs as [| r rs IH]; cbn [remove_once List.filter]; [reflexivity |].
  destruct (matches ev next_listener r && reg_once r) eqn:Hm.
  - assert (Ho : is_other r = false).
    { apply andb_true_iff in Hm as [Hm _]. unfold matches in Hm.
      apply andb_true_iff in Hm as [_ Hm]. unfold is_other.
      destruct (reg_listener r); [reflexivity | reflexivity | discriminate Hm]. }
    rewrite Ho. cbn [negb remove_once]. rewrite Hm. reflexivity.
  - cbn [List.filter]. destruct (is_other r); cbn [negb].
    + exact IH.
    + cbn [remove_once]. rewrite Hm, IH. reflexivity.
Qed.

Lemma remove_once_last (ev : EventName) (l : Listener)
    (rs : list Registration) (r : Registration) :
  Forall (fun x => matches ev l x = false) rs ->
  matches ev l r && reg_once r = true ->
  remove_once ev l (rs ++ [r]) = rs.
Proof.
  intros Hall Hr. induction Hall as [| x xs Hx _ IH]; cbn [app remove_once].
  - rewrite Hr. reflexivity.
  - rewrite Hx. cbn [andb]. rewrite IH. reflexivity.
Qed.

Lemma own_listeners_no_drain (rs : list Registration) :
  Forall (fun r => is_other r = true) (drain_listeners rs) ->
  Forall (fun x => matches ev_drain next_listener x = false) (own_listeners rs).
Proof.
  unfold drain_listeners, own_listeners.
  induction rs as [| r rs IH]; cbn [List.filter]; intros Hall; [constructor |].
  destruct (EventName_eqb (reg_event r) ev_drain) eqn:Hev.
  - inversion Hall as [| ? ? Hr Hrest]; subst. rewrite Hr. cbn [negb].
    apply IH, Hrest.
  - destruct (is_other r); cbn [negb]; [apply IH, Hall |].
    constructor; [| apply IH, Hall]. unfold matches. rewrite Hev. reflexivity.
Qed.

(** X25: outside Lambda, a write the handle refuses parks the loop:
    the chunk is written, [next] is registered once for [drain], the
    handle is not ended and no read is asked for, and a settling read
    finds nothing to do.  The [drain] of the handle then calls [next]
    after the drain listeners of others, takes its registration off
    again and asks for the read that follows the refused chunk, without
    writing anything itself. *)
Theorem refused_write_waits_for_drain
    (o : Outbound) (rd : ResponseBody) (v : string) (rest : list ReadResult)
    (ws : list bool) :
  loop o = AwaitingRead -> reader o = Some rd -> reader_cancelled rd = false ->
  results rd = RChunk v :: rest -> write_results (res o) = false :: ws ->
  Forall (fun r => is_other r = true) (drain_listeners (listeners (res o))) ->
  let o1 := next_settled false o in
  let o2 := emit ev_drain None o1 in
  (loop o1 = AwaitingDrain /\
   res_calls (res o1) = (res_calls (res o) ++ [Write v])%list /\
   listeners (res o1) = (listeners (res o) ++ [next_on_drain])%list /\
   reader o1 = Some (with_results rest rd) /\
   next_settled false o1 = o1) /\
  (loop o2 = AwaitingRead /\
   res_calls (res o2) = res_calls (res o1) /\
   own_listeners (listeners (res o2)) = own_listeners (listeners (res o)) /\
   reader o2 = Some (reader_read (with_results rest rd))).
Proof.
  intros Hloop Hrd Hnc Hres Hw Hdrain. cbv zeta.
  assert (Ho1 : next_settled false o =
                {| res := once ev_drain next_listener (fst (write v (res o)));
                   reader := Some (with_results rest rd);
                   loop := AwaitingDrain; unhandled := unhandled o |}).
  { unfold next_settled. rewrite Hloop, Hrd, Hnc, Hres. unfold write. rewrite Hw.
    reflexivity. }
  rewrite Ho1. set (o1 := {| res := _; reader := _; loop := _; unhandled := _ |}).
  assert (Hcalls : res_calls (res o1) = (res_calls (res o) ++ [Write v])%list).
  { subst o1. unfold write. rewrite Hw. reflexivity. }
  assert (Hls : listeners (res o1) = (listeners (res o) ++ [next_on_drain])%list).
  { subst o1. unfold write. rewrite Hw. reflexivity. }
  split.
  - repeat split; try assumption.
  - unfold emit. rewrite Hls, List.filter_app, fold_left_app.
    fold (drain_listeners (listeners (res o))).
    set (regs := drain_listeners (listeners (res o))) in *.
    destruct (deliver_others ev_drain None regs o1 Hdrain) as (H1 & H2 & _ & H4).
    pose proof (deliver_others_loop ev_drain None regs o1 Hdrain) as H5.
    set (oa := fold_left (deliver ev_drain None) regs o1) in *.
    clearbody oa.
    change (fold_left (deliver ev_drain None)
              (List.filter (fun r => EventName_eqb (reg_event r) ev_drain)
                 [next_on_drain]) oa)
      with (next (with_res (with_listeners
                              (remove_once ev_drain next_listener (listeners (res oa)))
                              (res oa)) oa)).
    unfold next. cbn [loop res reader with_res with_listeners res_calls listeners].
    repeat split.
    + exact H1.
    + rewrite own_listeners_remove_once_next, H4, Hls.
      unfold own_listeners at 1. rewrite List.filter_app.
      cbn [List.filter next_on_drain is_other reg_listener negb].
      apply remove_once_last; [| reflexivity].
      apply own_listeners_no_drain. exact Hdrain.
    + rewrite H2. reflexivity.
Qed.

Lemma refused_write_waits_for_drain_witness :
  let o1 := next_settled false congested in
  let o2 := emit ev_drain None o1 in
  loop o1 = AwaitingDrain /\ loop o2 = AwaitingRead /\
  res_calls (res o2) = [WriteHead 200; Write "a"] /\
  own_listeners (listeners (res o2)) = [cancel_on_close; cancel_on_error].
Proof.
  destruct (refused_write_waits_for_drain congested _ "a" [RChunk "b"; RDone] []
              eq_refl eq_refl eq_refl eq_refl eq_refl)
    as ((H1 & H2 & _) & (H3 & H4 & H5 & _)).
  - repeat constructor.
  - cbv zeta. rewrite H1, H3, H4, H2, H5. repeat split.
Defined.

(* --------------------------------------------------------------------- *)
(* setResponse: the answers given at once                                *)
(* --------------------------------------------------------------------- *)

Lemma header_phase_listeners
    (setHeader_throws : ServerResponse -> string -> HeaderValue -> option string)
    (splitCookiesString : string -> list string)
    (all entries : list (string * string)) :
  forall r : ServerResponse,
    listeners (fst (header_phase setHeader_throws splitCookiesString all entries r)) =
    listeners r.
Proof.
  induction entries as [| [key value] rest IH]; intros r; cbn [header_phase];
    [reflexivity |].
  destruct (setHeader_throws r key _) as [e |].
  - rewrite remove_headers_store. reflexivity.
  - rewrite IH. reflexivity.
Qed.

Lemma own_listeners_none (rs : list Registration) :
  Forall (fun r => is_other r = true) rs <-> own_listeners rs = [].
Proof.
  unfold own_listeners. split.
  - intros Hall. induction Hall as [| r rs Hr _ IH]; cbn [List.filter]; [reflexivity |].
    rewrite Hr. exact IH.
  - induction rs as [| r rs IH]; cbn [List.filter]; [constructor |].
    destruct (is_other r) eqn:Hr; cbn [negb]; [| discriminate].
    intros H. constructor; [exact Hr | exact (IH H)].
Qed.

Lemma idle_step (lambda : bool) (o : Outbound) (ev : OutboundEvent) :
  loop o = NotStarted -> own_listeners (listeners (res o)) = [] ->
  let o' := outbound_step lambda o ev in
  loop o' = NotStarted /\ own_listeners (listeners (res o')) = [] /\
  res_calls (res o') = res_calls (res o) /\ reader o' = reader o /\
  unhandled o' = unhandled o.
Proof.
  intros Hloop Hown. destruct ev as [| e arg]; cbn [outbound_step].
  - unfold next_settled. rewrite Hloop. repeat split; assumption.
  - unfold emit.
    assert (Hregs : Forall (fun r => is_other r = true)
                      (List.filter (fun r => EventName_eqb (reg_event r) e)
                         (listeners (res o)))).
    { apply own_listeners_none in Hown. apply List.Forall_forall. intros x Hx.
      apply List.filter_In in Hx as [Hx _].
      rewrite List.Forall_forall in Hown. exact (Hown x Hx). }
    destruct (deliver_others e arg _ o Hregs) as (H1 & H2 & H3 & H4).
    cbv zeta. rewrite (deliver_others_loop e arg _ o Hregs), H1, H2, H3, H4.
    repeat split; assumption.
Qed.

Lemma setResponse_at_once
    (setHeader_throws : ServerResponse -> string -> HeaderValue -> option string)
    (splitCookiesString : string -> list string)
    (res0 : ServerResponse) (response : Response) :
  answers_at_once setHeader_throws splitCookiesString res0 response ->
  let o := setResponse setHeader_throws splitCookiesString res0 response in
  loop o = NotStarted /\ listeners (res o) = listeners res0.
Proof.
  intros Hpath. cbv zeta.
  pose proof (header_phase_listeners setHeader_throws splitCookiesString
                (response_headers response) (response_headers response) res0) as Hls.
  unfold answers_at_once in Hpath. unfold setResponse.
  destruct (header_phase _ _ _ _ res0) as [r ab] eqn:Hphase. cbn [fst snd] in *.
  destruct ab; [split; [reflexivity | exact Hls] |].
  destruct Hpath as [Hab | [Hb | (b & Hb & Hor)]]; [discriminate Hab | |].
  - rewrite Hb. split; [reflexivity | exact Hls].
  - rewrite Hb. destruct (locked b) eqn:Hl; [split; [reflexivity | exact Hls] |].
    destruct Hor as [Hx | Hd]; [discriminate Hx |].
    destruct (header_phase_written _ _ _ _ _ _ Hphase) as (_ & _ & Hd' & _).
    cbn [res_destroyed writeHead log_call set_statusCode]. rewrite Hd', Hd.
    split; [reflexivity | exact Hls].
Qed.

(** X26: on a handle found destroyed the status line is still written,
    no listener is registered and the reader is cancelled once without
    a reason; the promise of that cancel is left alone, so when it
    rejects the rejection goes unhandled, which the [cancel] handler of
    the streaming path prevents with its [catch]. *)
Theorem destroyed_handle_cancel_is_unhandled
    (setHeader_throws : ServerResponse -> string -> HeaderValue -> option string)
    (splitCookiesString : string -> list string)
    (res0 : ServerResponse) (response : Response) (b : ResponseBody) :
  snd (header_phase setHeader_throws splitCookiesString
         (response_headers response) (response_headers response) res0) = false ->
  response_body response = Some b -> locked b = false ->
  res_destroyed res0 = true ->
  let o := setResponse setHeader_throws splitCookiesString res0 response in
  res_calls (res o) = (res_calls res0 ++ [WriteHead (status response)])%list /\
  listeners (res o) = listeners res0 /\
  (exists rd, reader o = Some rd /\ reader_cancelled rd = true /\
              reader_calls rd = (reader_calls b ++ [Cancel None])%list) /\
  unhandled o = match cancel_rejects b with Some e => [e] | None => [] end /\
  (forall err o' rd', reader o' = Some rd' ->
                      unhandled (cancel err o') = unhandled o').
Proof.
  intros Hab Hb Hl Hd. cbv zeta. unfold setResponse.
  destruct (header_phase _ _ _ _ res0) as [r ab] eqn:Hphase. cbn [snd] in Hab. subst ab.
  destruct (header_phase_written _ _ _ _ _ _ Hphase) as (_ & _ & Hd' & Hls & _ & Hc).
  rewrite Hb, Hl. cbn [res_destroyed writeHead log_call set_statusCode].
  rewrite Hd', Hd. cbn. rewrite Hc, Hls.
  split; [reflexivity |]. split; [reflexivity |].
  split; [eexists; repeat split |].
  split; [destruct (cancel_rejects b); reflexivity |].
  intros err o' rd' Hrd'. unfold cancel. rewrite Hrd'. reflexivity.
Qed.

Lemma destroyed_handle_cancel_is_unhandled_witness :
  unhandled (setResponse accepts_all one_cookie destroyed_response
               (text_response (Some refusing_body))) = ["already errored"] /\
  res_calls (res (setResponse accepts_all one_cookie destroyed_response
                    (text_response (Some refusing_body)))) = [WriteHead 200].
Proof.
  destruct (destroyed_handle_cancel_is_unhandled accepts_all one_cookie
              destroyed_response (text_response (Some refusing_body)) refusing_body
              eq_refl eq_refl eq_refl eq_refl) as (H1 & _ & _ & H4 & _).
  split; [exact H4 | exact H1].
Defined.

(** X27: an answer given at once is final.  When a header write throws,
    when there is no body, when the body is locked or the handle is
    found destroyed, [setResponse] leaves no listener of its own behind,
    and no later notification of the handle and no settling promise
    makes it call the handle or the reader again. *)
Theorem answer_at_once_is_final
    (setHeader_throws : ServerResponse -> string -> HeaderValue -> option string)
    (splitCookiesString : string -> list string) (lambda : bool)
    (res0 : ServerResponse) (response : Response) (evs : list OutboundEvent) :
  answers_at_once setHeader_throws splitCookiesString res0 response ->
  Forall (fun r => is_other r = true) (listeners res0) ->
  let o := setResponse setHeader_throws splitCookiesString res0 response in
  let o' := outbound_run lambda o evs in
  own_listeners (listeners (res o)) = [] /\
  res_calls (res o') = res_calls (res o) /\
  reader o' = reader o /\
  unhandled o' = unhandled o /\
  settled o' = true.
Proof.
  intros Hpath Hothers. cbv zeta.
  destruct (setResponse_at_once _ _ _ _ Hpath) as (Hloop & Hls).
  assert (Hown : own_listeners
                   (listeners (res (setResponse setHeader_throws splitCookiesString
                                      res0 response))) = []).
  { rewrite Hls. apply own_listeners_none. exact Hothers. }
  split; [exact Hown |].
  revert Hloop Hown.
  generalize (setResponse setHeader_throws splitCookiesString res0 response).
  unfold outbound_run.
  induction evs as [| ev evs IH]; intros o Hloop Hown; cbn [fold_left].
  - unfold settled. rewrite Hloop. repeat split.
  - destruct (idle_step lambda o ev Hloop Hown) as (H1 & H2 & H3 & H4 & H5).
    destruct (IH _ H1 H2) as (K3 & K4 & K5 & K6).
    rewrite K3, K4, K5, H3, H4, H5. repeat split. exact K6.
Qed.

Lemma answer_at_once_is_final_witness :
  let o := setResponse rejects_line_feed one_cookie fresh_response bad_header_response in
  let o' := outbound_run false o [Emit ev_close None; Settle; Emit ev_drain None] in
  res_calls (res o') = res_calls (res o) /\ settled o' = true.
Proof.
  destruct (answer_at_once_is_final rejects_line_feed one_cookie false fresh_response
              bad_header_response [Emit ev_close None; Settle; Emit ev_drain None])
    as (_ & H2 & _ & _ & H5).
  - left. reflexivity.
  - constructor.
  - split; [exact H2 | exact H5].
Defined.
